(** * SolitaireCLI: the move engine and the save-file codec

    A shallow embedding of [Card], [Deck], [Game] and [BufferedIO] of the
    Solitaire sources, and the properties of the rule engine proved on it.

    Conventions of the embedding.
    - [Suit] and [Rank] are [enum class ... : unsigned char]; a card stores
      their underlying value, a [Z] in [0, 256).  The named enumerators are
      the constants [Hearts] .. [Spades] and [Ace] .. [King]; a
      [static_cast] into the enum is [to_uchar].
    - [Card::Card()] initialises [valid] only.  The other three members keep
      whatever the storage held; every default construction therefore takes
      the previous contents of the storage as an argument.
    - [ASSERT] aborts in a debug build and is a no-op in a release build,
      where an index out of range is undefined behaviour.  Operations return
      [None] for both, [Some (result, state)] otherwise.
    - [std::shuffle] is driven by a generator that [Deck::shuffle] creates
      afresh at every call; a [Generator] is the permutation this generator
      makes [std::shuffle] apply. *)

From stdpp Require Import base numbers option list strings gmap.

Local Open Scope Z_scope.

(** ** Card.hpp / Card.cpp *)

Definition Hearts : Z := 0.
Definition Diamonds : Z := 1.
Definition Clubs : Z := 2.
Definition Spades : Z := 3.

Definition Ace : Z := 1.
Definition King : Z := 13.

(** [static_cast<Suit>(int)], [static_cast<Rank>(int)]: conversion to the
    underlying [unsigned char]. *)
Definition to_uchar (x : Z) : Z := x `mod` 256.

Record Card : Type := mkCard {
  suit : Z;
  rank : Z;
  facingUp : bool;
  valid : bool
}.

Global Instance Card_eq_dec : EqDecision Card.
Proof. solve_decision. Defined.

(** [Card::Card() : valid(false) {}]; [u] is the storage before the call. *)
Definition Card_default (u : Card) : Card :=
  mkCard (suit u) (rank u) (facingUp u) false.

(** [Card::Card(Suit suit, Rank rank)]. *)
Definition Card_new (s r : Z) : Card := mkCard s r false true.

Definition isFacingUp (c : Card) : bool := facingUp c.

Definition flip (c : Card) : Card :=
  mkCard (suit c) (rank c) (negb (facingUp c)) (valid c).

Definition getSuit (c : Card) : Z := suit c.
Definition getRank (c : Card) : Z := rank c.

Definition isRed (c : Card) : bool :=
  (suit c =? Hearts) || (suit c =? Diamonds).

Definition isValid (c : Card) : bool := valid c.

(** ** Deck.hpp / Deck.cpp

    [Deck] has the single member [cards]; the last element is the top. *)

Definition Deck : Type := list Card.

Record Generator : Type := mkGenerator {
  permute : list Card → list Card;
  permute_perm : ∀ l, permute l ≡ₚ l
}.

Definition ASSERT (b : bool) : option unit :=
  if b then Some () else None.

Definition Deck_isEmpty (d : Deck) : bool := (length d =? 0)%nat.

Definition Deck_shuffle (g : Generator) (d : Deck) : Deck := permute g d.

(** The nested loop of [Deck::reset], suits outermost, before the shuffle. *)
Definition canonical_cards : list Card :=
  s ← [0; 1; 2; 3]; r ← seqZ 1 13; [Card_new (to_uchar s) (to_uchar r)].

Definition Deck_reset (g : Generator) : Deck :=
  Deck_shuffle g canonical_cards.

Definition Deck_drawCard (d : Deck) : option (Card * Deck) :=
  _ ← ASSERT (negb (Deck_isEmpty d));
  card ← d !! (length d - 1)%nat;
  Some (card, take (length d - 1)%nat d).

(** [Deck::reShuffle]: returns the deck and the (cleared) pile. *)
Definition Deck_reShuffle (g : Generator) (d : Deck) (pile : list Card)
  : option (Deck * list Card) :=
  _ ← ASSERT (Deck_isEmpty d);
  let cards := pile in
  let pile := [] in
  let cards := Deck_shuffle g cards in
  Some (flip <$> cards, pile).

(** ** Game.hpp / Game.cpp *)

Definition columnsSize : Z := 7.
Definition reserveSlotSize : Z := 4.

Record Game : Type := mkGame {
  deck : Deck;
  currentCard : Card;
  columns : list (list Card);
  pile : list Card;
  reserveSlots : list Card
}.

Definition set_deck (d : Deck) (g : Game) : Game :=
  mkGame d (currentCard g) (columns g) (pile g) (reserveSlots g).
Definition set_currentCard (c : Card) (g : Game) : Game :=
  mkGame (deck g) c (columns g) (pile g) (reserveSlots g).
Definition set_columns (cs : list (list Card)) (g : Game) : Game :=
  mkGame (deck g) (currentCard g) cs (pile g) (reserveSlots g).
Definition set_pile (p : list Card) (g : Game) : Game :=
  mkGame (deck g) (currentCard g) (columns g) p (reserveSlots g).
Definition set_reserveSlots (rs : list Card) (g : Game) : Game :=
  mkGame (deck g) (currentCard g) (columns g) (pile g) rs.

(** [columns[i]] and [reserveSlots[i]] for an [int] index. *)
Definition column (g : Game) (i : Z) : option (list Card) :=
  if i <? 0 then None else columns g !! Z.to_nat i.
Definition reserveSlot (g : Game) (i : Z) : option Card :=
  if i <? 0 then None else reserveSlots g !! Z.to_nat i.

Definition set_column (i : Z) (c : list Card) (g : Game) : Game :=
  set_columns (<[Z.to_nat i := c]> (columns g)) g.
Definition set_reserveSlot (i : Z) (c : Card) (g : Game) : Game :=
  set_reserveSlots (<[Z.to_nat i := c]> (reserveSlots g)) g.

(** [v.back().flip()] guarded by [!v.empty() && !v.back().isFacingUp()]. *)
Definition reveal (v : list Card) : list Card :=
  match last v with
  | Some c => if negb (isFacingUp c) then <[(length v - 1)%nat := flip c]> v else v
  | None => v
  end.

(** [Game::Game() : deck(), currentCard() {}]; [u 0 .. u 3] is the storage of
    the reserve slots and [u 4] that of [currentCard]. *)
Definition Game_new (g : Generator) (u : nat → Card) : Game :=
  mkGame (Deck_reset g) (Card_default (u 4%nat))
         (replicate 7 []) []
         ((λ i, Card_default (u i)) <$> seq 0 4).

(** The inner loop of [Game::start]: [n] times
    [columns[i].push_back(deck.drawCard())]. *)
Fixpoint deal (n : nat) (i : Z) (g : Game) : option Game :=
  match n with
  | O => Some g
  | S n =>
      '(card, d) ← Deck_drawCard (deck g);
      col ← column g i;
      deal n i (set_column i (col ++ [card]) (set_deck d g))
  end.

(** The outer loop of [Game::start], for the columns [i, i + n). *)
Fixpoint start_from (n : nat) (i : Z) (g : Game) : option Game :=
  match n with
  | O => Some g
  | S n =>
      g ← deal (Z.to_nat (i + 1)) i g;
      col ← column g i;
      let size := Z.of_nat (length col) in
      c ← col !! Z.to_nat (size - 1);
      start_from n (i + 1)
        (set_column i (<[Z.to_nat (size - 1) := flip c]> col) g)
  end.

Definition Game_start (g : Game) : option Game :=
  start_from (Z.to_nat columnsSize) 0 g.

Definition Game_drawCard (g : Game) : option (bool * Game) :=
  if Deck_isEmpty (deck g) then Some (false, g) else
  '(card, d) ← Deck_drawCard (deck g);
  let currentCard := flip card in
  Some (true, set_pile (pile g ++ [currentCard])
                (set_currentCard currentCard (set_deck d g))).

Definition Game_moveCard (fromCol toCol count : Z) (g : Game)
  : option (bool * Game) :=
  _ ← ASSERT ((fromCol <? columnsSize) && (fromCol >=? 0));
  _ ← ASSERT ((toCol <? columnsSize) && (toCol >=? 0));
  from ← column g fromCol;
  to ← column g toCol;
  if (count <=? 0) || (count >? Z.of_nat (length from)) then Some (false, g) else
  startCard ← from !! Z.to_nat (Z.of_nat (length from) - count);
  if negb (isFacingUp startCard) then Some (false, g) else
  if match last to with
     | None => negb (getRank startCard =? King)
     | Some top => eqb (isRed top) (isRed startCard)
                   || negb (getRank top =? getRank startCard + 1)
     end
  then Some (false, g) else
  let movingCards := drop (Z.to_nat (Z.of_nat (length from) - count)) from in
  let g := set_column toCol (to ++ movingCards) g in
  from ← column g fromCol;
  let g := set_column fromCol
             (take (Z.to_nat (Z.of_nat (length from) - count)) from) g in
  from ← column g fromCol;
  Some (true, set_column fromCol (reveal from) g).

Definition Game_moveFromPileToColumn (toCol : Z) (g : Game)
  : option (bool * Game) :=
  _ ← ASSERT ((toCol <? columnsSize) && (toCol >=? 0));
  match last (pile g) with
  | None => Some (false, g)
  | Some card =>
      to ← column g toCol;
      if match last to with
         | None => negb (getRank card =? King)
         | Some top => eqb (isRed top) (isRed card)
                       || negb (getRank top =? getRank card + 1)
         end
      then Some (false, g) else
      Some (true, set_pile (take (length (pile g) - 1)%nat (pile g))
                    (set_column toCol (to ++ [card]) g))
  end.

(** The foundation test shared, textually, by [moveFromPileToReserve] and
    [moveFromColumnToReserve]; [&&] binds tighter than [||]. *)
Definition Game_moveFromPileToReserve (slot : Z) (g : Game)
  : option (bool * Game) :=
  _ ← ASSERT ((slot <? reserveSlotSize) && (slot >=? 0));
  match last (pile g) with
  | None => Some (false, g)
  | Some card =>
      r ← reserveSlot g slot;
      let cardValid := isValid r in
      if (negb cardValid && (getRank card =? Ace) && (getSuit card =? slot))
         || ((cardValid && (getRank card >? getRank r))
             && (getSuit card =? slot))
      then Some (true, set_pile (take (length (pile g) - 1)%nat (pile g))
                         (set_reserveSlot slot card g))
      else Some (false, g)
  end.

Definition Game_moveFromColumnToReserve (fromCol slot : Z) (g : Game)
  : option (bool * Game) :=
  _ ← ASSERT ((fromCol <? columnsSize) && (fromCol >=? 0));
  _ ← ASSERT ((slot <? reserveSlotSize) && (slot >=? 0));
  col ← column g fromCol;
  match last col with
  | None => Some (false, g)
  | Some card =>
      if negb (isFacingUp card) then Some (false, g) else
      r ← reserveSlot g slot;
      let cardValid := isValid r in
      if (negb cardValid && (getRank card =? Ace) && (getSuit card =? slot))
         || ((cardValid && (getRank card >? getRank r))
             && (getSuit card =? slot))
      then
        let g := set_reserveSlot slot card g in
        let col := take (length col - 1)%nat col in
        Some (true, set_column fromCol (reveal col) g)
      else Some (false, g)
  end.

(** The second assertion of the source tests [slot >= 0] twice and never
    [toCol >= 0]; a negative [toCol] then indexes out of bounds. [u] is the
    storage of the temporary [Card()] of the Ace branch. *)
Definition Game_moveFromReserveToColumn (u : Card) (slot toCol : Z) (g : Game)
  : option (bool * Game) :=
  _ ← ASSERT ((slot <? reserveSlotSize) && (slot >=? 0));
  _ ← ASSERT ((toCol <? columnsSize) && (slot >=? 0));
  col ← column g toCol;
  card ← reserveSlot g slot;
  if match last col with
     | None => negb (getRank card =? King)
     | Some top => eqb (isRed top) (isRed card)
                   || negb (getRank top =? getRank card + 1)
     end
  then Some (false, g) else
  let g := set_column toCol (col ++ [card]) g in
  if negb (getRank card =? Ace) then
    Some (true, set_reserveSlot slot
                  (flip (Card_new (getSuit card) (to_uchar (getRank card - 1)))) g)
  else
    Some (true, set_reserveSlot slot (Card_default u) g).

(** The inner loop of [Game::isGameWon] over [j, j + n), with its two
    [break]s. *)
Fixpoint columnSet_from (n : nat) (j : Z) (column : list Card) : option bool :=
  match n with
  | O => Some true
  | S n =>
      cj ← column !! Z.to_nat j;
      let expected := to_uchar (13 - j) in
      if negb (getRank cj =? expected) || negb (isFacingUp cj) then Some false
      else if j >? 0 then
        cp ← column !! Z.to_nat (j - 1);
        if eqb (isRed cj) (isRed cp) then Some false
        else columnSet_from n (j + 1) column
      else columnSet_from n (j + 1) column
  end.

(** The outer loop of [Game::isGameWon] over the columns [i, i + n). *)
Fixpoint countSets (n : nat) (i cnt : Z) (g : Game) : option Z :=
  match n with
  | O => Some cnt
  | S n =>
      col ← column g i;
      if negb (length col =? 13)%nat then countSets n (i + 1) cnt g else
      columnSet ← columnSet_from 13 0 col;
      countSets n (i + 1) (if columnSet : bool then cnt + 1 else cnt) g
  end.

Definition Game_isGameWon (g : Game) : option bool :=
  cnt ← countSets 7 0 0 g;
  Some (cnt =? 4).

(** ** util/fs.hpp: BufferedIO

    A file is its sequence of bytes, each a [Z] in [0, 256).  A file system
    records the files that exist and which names the two [open] calls
    succeed on. *)

Record FileSystem : Type := mkFileSystem {
  files : gmap string (list Z);
  opens_for_output : string → bool;
  opens_for_input : string → bool
}.

Definition fileExists (fs : FileSystem) (filename : string) : bool :=
  bool_decide (is_Some (files fs !! filename)).

(** [int32_t] from a wider value: two's complement wrap-around. *)
Definition to_int32 (x : Z) : Z := (x + 2 ^ 31) `mod` 2 ^ 32 - 2 ^ 31.

(** *** BufferedFileWriter

    The writer is the bytes written so far; once the file is open every
    [write] is taken to succeed (the source ignores the status that
    [writeInt] and [writeBool] return). *)
Definition Writer : Type := list Z.

Definition Writer_write (data : list Z) (size : nat) (w : Writer) : Writer :=
  w ++ take size data.

(** The array [buffer] that [writeInt] fills. *)
Definition writeInt_buffer (value : Z) : list Z :=
  [Z.land value 255;
   Z.land (Z.shiftr value 8) 255;
   Z.land (Z.shiftr value 16) 255;
   Z.land (Z.shiftr value 24) 255].

Definition writeInt (value : Z) (w : Writer) : Writer :=
  w ++ writeInt_buffer value.

Definition writeBool (value : bool) (w : Writer) : Writer :=
  w ++ [if value then 1 else 0].

(** *** BufferedFileReader

    The reader is the bytes not yet consumed.  A [read] that meets the end
    of the file consumes what is left and sets the fail bit, after which
    every read fails: the empty remainder stands for that state. *)
Definition Reader : Type := list Z.

(** [read(data, maxBytes)] into a buffer that held [data]. *)
Definition Reader_read (data : list Z) (maxBytes : nat) (r : Reader)
  : list Z * Reader :=
  if (maxBytes <=? length r)%nat
  then (take maxBytes r ++ drop maxBytes data, drop maxBytes r)
  else (r ++ drop (length r) data, []).

Definition readInt (r : Reader) : Z * Reader :=
  match r with
  | b0 :: b1 :: b2 :: b3 :: r =>
      (to_int32 (Z.lor (Z.lor (Z.lor b0 (Z.shiftl b1 8)) (Z.shiftl b2 16))
                       (Z.shiftl b3 24)), r)
  | _ => (-1, [])
  end.

Definition readBool (r : Reader) : Z * Reader :=
  match r with
  | val :: r => (if val =? 0 then 0 else 1, r)
  | [] => (-1, [])
  end.

(** *** Card::writeCard, Card::readCard *)

Definition writeCard (c : Card) (w : Writer) : Writer :=
  let w := writeInt (suit c) w in
  let w := writeInt (rank c) w in
  let w := writeBool (facingUp c) w in
  writeBool (valid c) w.

(** [int] to [bool]: every non-zero value, [-1] included, is [true]. *)
Definition int_to_bool (x : Z) : bool := negb (x =? 0).

Definition readCard (r : Reader) : Card * Reader :=
  let '(s, r) := readInt r in
  let '(k, r) := readInt r in
  let '(f, r) := readBool r in
  let '(v, r) := readBool r in
  (mkCard (to_uchar s) (to_uchar k) (int_to_bool f) (int_to_bool v), r).

Definition writeCards (cards : list Card) (w : Writer) : Writer :=
  foldl (λ w c, writeCard c w) w cards.

Fixpoint readCards (n : nat) (r : Reader) : list Card * Reader :=
  match n with
  | O => ([], r)
  | S n =>
      let '(c, r) := readCard r in
      let '(cs, r) := readCards n r in
      (c :: cs, r)
  end.

(** *** Game::saveFileGame *)

Definition byte_of_ascii (a : Ascii.ascii) : Z := Z.of_N (Ascii.N_of_ascii a).

Definition magicNumber : list Z :=
  byte_of_ascii <$> String.list_ascii_of_string "Solitaire".

(** What a call of a value-returning function hands back: the operand of
    the [return] statement it executed, or nothing when control reached the
    closing brace of the body. *)
Inductive Returned (A : Type) : Type :=
  | Return (a : A)
  | FlowsOffEnd.
Arguments Return {A} a.
Arguments FlowsOffEnd {A}.

Definition writeColumns (cols : list (list Card)) (w : Writer) : Writer :=
  foldl (λ w cards,
           writeCards cards (writeInt (to_int32 (Z.of_nat (length cards))) w))
        w cols.

Definition Game_saveFileGame (name : string) (g : Game) (fs : FileSystem)
  : Returned bool * FileSystem :=
  let filename := (name +:+ ".sot")%string in
  if negb (opens_for_output fs filename) then (Return false, fs) else
  let w : Writer := [] in
  let w := Writer_write magicNumber 9 w in
  let w := writeInt (to_int32 (Z.of_nat (length (deck g)))) w in
  let w := writeCards (deck g) w in
  let w := writeColumns (take (Z.to_nat columnsSize) (columns g)) w in
  let w := writeInt (to_int32 (Z.of_nat (length (pile g)))) w in
  let w := writeCards (pile g) w in
  let w := writeCards (take (Z.to_nat reserveSlotSize) (reserveSlots g)) w in
  (FlowsOffEnd,
   mkFileSystem (<[filename := w]> (files fs))
                (opens_for_output fs) (opens_for_input fs)).

(** *** Game::readFileGame *)

(** [std::vector<Card> v(size)] for an [int] size: a negative size converts
    to a [size_t] beyond [max_size()] and the constructor throws; nothing
    catches it.  The allocation for a size that is not negative is taken to
    succeed. *)
Definition vector_size (size : Z) : option nat :=
  if size <? 0 then None else Some (Z.to_nat size).

(** The loop over the columns [i, i + n). *)
Fixpoint readColumns (n : nat) (i : Z) (r : Reader) (g : Game)
  : option (Game * Reader) :=
  match n with
  | O => Some (g, r)
  | S n =>
      let '(size, r) := readInt r in
      size ← vector_size size;
      let '(cards, r) := readCards size r in
      _ ← column g i;
      readColumns n (i + 1) r (set_column i cards g)
  end.

(** The loop over the reserve slots [i, i + n). *)
Fixpoint readReserves (n : nat) (i : Z) (r : Reader) (g : Game)
  : option (Game * Reader) :=
  match n with
  | O => Some (g, r)
  | S n =>
      _ ← reserveSlot g i;
      let '(c, r) := readCard r in
      readReserves n (i + 1) r (set_reserveSlot i c g)
  end.

(** Storage that [readFileGame] uses before initialising it: the buffer
    [verify] and the elements of [deckCards]. *)
Record Storage : Type := mkStorage {
  verify0 : list Z;
  deckCards0 : nat → Card
}.

(** [readFileGame] from the statement after the test of the magic on. *)
Definition readFileGame_contents (m : Storage) (r : Reader) (g : Game)
  : option (bool * Game) :=
  let '(deckSize, r) := readInt r in
  n ← vector_size deckSize;
  let deckCards := (λ i, Card_default (deckCards0 m i)) <$> seq 0 n in
  let '(cards, r) := readCards n r in
  let deckCards := deckCards ++ cards in
  let g := set_deck deckCards g in
  '(g, r) ← readColumns (Z.to_nat columnsSize) 0 r g;
  let '(pileSize, r) := readInt r in
  n ← vector_size pileSize;
  let '(pileCards, r) := readCards n r in
  let g := set_pile pileCards g in
  '(g, r) ← readReserves 4 0 r g;
  Some (true, g).

(** The constructor of [BufferedFileReader] creates the file when it does
    not exist; the value written to [std::cout] is left out. *)
Definition Game_readFileGame (m : Storage) (name : string) (g : Game)
    (fs : FileSystem) : option (bool * Game) * FileSystem :=
  let filename := (name +:+ ".sot")%string in
  let fs :=
    if negb (fileExists fs filename) && opens_for_output fs filename
    then mkFileSystem (<[filename := []]> (files fs))
                      (opens_for_output fs) (opens_for_input fs)
    else fs in
  match files fs !! filename with
  | None => (Some (false, g), fs)
  | Some r =>
      if negb (opens_for_input fs filename) then (Some (false, g), fs) else
      let '(verify, r) := Reader_read (verify0 m) 9 r in
      if negb (bool_decide (take 9 verify = magicNumber))
      then (Some (false, g), fs)
      else (readFileGame_contents m r g, fs)
  end.

(** ** ConsoleUi::handleCommand: the operations of a game in progress *)

(** The [przetasuj] command: [Deck::reShuffle] on the pile of the game, and
    only when the deck is empty. *)
Definition handleCommand_przetasuj (gen : Generator) (g : Game)
  : option (bool * Game) :=
  if negb (Deck_isEmpty (deck g)) then Some (false, g) else
  '(d, p) ← Deck_reShuffle gen (deck g) (pile g);
  Some (true, set_pile p (set_deck d g)).

Inductive Op : Type :=
  | OpDrawCard
  | OpMoveCard (fromCol toCol count : Z)
  | OpPileToColumn (toCol : Z)
  | OpPileToReserve (slot : Z)
  | OpColumnToReserve (fromCol slot : Z)
  | OpReserveToColumn (u : Card) (slot toCol : Z)
  | OpReShuffle (gen : Generator).

Definition exec (op : Op) (g : Game) : option (bool * Game) :=
  match op with
  | OpDrawCard => Game_drawCard g
  | OpMoveCard fromCol toCol count => Game_moveCard fromCol toCol count g
  | OpPileToColumn toCol => Game_moveFromPileToColumn toCol g
  | OpPileToReserve slot => Game_moveFromPileToReserve slot g
  | OpColumnToReserve fromCol slot => Game_moveFromColumnToReserve fromCol slot g
  | OpReserveToColumn u slot toCol => Game_moveFromReserveToColumn u slot toCol g
  | OpReShuffle gen => handleCommand_przetasuj gen g
  end.

(** [main]: [Game game; game.start();], then any number of commands. *)
Inductive reachable : Game → Prop :=
  | reachable_start gen u g :
      Game_start (Game_new gen u) = Some g → reachable g
  | reachable_step op g b g' :
      reachable g → exec op g = Some (b, g') → reachable g'.

(** * Specification-side notions *)

(** The landing rule, in the words of the specification. *)
Definition landing_rule (destination : list Card) (moving : Card) : Prop :=
  (destination = [] ∧ rank moving = King)
  ∨ (∃ top, last destination = Some top
            ∧ isRed top ≠ isRed moving
            ∧ rank top = rank moving + 1).

(** A column that counts towards a win: thirteen cards, King down to Ace,
    all face-up, neighbours of different colour. *)
Fixpoint alternating (col : list Card) : Prop :=
  match col with
  | c :: (d :: _) as rest => isRed c ≠ isRed d ∧ alternating rest
  | _ => True
  end.

Definition complete_run (col : list Card) : Prop :=
  rank <$> col = Z.of_nat <$> reverse (seq 1 13)
  ∧ Forall (λ c, facingUp c = true) col
  ∧ alternating col.

Global Instance alternating_dec col : Decision (alternating col).
Proof.
  induction col as [|c [|d rest] IH]; simpl; [apply _ .. |].
  simpl in IH. apply _.
Defined.

Global Instance complete_run_dec col : Decision (complete_run col).
Proof. unfold complete_run. apply _. Defined.

(** The number of columns that count towards a win. *)
Definition complete_columns (g : Game) : nat :=
  length (filter complete_run (columns g)).

(** The test of one pass of the inner loop of [isGameWon], by recursion on
    the cards still to be inspected: [k] is the expected rank and [prev] the
    card before. *)
Fixpoint run_from (k : Z) (prev : option Card) (l : list Card) : bool :=
  match l with
  | [] => true
  | c :: l =>
      (rank c =? k) && facingUp c
      && match prev with
         | Some p => negb (eqb (isRed c) (isRed p))
         | None => true
         end
      && run_from (k - 1) (Some c) l
  end.

(** The (suit, rank) pair of a card and the fifty-two pairs of a full set. *)
Definition pair_of (c : Card) : Z * Z := (suit c, rank c).

Definition canonical_pairs : list (Z * Z) :=
  s ← [0; 1; 2; 3]; r ← seqZ 1 13; [(s, r)].

(** The cards of the deck, the seven columns and the pile. *)
Definition cards_out (g : Game) : list Card :=
  deck g ++ mjoin (columns g) ++ pile g.

(** The pairs across the deck, the columns, the pile and the reserve slots
    that hold a valid card. *)
Definition pairs_in_play (g : Game) : list (Z * Z) :=
  pair_of <$> (cards_out g ++ filter (λ c, isValid c = true) (reserveSlots g)).

(** A reserve slot shows the top of its foundation only: a valid card of
    rank [r] stands for the cards of its suit from the Ace up to [r]. *)
Definition foundation_pairs (c : Card) : list (Z * Z) :=
  if isValid c then (λ r, (suit c, r)) <$> seqZ 1 (rank c) else [].

Definition pairs_with_foundations (g : Game) : list (Z * Z) :=
  (pair_of <$> cards_out g) ++ mjoin (foundation_pairs <$> reserveSlots g).

(** An operation builds in order when a card put on an occupied reserve slot
    has the rank next to the occupant's, and a card is taken from a reserve
    slot only when the slot is occupied. *)
Definition builds_in_order (op : Op) (g : Game) : Prop :=
  match op with
  | OpPileToReserve slot =>
      ∀ r c, reserveSlot g slot = Some r → isValid r = true →
             last (pile g) = Some c → getRank c = getRank r + 1
  | OpColumnToReserve fromCol slot =>
      ∀ r col c, reserveSlot g slot = Some r → isValid r = true →
                 column g fromCol = Some col → last col = Some c →
                 getRank c = getRank r + 1
  | OpReserveToColumn _ slot _ =>
      ∀ r, reserveSlot g slot = Some r → isValid r = true
  | _ => True
  end.

Inductive reachable_in_order : Game → Prop :=
  | in_order_start gen u g :
      Game_start (Game_new gen u) = Some g → reachable_in_order g
  | in_order_step op g b g' :
      reachable_in_order g → builds_in_order op g →
      exec op g = Some (b, g') → reachable_in_order g'.

(** [builds_in_order], as a test. *)
Definition builds_in_orderb (op : Op) (g : Game) : bool :=
  match op with
  | OpPileToReserve slot =>
      match reserveSlot g slot, last (pile g) with
      | Some r, Some c => negb (isValid r) || (getRank c =? getRank r + 1)
      | _, _ => true
      end
  | OpColumnToReserve fromCol slot =>
      match reserveSlot g slot, column g fromCol ≫= last with
      | Some r, Some c => negb (isValid r) || (getRank c =? getRank r + 1)
      | _, _ => true
      end
  | OpReserveToColumn _ slot _ =>
      match reserveSlot g slot with
      | Some r => isValid r
      | None => true
      end
  | _ => true
  end.

(** The operation puts a card on reserve slot [i]; it takes the card of
    reserve slot [i]. *)
Definition puts_on (op : Op) (i : nat) : Prop :=
  match op with
  | OpPileToReserve slot | OpColumnToReserve _ slot => slot = Z.of_nat i
  | _ => False
  end.

Definition takes_from (op : Op) (i : nat) : Prop :=
  match op with
  | OpReserveToColumn _ slot _ => slot = Z.of_nat i
  | _ => False
  end.

(** The operation takes the card of a reserve slot that holds none. *)
Definition takes_sentinel (op : Op) (g : Game) : Prop :=
  match op with
  | OpReserveToColumn _ slot _ =>
      ∃ r, reserveSlot g slot = Some r ∧ isValid r = false
  | _ => False
  end.

(** The states of a game in which no card is taken from an empty reserve
    slot. *)
Inductive reachable_from_occupied : Game → Prop :=
  | from_occupied_start gen u g :
      Game_start (Game_new gen u) = Some g → reachable_from_occupied g
  | from_occupied_step op g b g' :
      reachable_from_occupied g → ¬ takes_sentinel op g →
      exec op g = Some (b, g') → reachable_from_occupied g'.

(** A sequence of commands. *)
Fixpoint run (ops : list Op) (g : Game) : option Game :=
  match ops with
  | [] => Some g
  | op :: ops => '(_, g) ← exec op g; run ops g
  end.

(** A sequence of commands, each of which builds in order. *)
Fixpoint run_in_order (ops : list Op) (g : Game) : option Game :=
  match ops with
  | [] => Some g
  | op :: ops =>
      if builds_in_orderb op g then '(_, g) ← exec op g; run_in_order ops g
      else None
  end.

(** Cards up to the side they show. *)
Definition face_down (c : Card) : Card :=
  mkCard (suit c) (rank c) false (valid c).

Definition same_cards (l k : list Card) : Prop :=
  face_down <$> l ≡ₚ face_down <$> k.

(** What a successful operation does to the cards outside the reserves and
    to the reserve slots. *)
Definition effect (op : Op) (g g' : Game) : Prop :=
  match op with
  | OpPileToReserve slot =>
      ∃ r c, 0 ≤ slot ∧ reserveSlot g slot = Some r
             ∧ last (pile g) = Some c
             ∧ getSuit c = slot
             ∧ (if isValid r then getRank r < getRank c else getRank c = Ace)
             ∧ same_cards (cards_out g) (c :: cards_out g')
             ∧ reserveSlots g' = <[Z.to_nat slot := c]> (reserveSlots g)
  | OpColumnToReserve fromCol slot =>
      ∃ r col c, 0 ≤ slot ∧ reserveSlot g slot = Some r
                 ∧ column g fromCol = Some col ∧ last col = Some c
                 ∧ getSuit c = slot
                 ∧ (if isValid r then getRank r < getRank c
                    else getRank c = Ace)
                 ∧ same_cards (cards_out g) (c :: cards_out g')
                 ∧ reserveSlots g' = <[Z.to_nat slot := c]> (reserveSlots g)
  | OpReserveToColumn u slot _ =>
      ∃ c, 0 ≤ slot ∧ reserveSlot g slot = Some c
           ∧ same_cards (cards_out g') (c :: cards_out g)
           ∧ reserveSlots g' =
               <[Z.to_nat slot :=
                   if getRank c =? Ace then Card_default u
                   else flip (Card_new (getSuit c) (to_uchar (getRank c - 1)))]>
                 (reserveSlots g)
  | _ => same_cards (cards_out g') (cards_out g)
         ∧ reserveSlots g' = reserveSlots g
  end.

(** The invariant of a game played in order. *)
Definition conserved (g : Game) : Prop :=
  pairs_with_foundations g ≡ₚ canonical_pairs
  ∧ Forall (λ c, isValid c = true) (cards_out g)
  ∧ ∀ (i : nat) c, reserveSlots g !! i = Some c → isValid c = true →
                   getSuit c = Z.of_nat i ∧ 1 ≤ getRank c.

(** The save file, in the words of the specification: a card is
    [suit:int32, rank:int32, faceUp:bool, valid:bool]; a collection is its
    count as an [int32] and then its cards; the file is the magic, the deck,
    the seven columns, the pile and the four reserves without a count. *)
Definition card_image (c : Card) : list Z :=
  writeInt_buffer (suit c) ++ writeInt_buffer (rank c)
  ++ [if facingUp c then 1 else 0] ++ [if valid c then 1 else 0].

Definition cards_image (cards : list Card) : list Z :=
  mjoin (card_image <$> cards).

Definition counted_image (cards : list Card) : list Z :=
  writeInt_buffer (to_int32 (Z.of_nat (length cards))) ++ cards_image cards.

Definition save_image (g : Game) : list Z :=
  magicNumber
  ++ counted_image (deck g)
  ++ mjoin (counted_image <$> take 7 (columns g))
  ++ counted_image (pile g)
  ++ cards_image (take 4 (reserveSlots g)).

(** A card whose suit and rank are values of an [unsigned char]. *)
Definition Card_wf (c : Card) : Prop :=
  0 ≤ suit c < 256 ∧ 0 ≤ rank c < 256.

(** A collection whose count fits an [int]. *)
Definition fits_int (cards : list Card) : Prop :=
  Z.of_nat (length cards) < 2 ^ 31.

(** A game that the save file can hold: seven columns, four reserve slots,
    counts that fit an [int], suits and ranks that fit an [unsigned char]. *)
Definition Game_wf (g : Game) : Prop :=
  length (columns g) = 7%nat
  ∧ length (reserveSlots g) = 4%nat
  ∧ fits_int (deck g) ∧ Forall Card_wf (deck g)
  ∧ Forall (λ col, fits_int col ∧ Forall Card_wf col) (columns g)
  ∧ fits_int (pile g) ∧ Forall Card_wf (pile g)
  ∧ Forall Card_wf (reserveSlots g).

(** The generator under which [std::shuffle] leaves the order as it is. *)
Definition identity_generator : Generator :=
  mkGenerator (λ l, l) (λ l, reflexivity l).

(** * Positions used in the examples *)

(** The Six of Hearts on the Seven of Spades on column 0, a Seven of Spades
    alone on column 1, the Six of Hearts on the pile and on reserve slot 0. *)
Definition sevenOfSpades : Card := mkCard Spades 7 true true.
Definition sixOfHearts : Card := mkCard Hearts 6 true true.
Definition blank : Card := mkCard 0 0 false false.

Definition landing_position : Game :=
  mkGame [] blank
         ([sevenOfSpades; sixOfHearts] :: [sevenOfSpades] :: replicate 5 [])
         [sixOfHearts]
         (sixOfHearts :: replicate 3 blank).

(** An empty reserve slot whose storage reads as a King, next to an empty
    column: the sentinel lands. *)
Definition sentinelKing : Card := mkCard Spades King false false.

Definition sentinel_position : Game :=
  mkGame [] blank (replicate 7 []) [] (sentinelKing :: replicate 3 blank).


(** A face-down Nine of Clubs under the Six of Hearts on column 0, the Seven
    of Spades on column 1. *)
Definition nineOfClubs : Card := mkCard Clubs 9 false true.

Definition reveal_position : Game :=
  mkGame [] blank
         ([nineOfClubs; sixOfHearts] :: [sevenOfSpades] :: replicate 5 [])
         [] (replicate 4 blank).

(** The Ace of Hearts on reserve slot 0, the Three of Hearts on the Two of
    Hearts on the pile, the Four of Spades on column 0; and the same position
    once the Three has gone onto the Ace. *)
Definition aceOfHearts : Card := mkCard Hearts Ace true true.
Definition twoOfHearts : Card := mkCard Hearts 2 true true.
Definition threeOfHearts : Card := mkCard Hearts 3 true true.
Definition fourOfSpades : Card := mkCard Spades 4 true true.

Definition gap_position : Game :=
  mkGame [] threeOfHearts ([fourOfSpades] :: replicate 6 [])
         [twoOfHearts; threeOfHearts]
         (aceOfHearts :: replicate 3 blank).

Definition gap_filled : Game :=
  mkGame [] threeOfHearts ([fourOfSpades] :: replicate 6 [])
         [twoOfHearts]
         (threeOfHearts :: replicate 3 blank).

(** A disk on which every file opens. *)
Definition open_disk : FileSystem :=
  mkFileSystem ∅ (λ _, true) (λ _, true).

(** Thirteen face-up cards from King down to Ace, of suit [a] and suit [b]
    in turn; the fifty-two cards laid out as four such columns. *)
Definition king_to_ace (a b : Z) : list Card :=
  (λ i : nat, mkCard (if Nat.even i then a else b)
                     (13 - Z.of_nat i) true true) <$> seq 0 13.

Definition won_position : Game :=
  mkGame [] blank
         ([king_to_ace Spades Hearts; king_to_ace Hearts Spades;
           king_to_ace Clubs Diamonds; king_to_ace Diamonds Clubs]
          ++ replicate 3 [])
         [] (replicate 4 blank).

(** The game that [main] starts when [std::shuffle] leaves the order as it
    is, and two lines of play in it: eleven draws bring the Ace of Diamonds to
    the top of the pile; the Ace, the Two and the Three go to reserve slot 1;
    the Three comes back onto the Four of Spades of column 3. *)
Definition unshuffled_start : option Game :=
  Game_start (Game_new identity_generator (λ _, blank)).

Definition two_diamonds : list Op :=
  replicate 11 OpDrawCard ++ [OpPileToReserve 1; OpPileToReserve 1].

Definition three_diamonds : list Op :=
  two_diamonds ++ [OpPileToReserve 1].

(** A game with a single card in the deck, and storage that reads as
    [blank] wherever it is not initialised. *)
Definition one_card_deck : Game :=
  mkGame [aceOfHearts] blank (replicate 7 []) [] (replicate 4 blank).

Definition blank_storage : Storage :=
  mkStorage (replicate 9 0) (λ _, blank).

(** * The rest of the engine and of its callers *)

(** ** Game::reset

    [u 4] is the storage of the temporary [Card()] assigned to
    [currentCard], [u 0 .. u 3] that of the temporaries assigned to the
    reserve slots. *)
Fixpoint clear_columns (n : nat) (i : Z) (g : Game) : Game :=
  match n with
  | O => g
  | S n => clear_columns n (i + 1) (set_column i [] g)
  end.

Fixpoint clear_reserveSlots (n : nat) (i : Z) (u : nat → Card) (g : Game)
  : Game :=
  match n with
  | O => g
  | S n =>
      clear_reserveSlots n (i + 1) u
        (set_reserveSlot i (Card_default (u (Z.to_nat i))) g)
  end.

Definition Game_reset (gen : Generator) (u : nat → Card) (g : Game)
  : option Game :=
  let g := set_deck (Deck_reset gen) g in
  let g := set_currentCard (Card_default (u 4%nat)) g in
  let g := clear_columns (Z.to_nat columnsSize) 0 g in
  let g := clear_reserveSlots (Z.to_nat reserveSlotSize) 0 u g in
  let g := set_pile [] g in
  Game_start g.

(** ** Notions for the properties of a game in progress *)

(** The indices of an operation are column and reserve slot numbers. *)
Definition in_range (op : Op) : Prop :=
  match op with
  | OpMoveCard fromCol toCol _ =>
      0 ≤ fromCol < columnsSize ∧ 0 ≤ toCol < columnsSize
  | OpPileToColumn toCol => 0 ≤ toCol < columnsSize
  | OpPileToReserve slot => 0 ≤ slot < reserveSlotSize
  | OpColumnToReserve fromCol slot =>
      0 ≤ fromCol < columnsSize ∧ 0 ≤ slot < reserveSlotSize
  | OpReserveToColumn _ slot toCol =>
      0 ≤ slot < reserveSlotSize ∧ 0 ≤ toCol < columnsSize
  | _ => True
  end.

(** The operation leaves the reserve slots alone. *)
Definition no_reserve (op : Op) : Prop :=
  match op with
  | OpPileToReserve _ | OpColumnToReserve _ _ | OpReserveToColumn _ _ _ => False
  | _ => True
  end.

Inductive reachable_without_reserves : Game → Prop :=
  | without_reserves_start gen u g :
      Game_start (Game_new gen u) = Some g → reachable_without_reserves g
  | without_reserves_step op g b g' :
      reachable_without_reserves g → no_reserve op →
      exec op g = Some (b, g') → reachable_without_reserves g'.

(** Face-down cards first, face-up cards on top of them; a tidy column is
    empty or shows its top card. *)
Definition sorted_faces (col : list Card) : Prop :=
  ∃ down up, col = down ++ up
             ∧ Forall (λ c, facingUp c = false) down
             ∧ Forall (λ c, facingUp c = true) up.

Definition tidy_column (col : list Card) : Prop :=
  sorted_faces col ∧ ∀ c, last col = Some c → facingUp c = true.

Definition faces (g : Game) : Prop :=
  Forall (λ c, facingUp c = false) (deck g)
  ∧ Forall (λ c, facingUp c = true) (pile g)
  ∧ Forall tidy_column (columns g)
  ∧ Forall (λ c, isValid c = true → facingUp c = true) (reserveSlots g).

(** The operation is not [moveFromReserveToColumn]. *)
Definition leaves_reserve_cards (op : Op) : Prop :=
  match op with
  | OpReserveToColumn _ _ _ => False
  | _ => True
  end.

(** The Six of Hearts on the Seven of Spades on column 0, both face-up. *)
Definition self_move_position : Game :=
  mkGame [] blank ([sixOfHearts; sevenOfSpades] :: replicate 6 []) []
         (replicate 4 blank).

(** A face-up card of the column with a card on it is one rank above that
    card and of the other colour. *)
Definition stacked (col : list Card) : Prop :=
  ∀ (i : nat) a b,
    col !! i = Some a → col !! S i = Some b → facingUp a = true →
    getRank a = getRank b + 1 ∧ isRed a ≠ isRed b.

(** From the unshuffled start: the Queen of Diamonds of column 6 goes onto
    the King of Spades of column 0, and the Jack of Diamonds drawn from the
    deck onto the Queen of Clubs of column 4. *)
Definition column_play : list Op :=
  [OpMoveCard 6 0 1; OpDrawCard; OpPileToColumn 4].

(** What [readCard] makes of an exhausted file. *)
Definition garbage_card : Card := mkCard 255 255 true true.

(** Storage whose buffer [verify] still holds the magic of an earlier
    call. *)
Definition stale_storage : Storage :=
  mkStorage magicNumber (λ _, blank).

(** A disk with a file that is not a save file. *)
Definition notes_disk : FileSystem :=
  mkFileSystem {[ "notes.sot"%string := replicate 12 65 ]}
               (λ _, true) (λ _, true).

(** A disk with a save file cut off after the magic and two more bytes. *)
Definition cut_disk : FileSystem :=
  mkFileSystem {[ "latest.sot"%string := magicNumber ++ [1; 0] ]}
               (λ _, true) (λ _, true).

(** * The command line *)

(** A [std::string] is its sequence of [char]s, each the value of the
    [unsigned char] it converts to. *)
Definition bytes (s : string) : list Z :=
  byte_of_ascii <$> String.list_ascii_of_string s.

(** ** util/hash_util.hpp *)

(** [unsigned int] arithmetic: wrap-around at 32 bits. *)
Definition to_uint32 (x : Z) : Z := x `mod` 2 ^ 32.

Definition basis : Z := 2166136261.
Definition prime : Z := 16777619.

(** The loop of [len]; [data] is the memory from the pointer on, and a read
    beyond it has no result. *)
Fixpoint len_loop (fuel : nat) (data : list Z) (count : nat) : option nat :=
  match fuel with
  | O => None
  | S fuel =>
      c ← data !! count;
      if c =? 0 then Some count else len_loop fuel data (S count)
  end.

Definition len (data : list Z) : option nat :=
  len_loop (S (length data)) data 0.

(** The loop of [hash(data, len)] for [i] in [i, i + n). *)
Fixpoint hash_loop (n : nat) (data : list Z) (i : nat) (hash : Z) : option Z :=
  match n with
  | O => Some hash
  | S n =>
      c ← data !! i;
      let hash := Z.lxor hash c in
      let hash := to_uint32 (hash * prime) in
      hash_loop n data (S i) hash
  end.

Definition hash (data : list Z) (len : nat) : option Z :=
  hash_loop len data 0 basis.

(** [hash(const char* data)]. *)
Definition hash_cstring (data : list Z) : option Z :=
  n ← len data; hash data n.

(** [hash(const std::string& s)]: [s.data()] is the characters of [s]
    followed by a NUL. *)
Definition hash_string (s : list Z) : option Z :=
  hash (s ++ [0]) (length s).

(** The hash of a string literal. *)
Definition hash_literal (s : string) : option Z :=
  hash_cstring (bytes s ++ [0]).

(** ** ConsoleUi.cpp: Split *)

Definition npos : N := (2 ^ 64 - 1)%N.

(** [s.find(ch, pos)]. *)
Definition string_find (s : list Z) (ch : Z) (pos : N) : N :=
  match list_find (λ c, c = ch) (drop (N.to_nat pos) s) with
  | Some (i, _) => (pos + N.of_nat i)%N
  | None => npos
  end.

(** [s.substr(pos, n)], which throws when [pos] is beyond the end. *)
Definition substr (s : list Z) (pos n : N) : option (list Z) :=
  if (N.of_nat (length s) <? pos)%N then None else
  let rest := drop (N.to_nat pos) s in
  if (N.of_nat (length rest) <=? n)%N then Some rest
  else Some (take (N.to_nat n) rest).

(** The loop of [Split]; it has no result when the fuel runs out or
    [substr] throws. *)
Fixpoint Split_loop (fuel : nat) (s : list Z) (seperator : Z)
    (prev_pos pos : N) (output : list (list Z)) : option (list (list Z)) :=
  match fuel with
  | O => None
  | S fuel =>
      let pos := string_find s seperator pos in
      if (pos =? npos)%N then
        word ← substr s prev_pos (pos - prev_pos)%N;
        Some (output ++ [word])
      else
        substring ← substr s prev_pos (pos - prev_pos)%N;
        let pos := (pos + 1)%N in
        Split_loop fuel s seperator pos pos (output ++ [substring])
  end.

Definition Split (s : list Z) (seperator : Z) : option (list (list Z)) :=
  Split_loop (S (length s)) s seperator 0 0 [].

(** The pieces with the separator put back between them. *)
Fixpoint joined (seperator : Z) (pieces : list (list Z)) : list Z :=
  match pieces with
  | [] => []
  | [p] => p
  | p :: ps => p ++ seperator :: joined seperator ps
  end.

(** The pieces of a string, by recursion on the string. *)
Fixpoint pieces (seperator : Z) (s : list Z) : list (list Z) :=
  match s with
  | [] => [[]]
  | c :: s =>
      if decide (c = seperator) then [] :: pieces seperator s
      else match pieces seperator s with
           | p :: ps => (c :: p) :: ps
           | [] => [[c]]
           end
  end.

(** ** util/fs.hpp: isValidFilename *)

(** The nine characters of [illegalChars]: backslash, slash, colon,
    asterisk, question mark, double quote, less-than, greater-than, bar. *)
Definition illegalChars : list Z := [92; 47; 58; 42; 63; 34; 60; 62; 124].

(** [s.find_first_of(chars)]. *)
Definition find_first_of (s chars : list Z) : option nat :=
  fst <$> list_find (λ c, c ∈ chars) s.

(** The loop over the characters, with its [break]. *)
Fixpoint allSpacesOrDots (s : list Z) : bool :=
  match s with
  | [] => true
  | ch :: s =>
      if negb (ch =? 32) && negb (ch =? 46) then false
      else allSpacesOrDots s
  end.

Definition isValidFilename (filename : list Z) : bool :=
  if bool_decide (filename = []) then false else
  if bool_decide (is_Some (find_first_of filename illegalChars)) then false else
  if allSpacesOrDots filename then false else
  if (255 <? length filename)%nat then false else
  true.

(** ** ConsoleUi::handleCommand *)

(** The cases of the [switch]. *)
Inductive Command : Type :=
  | Dobierz
  | Przenies
  | ZPuliDoKolumny
  | ZPuliDoRezerwy
  | ZKolumnyDoRezerwy
  | ZRezerwyDoKolumny
  | Przetasuj
  | ResetGame
  | Wyjdz
  | Menu
  | Zapisz
  | Pomoc.

Global Instance Command_eq_dec : EqDecision Command.
Proof. solve_decision. Defined.

(** The [case] labels, in the order of the source. *)
Definition case_labels : list (string * Command) :=
  [("d", Dobierz); ("dobierz", Dobierz);
   ("p", Przenies); ("przenies", Przenies);
   ("pk", ZPuliDoKolumny); ("z_puli_do_kolumny", ZPuliDoKolumny);
   ("pr", ZPuliDoRezerwy); ("z_puli_do_rezerwy", ZPuliDoRezerwy);
   ("kr", ZKolumnyDoRezerwy); ("z_kolumny_do_rezerwy", ZKolumnyDoRezerwy);
   ("rk", ZRezerwyDoKolumny); ("z_rezerwy_do_kolumny", ZRezerwyDoKolumny);
   ("przetasuj", Przetasuj); ("reset", ResetGame); ("wyjdz", Wyjdz);
   ("menu", Menu); ("zapisz", Zapisz); ("pomoc", Pomoc)]%string.

(** [switch (hash(splitted[0]))]: the case whose label has the hash of the
    word, or none, when control leaves the [switch] for the final
    [return]. *)
Definition handleCommand_case (word : list Z) : option (option Command) :=
  h ← hash_string word;
  Some ((λ r, r.2.2)
          <$> list_find (λ lc, hash_literal lc.1 = Some h) case_labels).

(** The head of [handleCommand]: [Split], [splitted[0]] and the [switch]. *)
Definition handleCommand_switch (command : list Z)
  : option (option Command * list (list Z)) :=
  splitted ← Split command 32;
  word ← splitted !! 0%nat;
  c ← handleCommand_case word;
  Some (c, splitted).

(** The replies to the commands that move cards. *)
Inductive Reply : Type :=
  | InvalidColumn
  | InvalidColumnNumber
  | InvalidReserve
  | MovedCard
  | MovedCards
  | CannotMoveCard
  | CannotMoveCards.

(** The cases of the commands that move cards, from the test of the numbers
    read by [std::stoi] on. *)
Definition przenies (from to count : Z) (g : Game) : option (Reply * Game) :=
  if (from >? 7) || (to >? 7) || (from <? 1) || (to <? 1)
  then Some (InvalidColumn, g) else
  let from := from - 1 in
  let to := to - 1 in
  '(success, g) ← Game_moveCard from to count g;
  Some (if success : bool
        then (if count =? 1 then MovedCard else MovedCards)
        else (if count =? 1 then CannotMoveCard else CannotMoveCards), g).

Definition z_puli_do_kolumny (to : Z) (g : Game) : option (Reply * Game) :=
  if (to >? 7) || (to <? 1) then Some (InvalidColumn, g) else
  let to := to - 1 in
  '(success, g) ← Game_moveFromPileToColumn to g;
  Some (if success : bool then MovedCard else CannotMoveCard, g).

Definition z_puli_do_rezerwy (to : Z) (g : Game) : option (Reply * Game) :=
  if (to >? 4) || (to <? 1) then Some (InvalidColumnNumber, g) else
  let to := to - 1 in
  '(success, g) ← Game_moveFromPileToReserve to g;
  Some (if success : bool then MovedCard else CannotMoveCard, g).

Definition z_kolumny_do_rezerwy (from to : Z) (g : Game)
  : option (Reply * Game) :=
  if (to >? 4) || (to <? 1) then Some (InvalidColumn, g) else
  if (from >? 7) || (to <? 1) then Some (InvalidColumn, g) else
  let to := to - 1 in
  let from := from - 1 in
  '(success, g) ← Game_moveFromColumnToReserve from to g;
  Some (if success : bool then MovedCard else CannotMoveCard, g).

Definition z_rezerwy_do_kolumny (u : Card) (from to : Z) (g : Game)
  : option (Reply * Game) :=
  if (from >? 4) || (from <? 1) then Some (InvalidReserve, g) else
  if (to >? 7) || (to <? 1) then Some (InvalidColumn, g) else
  let to := to - 1 in
  let from := from - 1 in
  '(success, g) ← Game_moveFromReserveToColumn u from to g;
  Some (if success : bool then MovedCard else CannotMoveCard, g).
(** * Properties *)

Lemma ASSERT_true b : b = true → ASSERT b = Some ().
Proof. by intros ->. Qed.

Lemma index_check i n : 0 ≤ i < n → (i <? n) && (i >=? 0) = true.
Proof.
  intros. apply andb_true_intro. split; [apply Z.ltb_lt | apply Z.geb_le]; lia.
Qed.

Lemma ASSERT_index i n : 0 ≤ i < n → ASSERT ((i <? n) && (i >=? 0)) = Some ().
Proof. intros. by apply ASSERT_true, index_check. Qed.

Lemma column_nonneg g i : 0 ≤ i → column g i = columns g !! Z.to_nat i.
Proof. intros. unfold column. by rewrite (proj2 (Z.ltb_ge i 0)). Qed.

Lemma reserveSlot_nonneg g i :
  0 ≤ i → reserveSlot g i = reserveSlots g !! Z.to_nat i.
Proof. intros. unfold reserveSlot. by rewrite (proj2 (Z.ltb_ge i 0)). Qed.

Lemma column_set_column g i c col :
  0 ≤ i → column g i = Some col → column (set_column i c g) i = Some c.
Proof.
  intros Hi. rewrite !column_nonneg by done. simpl. intros Hc.
  apply list_lookup_insert_eq. by eapply lookup_lt_Some.
Qed.

(** The test that the three column-bound moves make is the landing rule. *)
Lemma landing_test to card :
  match last to with
  | None => negb (getRank card =? King)
  | Some top => eqb (isRed top) (isRed card)
                || negb (getRank top =? getRank card + 1)
  end = false ↔ landing_rule to card.
Proof.
  unfold landing_rule, getRank. destruct (last to) as [top|] eqn:Hl.
  - rewrite orb_false_iff, negb_false_iff, Z.eqb_eq, eqb_false_iff. split.
    + intros [? ?]. right. by exists top.
    + intros [[-> _]|(top' & [= <-] & ? & ?)]; [done | done].
  - rewrite negb_false_iff, Z.eqb_eq. apply last_None in Hl. split.
    + intros. by left.
    + intros [[_ ?]|(top' & ? & _)]; [done | by subst].
Qed.

Lemma landing_test_true to card :
  match last to with
  | None => negb (getRank card =? King)
  | Some top => eqb (isRed top) (isRed card)
                || negb (getRank top =? getRank card + 1)
  end = true ↔ ¬ landing_rule to card.
Proof. rewrite <- landing_test. by destruct (match last to with _ => _ end). Qed.

(** ** The three moves onto a column *)

Section column_moves.
Context (g : Game) (toCol : Z) (to : list Card).
Hypothesis toCol_range : 0 ≤ toCol < columnsSize.
Hypothesis to_column : column g toCol = Some to.

Lemma moveFromReserveToColumn_lands u slot card :
  0 ≤ slot < reserveSlotSize → reserveSlot g slot = Some card →
  landing_rule to card →
  Game_moveFromReserveToColumn u slot toCol g =
    Some (true,
          set_reserveSlot slot
            (if negb (getRank card =? Ace)
             then flip (Card_new (getSuit card) (to_uchar (getRank card - 1)))
             else Card_default u)
            (set_column toCol (to ++ [card]) g)).
Proof.
  intros Hs Hr Hl. unfold Game_moveFromReserveToColumn.
  rewrite ASSERT_index by done. simpl.
  rewrite ASSERT_true by (apply andb_true_intro; split;
    [apply Z.ltb_lt | apply Z.geb_le]; lia). simpl.
  rewrite to_column, Hr. simpl.
  rewrite (proj2 (landing_test to card) Hl).
  by destruct (negb (getRank card =? Ace)).
Qed.

Lemma moveFromReserveToColumn_rejects u slot card :
  0 ≤ slot < reserveSlotSize → reserveSlot g slot = Some card →
  ¬ landing_rule to card →
  Game_moveFromReserveToColumn u slot toCol g = Some (false, g).
Proof.
  intros Hs Hr Hl. unfold Game_moveFromReserveToColumn.
  rewrite ASSERT_index by done. simpl.
  rewrite ASSERT_true by (apply andb_true_intro; split;
    [apply Z.ltb_lt | apply Z.geb_le]; lia). simpl.
  rewrite to_column, Hr. simpl.
  by rewrite (proj2 (landing_test_true to card) Hl).
Qed.

Lemma moveFromPileToColumn_lands card :
  last (pile g) = Some card → landing_rule to card →
  Game_moveFromPileToColumn toCol g =
    Some (true, set_pile (take (length (pile g) - 1)%nat (pile g))
                  (set_column toCol (to ++ [card]) g)).
Proof.
  intros Hp Hl. unfold Game_moveFromPileToColumn.
  rewrite ASSERT_index by done. simpl. rewrite Hp, to_column. simpl.
  by rewrite (proj2 (landing_test to card) Hl).
Qed.

Lemma moveFromPileToColumn_rejects card :
  last (pile g) = Some card → ¬ landing_rule to card →
  Game_moveFromPileToColumn toCol g = Some (false, g).
Proof.
  intros Hp Hl. unfold Game_moveFromPileToColumn.
  rewrite ASSERT_index by done. simpl. rewrite Hp, to_column. simpl.
  by rewrite (proj2 (landing_test_true to card) Hl).
Qed.

Context (fromCol count : Z) (from : list Card) (startCard : Card).
Hypothesis fromCol_range : 0 ≤ fromCol < columnsSize.
Hypothesis from_column : column g fromCol = Some from.
Hypothesis count_range : 0 < count ≤ Z.of_nat (length from).
Hypothesis run_start :
  from !! Z.to_nat (Z.of_nat (length from) - count) = Some startCard.
Hypothesis run_faceUp : isFacingUp startCard = true.

Lemma moveCard_rejects :
  ¬ landing_rule to startCard →
  Game_moveCard fromCol toCol count g = Some (false, g).
Proof.
  intros Hl. unfold Game_moveCard.
  rewrite !ASSERT_index by done. simpl. rewrite from_column, to_column. simpl.
  replace (count <=? 0) with false by (symmetry; apply Z.leb_gt; lia).
  replace (count >? Z.of_nat (length from)) with false
    by (symmetry; rewrite Z.gtb_ltb; apply Z.ltb_ge; lia).
  simpl. rewrite run_start. simpl. rewrite run_faceUp. simpl.
  by rewrite (proj2 (landing_test_true to startCard) Hl).
Qed.

Lemma moveCard_lands :
  landing_rule to startCard →
  ∃ g', Game_moveCard fromCol toCol count g = Some (true, g').
Proof.
  intros Hl. unfold Game_moveCard.
  rewrite !ASSERT_index by done. simpl. rewrite from_column, to_column. simpl.
  replace (count <=? 0) with false by (symmetry; apply Z.leb_gt; lia).
  replace (count >? Z.of_nat (length from)) with false
    by (symmetry; rewrite Z.gtb_ltb; apply Z.ltb_ge; lia).
  simpl. rewrite run_start. simpl. rewrite run_faceUp. simpl.
  rewrite (proj2 (landing_test to startCard) Hl).
  set (g1 := set_column toCol _ g).
  assert (is_Some (column g1 fromCol)) as [from1 Hf1].
  { unfold g1. rewrite !column_nonneg in * by lia. simpl.
    apply lookup_lt_is_Some. rewrite length_insert.
    by eapply lookup_lt_Some. }
  rewrite Hf1. simpl.
  erewrite column_set_column by (done || lia). simpl. eauto.
Qed.
End column_moves.

Lemma landing_rule_dec to card : {landing_rule to card} + {¬ landing_rule to card}.
Proof.
  destruct (match last to with
            | None => negb (getRank card =? King)
            | Some top => eqb (isRed top) (isRed card)
                          || negb (getRank top =? getRank card + 1)
            end) eqn:E.
  - right. by apply landing_test_true.
  - left. by apply landing_test.
Qed.

(** C8. Landing rule: with its other preconditions met, each of [moveCard],
    [moveFromPileToColumn] and [moveFromReserveToColumn] returns, and returns
    [true] exactly when the destination is empty and the moving card is a
    King, or the destination's top card has the other colour and the rank of
    the moving card plus one. *)
Theorem landing_rule_decides_column_moves (g : Game) (toCol : Z) (to : list Card) :
  0 ≤ toCol < columnsSize → column g toCol = Some to →
  (∀ fromCol count from startCard,
     0 ≤ fromCol < columnsSize → column g fromCol = Some from →
     0 < count ≤ Z.of_nat (length from) →
     from !! Z.to_nat (Z.of_nat (length from) - count) = Some startCard →
     isFacingUp startCard = true →
     ∃ b g', Game_moveCard fromCol toCol count g = Some (b, g')
             ∧ (b = true ↔ landing_rule to startCard))
  ∧ (∀ card,
       last (pile g) = Some card →
       ∃ b g', Game_moveFromPileToColumn toCol g = Some (b, g')
               ∧ (b = true ↔ landing_rule to card))
  ∧ (∀ u slot card,
       0 ≤ slot < reserveSlotSize → reserveSlot g slot = Some card →
       ∃ b g', Game_moveFromReserveToColumn u slot toCol g = Some (b, g')
               ∧ (b = true ↔ landing_rule to card)).
Proof.
  intros Ht Hto. split; [|split].
  - intros fromCol count from startCard Hf Hfrom Hc Hs Hup.
    destruct (landing_rule_dec to startCard) as [Hl|Hl].
    + destruct (moveCard_lands g toCol to Ht Hto fromCol count from startCard)
        as [g' Hg']; try done.
      exists true, g'. by split.
    + exists false, g. split; [by eapply moveCard_rejects | by split].
  - intros card Hp. destruct (landing_rule_dec to card) as [Hl|Hl].
    + eexists true, _. split; [by eapply moveFromPileToColumn_lands | by split].
    + exists false, g. split; [by eapply moveFromPileToColumn_rejects | by split].
  - intros u slot card Hs Hr. destruct (landing_rule_dec to card) as [Hl|Hl].
    + eexists true, _.
      split; [by eapply moveFromReserveToColumn_lands | by split].
    + exists false, g.
      split; [by eapply moveFromReserveToColumn_rejects | by split].
Qed.

Lemma landing_rule_decides_column_moves_witness :
  (∃ b g', Game_moveCard 0 1 1 landing_position = Some (b, g')
           ∧ (b = true ↔ landing_rule [sevenOfSpades] sixOfHearts))
  ∧ (∃ b g', Game_moveFromPileToColumn 1 landing_position = Some (b, g')
             ∧ (b = true ↔ landing_rule [sevenOfSpades] sixOfHearts))
  ∧ (∃ b g', Game_moveFromReserveToColumn blank 0 1 landing_position
               = Some (b, g')
             ∧ (b = true ↔ landing_rule [sevenOfSpades] sixOfHearts)).
Proof.
  destruct (landing_rule_decides_column_moves landing_position 1 [sevenOfSpades])
    as (Hmove & Hpile & Hreserve).
  - unfold columnsSize. lia.
  - reflexivity.
  - split; [|split].
    + apply (Hmove 0 1 [sevenOfSpades; sixOfHearts] sixOfHearts).
      * unfold columnsSize. lia.
      * reflexivity.
      * simpl. lia.
      * reflexivity.
      * reflexivity.
    + apply Hpile. reflexivity.
    + apply Hreserve.
      * unfold reserveSlotSize. lia.
      * reflexivity.
Defined.

(** C10. [moveFromReserveToColumn] has no test of [isValid]: on a slot that
    holds the empty sentinel it returns what the landing rule gives for the
    members the sentinel stores, and when the rule accepts them the sentinel
    itself becomes the top card of the column. *)
Theorem moveFromReserveToColumn_moves_sentinel
    (u : Card) (slot toCol : Z) (g : Game) (card : Card) (to : list Card) :
  0 ≤ slot < reserveSlotSize → 0 ≤ toCol < columnsSize →
  reserveSlot g slot = Some card → column g toCol = Some to →
  isValid card = false →
  ∃ b g', Game_moveFromReserveToColumn u slot toCol g = Some (b, g')
          ∧ (b = true ↔ landing_rule to card)
          ∧ (b = true → column g' toCol = Some (to ++ [card]))
          ∧ (b = false → g' = g).
Proof.
  intros Hs Ht Hr Hto _. destruct (landing_rule_dec to card) as [Hl|Hl].
  - eexists true, _. split; [by eapply moveFromReserveToColumn_lands|].
    split; [done|]. split; [|done]. intros _.
    rewrite column_nonneg in * by lia. simpl.
    apply list_lookup_insert_eq. by eapply lookup_lt_Some.
  - exists false, g. split; [by eapply moveFromReserveToColumn_rejects|].
    by repeat split.
Qed.

Lemma moveFromReserveToColumn_moves_sentinel_witness :
  ∃ g', Game_moveFromReserveToColumn blank 0 0 sentinel_position = Some (true, g')
        ∧ column g' 0 = Some [sentinelKing]
        ∧ isValid sentinelKing = false.
Proof.
  destruct (moveFromReserveToColumn_moves_sentinel
              blank 0 0 sentinel_position sentinelKing [])
    as (b & g' & Hrun & Hb & Hcol & _).
  - unfold reserveSlotSize. lia.
  - unfold columnsSize. lia.
  - reflexivity.
  - reflexivity.
  - reflexivity.
  - assert (b = true) as ->.
    { apply Hb. left. split; reflexivity. }
    exists g'. split; [exact Hrun|]. split; [|reflexivity].
    apply Hcol. reflexivity.
Defined.

(** ** Revealing the new top of a column *)

Lemma reveal_top v c : last (reveal v) = Some c → isFacingUp c = true.
Proof.
  unfold reveal. destruct (last v) as [t|] eqn:Hl; [|by rewrite Hl].
  destruct (isFacingUp t) eqn:Hup; simpl.
  - rewrite Hl. by intros [= <-].
  - rewrite last_lookup, length_insert.
    replace (Init.Nat.pred (length v)) with (length v - 1)%nat by lia.
    rewrite list_lookup_insert_eq.
    + intros [= <-]. unfold isFacingUp, flip in *. simpl. by rewrite Hup.
    + destruct v; simpl in *; [done | lia].
Qed.

Lemma ASSERT_Some b : ASSERT b = Some () → b = true.
Proof. by destruct b. Qed.

Lemma index_check_inv i n : (i <? n) && (i >=? 0) = true → 0 ≤ i < n.
Proof.
  intros [? ?]%andb_prop. split; [by apply Z.geb_le | by apply Z.ltb_lt].
Qed.

Lemma moveCard_success fromCol toCol count g g' :
  Game_moveCard fromCol toCol count g = Some (true, g') →
  ∃ g2 from2, 0 ≤ fromCol < columnsSize
              ∧ column g2 fromCol = Some from2
              ∧ g' = set_column fromCol (reveal from2) g2.
Proof.
  unfold Game_moveCard. intros H.
  destruct (ASSERT ((fromCol <? columnsSize) && (fromCol >=? 0))) as [[]|] eqn:Ha;
    [|done].
  apply ASSERT_Some, index_check_inv in Ha. simpl in H.
  repeat (case_match || simplify_option_eq); eauto 10.
Qed.

Lemma moveFromColumnToReserve_success fromCol slot g g' :
  Game_moveFromColumnToReserve fromCol slot g = Some (true, g') →
  ∃ g2 col2, 0 ≤ fromCol < columnsSize
             ∧ column g2 fromCol = Some col2
             ∧ g' = set_column fromCol (reveal col2) g2.
Proof.
  unfold Game_moveFromColumnToReserve. intros H.
  destruct (ASSERT ((fromCol <? columnsSize) && (fromCol >=? 0))) as [[]|] eqn:Ha;
    [|done].
  apply ASSERT_Some, index_check_inv in Ha. simpl in H.
  destruct (ASSERT ((slot <? reserveSlotSize) && (slot >=? 0))) as [[]|]; [|done].
  simpl in H. destruct (column g fromCol) as [col|] eqn:Hc; [|done]. simpl in H.
  destruct (last col) as [card|]; [|done].
  destruct (negb (isFacingUp card)); [done|].
  destruct (reserveSlot g slot) as [r|]; [|done]. simpl in H.
  match type of H with (if ?b then _ else _) = _ => destruct b end; [|done].
  injection H as <-.
  exists (set_column fromCol (take (length col - 1)%nat col)
            (set_reserveSlot slot card g)), (take (length col - 1)%nat col).
  split; [done|]. split.
  - eapply column_set_column; [lia|]. exact Hc.
  - unfold set_column. simpl. by rewrite list_insert_insert_eq.
Qed.

(** C9. Reveal invariant: after a successful [moveCard] from a column, and
    after a successful [moveFromColumnToReserve] from it, the column is
    empty or its top card is face-up. *)
Theorem reveal_invariant (g g' : Game) (fromCol : Z) (col : list Card) (c : Card) :
  (∃ toCol count, Game_moveCard fromCol toCol count g = Some (true, g'))
  ∨ (∃ slot, Game_moveFromColumnToReserve fromCol slot g = Some (true, g')) →
  column g' fromCol = Some col →
  last col = Some c →
  isFacingUp c = true.
Proof.
  intros Hop Hcol Hlast.
  assert (∃ g2 col2, 0 ≤ fromCol < columnsSize
                     ∧ column g2 fromCol = Some col2
                     ∧ g' = set_column fromCol (reveal col2) g2)
    as (g2 & col2 & Hi & Hc2 & ->).
  { destruct Hop as [(toCol & count & H)|(slot & H)].
    - by eapply moveCard_success.
    - by eapply moveFromColumnToReserve_success. }
  erewrite column_set_column in Hcol; [|lia|done].
  injection Hcol as <-. by eapply reveal_top.
Qed.

Lemma reveal_invariant_witness : isFacingUp (flip nineOfClubs) = true.
Proof.
  eapply (reveal_invariant reveal_position _ 0 [flip nineOfClubs]).
  - left. exists 1, 1. reflexivity.
  - reflexivity.
  - reflexivity.
Defined.

(** ** The foundation test *)

Section foundation.
Context (g : Game) (slot : Z) (r card : Card).
Hypothesis slot_range : 0 ≤ slot < reserveSlotSize.
Hypothesis slot_card : reserveSlot g slot = Some r.
Hypothesis pile_top : last (pile g) = Some card.

Lemma moveFromPileToReserve_onto_empty :
  isValid r = false → getRank card = Ace → getSuit card = slot →
  Game_moveFromPileToReserve slot g =
    Some (true, set_pile (take (length (pile g) - 1)%nat (pile g))
                  (set_reserveSlot slot card g)).
Proof.
  intros Hv Hr Hs. unfold Game_moveFromPileToReserve.
  rewrite ASSERT_index by done. simpl. rewrite pile_top, slot_card. simpl.
  rewrite Hv, Hr, Hs, !Z.eqb_refl. simpl. done.
Qed.

Lemma moveFromPileToReserve_onto_lower :
  isValid r = true → getRank r < getRank card → getSuit card = slot →
  Game_moveFromPileToReserve slot g =
    Some (true, set_pile (take (length (pile g) - 1)%nat (pile g))
                  (set_reserveSlot slot card g)).
Proof.
  intros Hv Hr Hs. unfold Game_moveFromPileToReserve.
  rewrite ASSERT_index by done. simpl. rewrite pile_top, slot_card. simpl.
  rewrite Hv, Hs, Z.eqb_refl. simpl.
  rewrite Z.gtb_ltb, (proj2 (Z.ltb_lt _ _) Hr). simpl.
  by rewrite ?andb_true_r, ?orb_true_r.
Qed.
End foundation.

(** C3. With the Ace of Hearts on reserve slot 0 and the Three of Hearts on
    top of the pile, [moveFromPileToReserve(0)] returns [true] and puts the
    Three on the slot: the test is [>] on the ranks, not "next rank". *)
Theorem moveFromPileToReserve_accepts_rank_gap (g : Game) (ace three : Card) :
  reserveSlot g 0 = Some ace →
  isValid ace = true → getSuit ace = Hearts → getRank ace = Ace →
  last (pile g) = Some three →
  getSuit three = Hearts → getRank three = 3 →
  Game_moveFromPileToReserve 0 g =
    Some (true, set_pile (take (length (pile g) - 1)%nat (pile g))
                  (set_reserveSlot 0 three g)).
Proof.
  intros Hslot Hv _ Hr Htop Hs H3.
  eapply moveFromPileToReserve_onto_lower.
  - unfold reserveSlotSize. lia.
  - exact Hslot.
  - exact Htop.
  - exact Hv.
  - rewrite Hr, H3. unfold Ace. lia.
  - exact Hs.
Qed.

Lemma moveFromPileToReserve_accepts_rank_gap_witness :
  Game_moveFromPileToReserve 0 gap_position =
    Some (true, gap_filled).
Proof.
  apply (moveFromPileToReserve_accepts_rank_gap gap_position aceOfHearts
           threeOfHearts); reflexivity.
Defined.

(** After the Three has gone onto the Ace, taking it back onto the Four of
    Spades leaves a Two of Hearts on the slot while the Two of Hearts is
    still on the pile. *)
Lemma rank_gap_duplicates_card :
  ∃ g c, run [OpPileToReserve 0; OpReserveToColumn blank 0 0] gap_position
           = Some g
         ∧ reserveSlot g 0 = Some c
         ∧ isValid c = true
         ∧ pair_of c = pair_of twoOfHearts
         ∧ pile g = [twoOfHearts].
Proof. eexists _, _. by repeat (split; [vm_compute; reflexivity|]). Qed.

(** ** Deck::reShuffle *)

(** C7. [Deck::reShuffle] on an empty deck empties the pile and leaves in the
    deck a permutation of the cards of the pile, each turned over once; the
    deck is all face-down when the pile was all face-up. *)
Theorem reShuffle_turns_over (gen : Generator) (d : Deck) (pile : list Card) :
  Deck_isEmpty d = true →
  ∃ d', Deck_reShuffle gen d pile = Some (d', [])
        ∧ d' ≡ₚ flip <$> pile
        ∧ (Forall (λ c, isFacingUp c = true) pile →
           Forall (λ c, isFacingUp c = false) d').
Proof.
  intros He. unfold Deck_reShuffle. rewrite He. simpl.
  eexists. split; [done|].
  assert (flip <$> Deck_shuffle gen pile ≡ₚ flip <$> pile) as Hp.
  { apply fmap_Permutation, permute_perm. }
  split; [done|]. intros Hup. rewrite Hp.
  apply Forall_fmap. eapply Forall_impl; [exact Hup|].
  intros c Hc. unfold isFacingUp, flip in *. simpl. by rewrite Hc.
Qed.

Lemma reShuffle_turns_over_witness :
  ∃ d', Deck_reShuffle identity_generator [] [sixOfHearts; sevenOfSpades]
          = Some (d', [])
        ∧ d' ≡ₚ flip <$> [sixOfHearts; sevenOfSpades]
        ∧ (Forall (λ c, isFacingUp c = true) [sixOfHearts; sevenOfSpades] →
           Forall (λ c, isFacingUp c = false) d').
Proof. apply (reShuffle_turns_over identity_generator [] _). reflexivity. Defined.

(** A face-down card in the pile comes out of [Deck::reShuffle] face-up. *)
Lemma reShuffle_face_down_pile :
  ∃ d', Deck_reShuffle identity_generator [] [nineOfClubs] = Some (d', [])
        ∧ ¬ Forall (λ c, isFacingUp c = false) d'.
Proof.
  eexists. split; [reflexivity|].
  intros H. apply Forall_inv in H. discriminate H.
Qed.

(** ** The save file *)

Lemma writeCard_image c w : writeCard c w = w ++ card_image c.
Proof.
  unfold writeCard, writeInt, writeBool, card_image. by rewrite <- !(assoc_L (++)).
Qed.

Lemma writeCards_image cards w : writeCards cards w = w ++ cards_image cards.
Proof.
  unfold writeCards, cards_image. revert w.
  induction cards as [|c cards IH]; intros w; simpl.
  - by rewrite (right_id_L [] (++)).
  - by rewrite IH, writeCard_image, <- (assoc_L (++)).
Qed.

Lemma writeColumns_image cols w :
  writeColumns cols w = w ++ mjoin (counted_image <$> cols).
Proof.
  unfold writeColumns. revert w.
  induction cols as [|col cols IH]; intros w; simpl.
  - by rewrite (right_id_L [] (++)).
  - rewrite IH, writeCards_image. unfold writeInt, counted_image.
    by rewrite <- !(assoc_L (++)).
Qed.

Lemma saveFileGame_writes name g fs :
  opens_for_output fs (name +:+ ".sot") = true →
  Game_saveFileGame name g fs =
    (FlowsOffEnd,
     mkFileSystem (<[(name +:+ ".sot")%string := save_image g]> (files fs))
                  (opens_for_output fs) (opens_for_input fs)).
Proof.
  intros Hopen. unfold Game_saveFileGame. rewrite Hopen. simpl. do 3 f_equal.
  rewrite !writeCards_image, writeColumns_image. unfold writeInt, Writer_write.
  rewrite firstn_all2 by (by vm_compute).
  unfold save_image, counted_image. simpl.
  by rewrite <- !(assoc_L (++)).
Qed.

(** C6. [saveFileGame] returns [false] when the file does not open.  When it
    opens, the file receives the magic, the deck, the seven columns, the pile
    and the four reserves, and control then reaches the end of the function
    body: no [return] statement is executed, so no [true] is returned. *)
Theorem saveFileGame_returns (name : string) (g : Game) (fs : FileSystem) :
  let filename := (name +:+ ".sot")%string in
  (opens_for_output fs filename = false →
     Game_saveFileGame name g fs = (Return false, fs))
  ∧ (opens_for_output fs filename = true →
       ∃ fs', Game_saveFileGame name g fs = (FlowsOffEnd, fs')
              ∧ files fs' !! filename = Some (save_image g)).
Proof.
  intros filename. split; intros Hopen.
  - unfold Game_saveFileGame. fold filename. by rewrite Hopen.
  - rewrite saveFileGame_writes by done. eexists. split; [done|].
    simpl. apply lookup_insert_eq.
Qed.

Lemma saveFileGame_returns_witness :
  (Game_saveFileGame "latest" gap_position open_disk).1 = FlowsOffEnd.
Proof.
  destruct (saveFileGame_returns "latest" gap_position open_disk) as [_ H].
  destruct (H eq_refl) as (fs' & Hsave & _).
  rewrite Hsave. reflexivity.
Defined.

(** ** Game::isGameWon *)

Lemma to_uchar_small x : 0 ≤ x < 256 → to_uchar x = x.
Proof. intros. unfold to_uchar. by apply Z.mod_small. Qed.

(** The index loop computes [run_from] on the cards from [j] on. *)
Lemma columnSet_from_run n (j : nat) col :
  (j + n = length col)%nat → (j + n ≤ 13)%nat →
  columnSet_from n (Z.of_nat j) col =
    Some (run_from (13 - Z.of_nat j)
            (match j with O => None | S i => col !! i end) (drop j col)).
Proof.
  revert j. induction n as [|n IH]; intros j Hlen Hle.
  - simpl. rewrite drop_ge by lia. done.
  - assert (is_Some (col !! j)) as [cj Hcj] by (apply lookup_lt_is_Some; lia).
    rewrite (drop_S _ _ _ Hcj). cbn [columnSet_from run_from].
    rewrite Nat2Z.id, Hcj. simpl.
    rewrite to_uchar_small by lia. unfold getRank, isFacingUp.
    destruct (rank cj =? 13 - Z.of_nat j); simpl; [|done].
    destruct (facingUp cj); simpl; [|done].
    replace (Z.of_nat j + 1) with (Z.of_nat (S j)) by lia.
    destruct j as [|i].
    + simpl. rewrite (IH 1%nat) by lia. simpl. by rewrite Hcj.
    + replace (Z.of_nat (S i) >? 0) with true by (symmetry; apply Z.gtb_lt; lia).
      replace (Z.to_nat (Z.of_nat (S i) - 1)) with i by lia.
      assert (is_Some (col !! i)) as [cp Hcp] by (apply lookup_lt_is_Some; lia).
      rewrite Hcp. simpl. destruct (eqb (isRed cj) (isRed cp)); simpl; [done|].
      rewrite (IH (S (S i))) by lia. rewrite Hcj.
      by replace (13 - Z.of_nat (S i) - 1) with (13 - Z.of_nat (S (S i))) by lia.
Qed.

Lemma alternating_cons c l :
  alternating (c :: l) ↔
    match l with [] => True | d :: _ => isRed c ≠ isRed d end ∧ alternating l.
Proof. destruct l; simpl; tauto. Qed.

Lemma run_from_spec k prev l :
  run_from k prev l = true ↔
    rank <$> l = (λ i : nat, k - Z.of_nat i) <$> seq 0 (length l)
    ∧ Forall (λ c, facingUp c = true) l
    ∧ alternating (from_option (λ p, [p]) [] prev ++ l).
Proof.
  revert k prev. induction l as [|c l IH]; intros k prev.
  - simpl. split; [|done]. intros _. split; [done|]. split; [done|].
    by destruct prev.
  - cbn [run_from]. rewrite !andb_true_iff, IH, Z.eqb_eq.
    cbn [length seq]. rewrite <- (fmap_S_seq 0), !fmap_cons, <- list_fmap_compose.
    rewrite Forall_cons. cbn [from_option app].
    assert (rank <$> l = (λ i : nat, k - 1 - Z.of_nat i) <$> seq 0 (length l)
            ↔ rank <$> l = (λ i : nat, k - Z.of_nat i) ∘ S <$> seq 0 (length l))
      as ->.
    { erewrite (list_fmap_ext _ ((λ i : nat, k - Z.of_nat i) ∘ S)); [done|].
      intros; simpl; lia. }
    assert (match prev with
            | Some p => negb (eqb (isRed c) (isRed p))
            | None => true
            end = true ∧ alternating (c :: l)
            ↔ alternating (from_option (λ p, [p]) [] prev ++ c :: l)) as <-.
    { destruct prev as [p|]; cbn [from_option app].
      - rewrite (alternating_cons p), negb_true_iff, eqb_false_iff.
        split; intros [? ?]; split; congruence.
      - tauto. }
    split.
    + intros (((Hr & Hf) & Hp) & Hl & HF & Ha).
      split; [|done]. f_equal; [lia | done].
    + intros (Hl & [Hf HF] & Hp & Ha). injection Hl as Hr Hl.
      repeat split; try done. lia.
Qed.

Lemma columnSet_complete col :
  length col = 13%nat →
  columnSet_from 13 0 col = Some (bool_decide (complete_run col)).
Proof.
  intros Hlen. change 0 with (Z.of_nat 0).
  rewrite (columnSet_from_run 13 0 col) by lia.
  rewrite drop_0. f_equal. apply eq_true_iff_eq.
  rewrite run_from_spec, bool_decide_eq_true, Hlen. reflexivity.
Qed.

Lemma complete_run_length col : complete_run col → length col = 13%nat.
Proof.
  intros [Hr _]. apply (f_equal length) in Hr.
  by rewrite !length_fmap in Hr.
Qed.

Lemma countSets_spec n (i : nat) cnt g :
  (i + n ≤ length (columns g))%nat →
  countSets n (Z.of_nat i) cnt g =
    Some (cnt + Z.of_nat (length (filter complete_run
                                    (take n (drop i (columns g)))))).
Proof.
  revert i cnt. induction n as [|n IH]; intros i cnt Hlen.
  - simpl. f_equal. lia.
  - assert (is_Some (columns g !! i)) as [col Hcol]
      by (apply lookup_lt_is_Some; lia).
    rewrite (drop_S _ _ _ Hcol). cbn [countSets take].
    rewrite column_nonneg, Nat2Z.id, Hcol by lia.
    cbn -[columnSet_from countSets Nat.eqb filter].
    replace (Z.of_nat i + 1) with (Z.of_nat (S i)) by lia.
    rewrite filter_cons. destruct (length col =? 13)%nat eqn:E;
      cbn -[columnSet_from countSets filter].
    + apply Nat.eqb_eq in E. rewrite columnSet_complete by done.
      cbn -[countSets filter]. rewrite IH by lia. f_equal.
      destruct (decide (complete_run col)) as [Hc|Hc].
      * rewrite bool_decide_eq_true_2 by done. simpl. lia.
      * by rewrite bool_decide_eq_false_2 by done.
    + apply Nat.eqb_neq in E. rewrite IH by lia.
      rewrite decide_False; [done|].
      intros Hc. by apply complete_run_length in Hc.
Qed.

(** C4. [isGameWon] returns [true] exactly when four of the seven columns
    hold thirteen cards running from King down to Ace, every one face-up and
    every neighbour of the other colour. *)
Theorem isGameWon_iff_four_complete_columns (g : Game) :
  length (columns g) = 7%nat →
  Game_isGameWon g = Some (bool_decide (complete_columns g = 4%nat)).
Proof.
  intros Hlen. unfold Game_isGameWon, complete_columns.
  change (countSets 7 0 0 g) with (countSets 7 (Z.of_nat 0) 0 g).
  rewrite (countSets_spec 7 0 0 g) by lia. simpl.
  rewrite drop_0, firstn_all2 by lia. f_equal.
  apply eq_true_iff_eq. rewrite Z.eqb_eq, bool_decide_eq_true. lia.
Qed.

Lemma isGameWon_iff_four_complete_columns_witness :
  Game_isGameWon won_position = Some true.
Proof.
  exact (isGameWon_iff_four_complete_columns won_position eq_refl).
Defined.

(** ** Cards up to the side they show *)

Lemma join_insert_Permutation {A} (cols : list (list A)) i x y :
  cols !! i = Some x → mjoin (<[i:=y]> cols) ++ x ≡ₚ mjoin cols ++ y.
Proof.
  intros Hi. rewrite insert_take_drop by (by eapply lookup_lt_Some).
  rewrite <- (take_drop_middle cols i x Hi) at 3.
  rewrite !join_app. simpl. solve_Permutation.
Qed.

Global Instance same_cards_equivalence : Equivalence same_cards.
Proof.
  unfold same_cards. split.
  - by intros l.
  - by intros l k ?.
  - intros l k m ? ?. by etrans.
Qed.

Global Instance same_cards_app : Proper (same_cards ==> same_cards ==> same_cards) app.
Proof.
  unfold same_cards. intros l l' Hl k k' Hk. by rewrite !fmap_app, Hl, Hk.
Qed.

Global Instance same_cards_cons c : Proper (same_cards ==> same_cards) (cons c).
Proof. unfold same_cards. intros l l' Hl. by rewrite !fmap_cons, Hl. Qed.

Lemma Permutation_same_cards l k : l ≡ₚ k → same_cards l k.
Proof. unfold same_cards. by intros ->. Qed.

Global Instance same_cards_Permutation :
  Proper ((≡ₚ) ==> (≡ₚ) ==> iff) same_cards.
Proof. unfold same_cards. intros l l' Hl k k' Hk. by rewrite Hl, Hk. Qed.

Lemma face_down_flip c : face_down (flip c) = face_down c.
Proof. done. Qed.

Lemma same_cards_fmap_flip l : same_cards (flip <$> l) l.
Proof.
  unfold same_cards. rewrite <- list_fmap_compose.
  by erewrite list_fmap_ext; [|intros; apply face_down_flip].
Qed.

Lemma same_cards_insert_flip v i c :
  v !! i = Some c → same_cards (<[i:=flip c]> v) v.
Proof.
  intros Hi. unfold same_cards.
  rewrite list_fmap_insert, face_down_flip, list_insert_id; [done|].
  by rewrite list_lookup_fmap, Hi.
Qed.

Lemma same_cards_reveal v : same_cards (reveal v) v.
Proof.
  unfold reveal. destruct (last v) as [c|] eqn:Hl; [|done].
  destruct (negb (isFacingUp c)); [|done].
  apply same_cards_insert_flip. rewrite last_lookup in Hl.
  by replace (length v - 1)%nat with (Init.Nat.pred (length v)) by lia.
Qed.

Lemma same_cards_app_inv_r l k m :
  same_cards (l ++ m) (k ++ m) → same_cards l k.
Proof.
  unfold same_cards. rewrite !fmap_app. apply Permutation_app_inv_r.
Qed.

Lemma same_cards_join_insert cols i x y :
  cols !! i = Some x →
  same_cards (mjoin (<[i:=y]> cols) ++ x) (mjoin cols ++ y).
Proof. intros. by apply Permutation_same_cards, join_insert_Permutation. Qed.

Lemma same_cards_join_insert_same cols i x y :
  cols !! i = Some x → same_cards y x →
  same_cards (mjoin (<[i:=y]> cols)) (mjoin cols).
Proof.
  intros Hi Hy. apply (same_cards_app_inv_r _ _ x).
  rewrite same_cards_join_insert by done. by rewrite Hy.
Qed.

Lemma last_take l (c : Card) :
  last l = Some c → l = take (length l - 1) l ++ [c].
Proof.
  intros [l' ->]%last_Some. rewrite length_app. simpl.
  replace (length l' + 1 - 1)%nat with (length l') by lia.
  by rewrite take_app_length.
Qed.

Lemma drawCard_top d card d' :
  Deck_drawCard d = Some (card, d') → d = d' ++ [card].
Proof.
  unfold Deck_drawCard. destruct (ASSERT _); [|done]. simpl.
  destruct (d !! (length d - 1)%nat) as [c|] eqn:Hc; [|done]. simpl.
  intros [= -> <-]. apply last_take.
  rewrite last_lookup.
  by replace (Init.Nat.pred (length d)) with (length d - 1)%nat by lia.
Qed.

(** ** What each operation does *)

Lemma drawCard_effect g g' :
  Game_drawCard g = Some (true, g') → effect OpDrawCard g g'.
Proof.
  unfold Game_drawCard. destruct (Deck_isEmpty (deck g)); [done|].
  destruct (Deck_drawCard (deck g)) as [[card d]|] eqn:Hd; [|done]. simpl.
  intros [= <-]. apply drawCard_top in Hd. simpl. split; [|done].
  unfold cards_out. simpl. rewrite Hd.
  unfold same_cards. rewrite !fmap_app. simpl. solve_Permutation.
Qed.

Lemma take_length_snoc {A} (l : list A) x :
  take (length (l ++ [x]) - 1) (l ++ [x]) = l.
Proof.
  rewrite length_app. simpl.
  replace (length l + 1 - 1)%nat with (length l) by lia.
  by rewrite take_app_length.
Qed.

Lemma same_cards_push cols i (to m : list Card) :
  cols !! i = Some to →
  same_cards (mjoin (<[i:=to ++ m]> cols)) (mjoin cols ++ m).
Proof.
  intros Hi. apply (same_cards_app_inv_r _ _ to).
  rewrite (same_cards_join_insert _ _ _ _ Hi).
  apply Permutation_same_cards. solve_Permutation.
Qed.

Lemma same_cards_pop cols i (a a' m : list Card) :
  cols !! i = Some (a ++ m) → same_cards a' a →
  same_cards (mjoin (<[i:=a']> cols) ++ m) (mjoin cols).
Proof.
  intros Hi Ha. apply (same_cards_app_inv_r _ _ a).
  rewrite <- (assoc_L (++)), (comm (++) m a).
  rewrite (same_cards_join_insert _ _ _ _ Hi). by rewrite Ha.
Qed.

Lemma moveFromPileToColumn_effect toCol g g' :
  Game_moveFromPileToColumn toCol g = Some (true, g') →
  effect (OpPileToColumn toCol) g g'.
Proof.
  unfold Game_moveFromPileToColumn.
  destruct (ASSERT _) as [[]|] eqn:Ha; [|done].
  apply ASSERT_Some, index_check_inv in Ha. simpl.
  destruct (last (pile g)) as [card|] eqn:Hp; [|done].
  destruct (column g toCol) as [to|] eqn:Hto; [|done]. simpl.
  match goal with |- (if ?b then _ else _) = _ → _ => destruct b end; [done|].
  intros [= <-]. simpl. split; [|done].
  rewrite column_nonneg in Hto by lia.
  destruct g as [d cc cols p rs]. simpl in *.
  apply last_Some in Hp as [p' ->].
  unfold cards_out. simpl. rewrite take_length_snoc.
  rewrite (same_cards_push _ _ _ _ Hto).
  apply Permutation_same_cards. solve_Permutation.
Qed.

Lemma moveCard_effect fromCol toCol count g g' :
  Game_moveCard fromCol toCol count g = Some (true, g') →
  effect (OpMoveCard fromCol toCol count) g g'.
Proof.
  unfold Game_moveCard.
  destruct (ASSERT ((fromCol <? _) && _)) as [[]|] eqn:Hf; [|done].
  apply ASSERT_Some, index_check_inv in Hf. simpl.
  destruct (ASSERT ((toCol <? _) && _)) as [[]|] eqn:Ht; [|done].
  apply ASSERT_Some, index_check_inv in Ht. simpl.
  rewrite !column_nonneg by lia.
  destruct (columns g !! Z.to_nat fromCol) as [from|] eqn:Hfrom; [|done]. simpl.
  destruct (columns g !! Z.to_nat toCol) as [to|] eqn:Hto; [|done]. simpl.
  destruct ((count <=? 0) || (count >? Z.of_nat (length from))) eqn:Hc; [done|].
  apply orb_false_iff in Hc as [Hc1%Z.leb_gt Hc2]. rewrite Z.gtb_ltb in Hc2.
  apply Z.ltb_ge in Hc2.
  destruct (from !! _) as [startCard|]; [|done]. simpl.
  destruct (negb (isFacingUp startCard)); [done|].
  match goal with |- (if ?b then _ else _) = _ → _ => destruct b end; [done|].
  set (k := Z.to_nat (Z.of_nat (length from) - count)).
  set (moving := drop k from).
  set (g1 := set_column toCol (to ++ moving) g).
  rewrite (column_nonneg g1) by lia.
  destruct (columns g1 !! Z.to_nat fromCol) as [from1|] eqn:Hfrom1; [|done].
  simpl. set (k1 := Z.to_nat (Z.of_nat (length from1) - count)).
  rewrite column_nonneg by lia. simpl.
  rewrite list_lookup_insert_eq by (by eapply lookup_lt_Some). simpl.
  intros [= <-]. split; [|done].
  unfold cards_out, g1 in *. simpl in *. rewrite list_insert_insert_eq.
  assert (from1 = take k1 from1 ++ moving) as Hsplit.
  { rewrite <- (take_drop k1 from1) at 1. f_equal.
    destruct (decide (Z.to_nat toCol = Z.to_nat fromCol)) as [He|Hne].
    - rewrite He, list_lookup_insert_eq in Hfrom1 by (by eapply lookup_lt_Some).
      injection Hfrom1 as <-. rewrite He, Hfrom in Hto. injection Hto as <-.
      unfold k1, moving. rewrite length_app, length_drop.
      rewrite drop_app_length'; [done|]. unfold k. lia.
    - rewrite list_lookup_insert_ne, Hfrom in Hfrom1 by done.
      injection Hfrom1 as <-. done. }
  assert (same_cards
            (mjoin (<[Z.to_nat fromCol:=reveal (take k1 from1)]>
                      (<[Z.to_nat toCol:=to ++ moving]> (columns g))))
            (mjoin (columns g))) as ->; [|done].
  apply (same_cards_app_inv_r _ _ moving).
  rewrite Hsplit in Hfrom1.
  rewrite (same_cards_pop _ _ _ _ _ Hfrom1 (same_cards_reveal _)).
  by apply same_cards_push.
Qed.

Lemma foundation_test r card slot :
  (negb (isValid r) && (getRank card =? Ace) && (getSuit card =? slot))
  || ((isValid r && (getRank card >? getRank r)) && (getSuit card =? slot)) = true →
  getSuit card = slot
  ∧ (if isValid r then getRank r < getRank card else getRank card = Ace).
Proof.
  destruct (isValid r); simpl.
  - rewrite andb_true_iff, Z.gtb_ltb, Z.ltb_lt, Z.eqb_eq. tauto.
  - rewrite orb_false_r, andb_true_iff, !Z.eqb_eq. tauto.
Qed.

Lemma moveFromPileToReserve_effect slot g g' :
  Game_moveFromPileToReserve slot g = Some (true, g') →
  effect (OpPileToReserve slot) g g'.
Proof.
  unfold Game_moveFromPileToReserve.
  destruct (ASSERT _) as [[]|] eqn:Ha; [|done].
  apply ASSERT_Some, index_check_inv in Ha. simpl.
  destruct (last (pile g)) as [card|] eqn:Hp; [|done].
  destruct (reserveSlot g slot) as [r|] eqn:Hr; [|done]. simpl.
  match goal with |- (if ?b then _ else _) = _ → _ => destruct b eqn:Hb end;
    [|done].
  apply foundation_test in Hb as [Hs Hk].
  intros [= <-]. exists r, card. simpl.
  repeat (split; [done || lia|]). split; [|done].
  destruct g as [d cc cols p rs]. simpl in *.
  apply last_Some in Hp as [p' ->].
  unfold cards_out. simpl. rewrite take_length_snoc.
  apply Permutation_same_cards. solve_Permutation.
Qed.

Lemma moveFromColumnToReserve_effect fromCol slot g g' :
  Game_moveFromColumnToReserve fromCol slot g = Some (true, g') →
  effect (OpColumnToReserve fromCol slot) g g'.
Proof.
  unfold Game_moveFromColumnToReserve.
  destruct (ASSERT ((fromCol <? _) && _)) as [[]|] eqn:Hf; [|done].
  apply ASSERT_Some, index_check_inv in Hf. simpl.
  destruct (ASSERT ((slot <? _) && _)) as [[]|] eqn:Ha; [|done].
  apply ASSERT_Some, index_check_inv in Ha. simpl.
  destruct (column g fromCol) as [col|] eqn:Hcol; [|done]. simpl.
  destruct (last col) as [card|] eqn:Hp; [|done].
  destruct (negb (isFacingUp card)); [done|].
  destruct (reserveSlot g slot) as [r|] eqn:Hr; [|done]. simpl.
  match goal with |- (if ?b then _ else _) = _ → _ => destruct b eqn:Hb end;
    [|done].
  apply foundation_test in Hb as [Hs Hk].
  intros [= <-]. exists r, col, card. simpl.
  repeat (split; [done || lia|]). split; [|done].
  rewrite column_nonneg in Hcol by lia.
  apply last_Some in Hp as [col' ->].
  unfold cards_out. simpl. rewrite take_length_snoc.
  assert (same_cards (mjoin (columns g))
            (mjoin (<[Z.to_nat fromCol:=reveal col']> (columns g)) ++ [card]))
    as ->.
  { symmetry. eapply same_cards_pop; [done|]. apply same_cards_reveal. }
  apply Permutation_same_cards. solve_Permutation.
Qed.

Lemma moveFromReserveToColumn_effect u slot toCol g g' :
  Game_moveFromReserveToColumn u slot toCol g = Some (true, g') →
  effect (OpReserveToColumn u slot toCol) g g'.
Proof.
  unfold Game_moveFromReserveToColumn.
  destruct (ASSERT ((slot <? _) && _)) as [[]|] eqn:Ha; [|done].
  apply ASSERT_Some, index_check_inv in Ha. simpl.
  destruct (ASSERT ((toCol <? _) && _)) as [[]|]; [|done]. simpl.
  destruct (column g toCol) as [col|] eqn:Hcol; [|done]. simpl.
  destruct (reserveSlot g slot) as [card|] eqn:Hr; [|done]. simpl.
  match goal with |- (if ?b then _ else _) = _ → _ => destruct b end; [done|].
  intros Hg'. exists card. split; [lia|]. split; [done|].
  assert (0 ≤ toCol) as Ht.
  { unfold column in Hcol. destruct (toCol <? 0) eqn:E; [done|].
    by apply Z.ltb_ge. }
  rewrite column_nonneg in Hcol by lia.
  assert (same_cards
            (deck g ++ mjoin (<[Z.to_nat toCol:=col ++ [card]]> (columns g))
             ++ pile g)
            (card :: cards_out g)) as Hsame.
  { unfold cards_out. rewrite (same_cards_push _ _ _ _ Hcol).
    apply Permutation_same_cards. solve_Permutation. }
  destruct (getRank card =? Ace); simpl in Hg'; by injection Hg' as <-.
Qed.

Lemma reShuffle_effect gen g g' :
  handleCommand_przetasuj gen g = Some (true, g') → effect (OpReShuffle gen) g g'.
Proof.
  unfold handleCommand_przetasuj. destruct (negb (Deck_isEmpty (deck g))); [done|].
  unfold Deck_reShuffle. destruct (ASSERT _) as [[]|] eqn:Ha; [|done].
  apply ASSERT_Some in Ha. simpl. intros [= <-]. split; [|done].
  unfold cards_out. simpl.
  assert (deck g = []) as ->.
  { unfold Deck_isEmpty in Ha. apply Nat.eqb_eq in Ha.
    by destruct (deck g). }
  rewrite same_cards_fmap_flip. unfold Deck_shuffle.
  rewrite (permute_perm gen (pile g)).
  apply Permutation_same_cards. solve_Permutation.
Qed.

Lemma exec_effect op g g' : exec op g = Some (true, g') → effect op g g'.
Proof.
  destruct op; simpl exec.
  - apply drawCard_effect.
  - apply moveCard_effect.
  - apply moveFromPileToColumn_effect.
  - apply moveFromPileToReserve_effect.
  - apply moveFromColumnToReserve_effect.
  - apply moveFromReserveToColumn_effect.
  - apply reShuffle_effect.
Qed.

(** An operation that returns [false] changes nothing. *)
Lemma exec_false op g g' : exec op g = Some (false, g') → g' = g.
Proof.
  destruct op; simpl; unfold Game_drawCard, Game_moveCard,
    Game_moveFromPileToColumn, Game_moveFromPileToReserve,
    Game_moveFromColumnToReserve, Game_moveFromReserveToColumn,
    handleCommand_przetasuj; intros H;
    repeat (case_match || simplify_option_eq); done.
Qed.

(** ** Dealing *)

Lemma deal_effect n i g g' :
  deal n i g = Some g' →
  same_cards (cards_out g') (cards_out g) ∧ reserveSlots g' = reserveSlots g.
Proof.
  revert g. induction n as [|n IH]; intros g; simpl.
  - by intros [= <-].
  - destruct (Deck_drawCard (deck g)) as [[card d]|] eqn:Hd; [|done]. simpl.
    destruct (column g i) as [col|] eqn:Hcol; [|done]. simpl.
    intros [Hsame Hrs]%IH. split; [|done]. rewrite Hsame.
    apply drawCard_top in Hd. unfold column in Hcol.
    destruct (i <? 0); [done|].
    unfold cards_out. simpl. rewrite Hd, (same_cards_push _ _ _ _ Hcol).
    apply Permutation_same_cards. solve_Permutation.
Qed.

Lemma start_from_effect n i g g' :
  start_from n i g = Some g' →
  same_cards (cards_out g') (cards_out g) ∧ reserveSlots g' = reserveSlots g.
Proof.
  revert i g. induction n as [|n IH]; intros i g; simpl.
  - by intros [= <-].
  - destruct (deal (Z.to_nat (i + 1)) i g) as [g1|] eqn:Hdeal; [|done]. simpl.
    apply deal_effect in Hdeal as [Hsame1 Hrs1].
    destruct (column g1 i) as [col|] eqn:Hcol; [|done]. simpl.
    destruct (col !! _) as [c|] eqn:Hc; [|done]. simpl.
    intros [Hsame Hrs]%IH. simpl in *. split; [|congruence].
    rewrite Hsame, <- Hsame1. unfold column in Hcol.
    destruct (i <? 0); [done|].
    unfold cards_out. simpl.
    by rewrite (same_cards_join_insert_same _ _ _ _ Hcol
                  (same_cards_insert_flip _ _ _ Hc)).
Qed.

(** [start()] on a new game always deals: the shuffled deck has fifty-two
    cards, and twenty-eight of them go to the columns. *)
Lemma start_deals gen u :
  ∃ g, Game_start (Game_new gen u) = Some g
       ∧ length (deck g) = 24%nat
       ∧ length <$> columns g = [1; 2; 3; 4; 5; 6; 7]%nat
       ∧ pile g = []
       ∧ Forall (λ c, isValid c = false) (reserveSlots g).
Proof.
  unfold Game_new, Deck_reset, Deck_shuffle.
  pose proof (Permutation_length (permute_perm gen canonical_cards)) as Hlen.
  change (length canonical_cards) with 52%nat in Hlen.
  destruct (permute gen canonical_cards) as [|c l]; [discriminate Hlen|].
  do 51 (destruct l as [|? l]; [discriminate Hlen|]).
  destruct l; [|discriminate Hlen]. clear Hlen.
  eexists. split; [vm_compute; reflexivity|].
  cbn [deck columns pile reserveSlots].
  do 3 (split; [reflexivity|]). repeat constructor.
Qed.

(** ** Conservation *)

Lemma same_cards_pairs l k : same_cards l k → pair_of <$> l ≡ₚ pair_of <$> k.
Proof.
  unfold same_cards. intros H.
  apply (fmap_Permutation pair_of) in H.
  by rewrite <- !list_fmap_compose in H.
Qed.

Lemma same_cards_valid l k :
  same_cards l k →
  Forall (λ c, isValid c = true) l → Forall (λ c, isValid c = true) k.
Proof.
  unfold same_cards. intros H Hl.
  assert (Forall (λ c, isValid c = true) (face_down <$> k)) as Hk.
  { rewrite <- H. by apply Forall_fmap. }
  by apply Forall_fmap in Hk.
Qed.

Lemma canonical_pairs_range s r :
  (s, r) ∈ canonical_pairs → 0 ≤ s ≤ 3 ∧ 1 ≤ r ≤ 13.
Proof.
  intros H. vm_compute in H.
  repeat (apply elem_of_cons in H as [[= -> ->]|H]; [lia|]).
  by apply elem_of_nil in H.
Qed.

Lemma canonical_cards_pairs : pair_of <$> canonical_cards = canonical_pairs.
Proof. reflexivity. Qed.

Lemma canonical_cards_valid : Forall (λ c, isValid c = true) canonical_cards.
Proof. by apply Forall_forall; intros c Hc; vm_compute in Hc;
  repeat (apply elem_of_cons in Hc as [->|Hc]; [done|]);
  apply elem_of_nil in Hc. Qed.

Lemma conserved_start gen u g :
  Game_start (Game_new gen u) = Some g → conserved g.
Proof.
  intros [Hsame Hrs]%start_from_effect. unfold conserved.
  assert (same_cards (cards_out g) canonical_cards) as Hc.
  { rewrite Hsame. unfold cards_out, Game_new, Deck_reset, Deck_shuffle. simpl.
    rewrite (permute_perm gen). apply Permutation_same_cards.
    by rewrite app_nil_r. }
  split; [|split].
  - unfold pairs_with_foundations. rewrite Hrs, (same_cards_pairs _ _ Hc).
    change (mjoin (foundation_pairs <$> reserveSlots (Game_new gen u)))
      with (@nil (Z * Z)).
    by rewrite app_nil_r, canonical_cards_pairs.
  - eapply same_cards_valid; [symmetry; exact Hc|]. apply canonical_cards_valid.
  - rewrite Hrs. simpl. intros i c Hi Hv.
    repeat (destruct i as [|i]; [by injection Hi as <-|]). done.
Qed.

Lemma foundation_pairs_next (r c : Card) :
  isValid r = true → isValid c = true → 1 ≤ getRank r →
  getSuit c = getSuit r → getRank c = getRank r + 1 →
  foundation_pairs c = foundation_pairs r ++ [pair_of c].
Proof.
  unfold foundation_pairs, pair_of, getSuit, getRank, isValid.
  intros -> -> Hr Hs Hk. rewrite Hk, Hs.
  rewrite seqZ_app, fmap_app by lia. simpl. do 3 f_equal. lia.
Qed.

Lemma foundation_pairs_ace (c : Card) :
  isValid c = true → getRank c = Ace → foundation_pairs c = [pair_of c].
Proof.
  unfold foundation_pairs, pair_of, getRank, isValid. by intros -> ->.
Qed.

Lemma foundation_pairs_empty (c : Card) :
  isValid c = false → foundation_pairs c = [].
Proof. unfold foundation_pairs. by intros ->. Qed.

(** Replacing the card of a slot by one that stands for one card more. *)
Lemma foundations_put rs (i : nat) (r c : Card) p :
  rs !! i = Some r → foundation_pairs c = foundation_pairs r ++ [p] →
  mjoin (foundation_pairs <$> <[i:=c]> rs)
    ≡ₚ p :: mjoin (foundation_pairs <$> rs).
Proof.
  intros Hi Hc. rewrite list_fmap_insert.
  apply (Permutation_app_inv_r (foundation_pairs r)).
  rewrite join_insert_Permutation by (by rewrite list_lookup_fmap, Hi).
  rewrite Hc. solve_Permutation.
Qed.

Lemma foundations_take rs (i : nat) (r c : Card) p :
  rs !! i = Some r → foundation_pairs r = foundation_pairs c ++ [p] →
  p :: mjoin (foundation_pairs <$> <[i:=c]> rs)
    ≡ₚ mjoin (foundation_pairs <$> rs).
Proof.
  intros Hi Hc. rewrite list_fmap_insert.
  apply (Permutation_app_inv_r (foundation_pairs c)).
  transitivity (mjoin (<[i:=foundation_pairs c]> (foundation_pairs <$> rs))
                ++ foundation_pairs r).
  { rewrite Hc. solve_Permutation. }
  by rewrite join_insert_Permutation by (by rewrite list_lookup_fmap, Hi).
Qed.

Lemma conserved_put g g' slot (r c : Card) :
  conserved g → 0 ≤ slot → reserveSlot g slot = Some r →
  getSuit c = slot →
  (if isValid r then getRank c = getRank r + 1 else getRank c = Ace) →
  same_cards (cards_out g) (c :: cards_out g') →
  reserveSlots g' = <[Z.to_nat slot:=c]> (reserveSlots g) →
  conserved g'.
Proof.
  intros (Hp & Hv & Hs) Hslot Hr Hsuit Hrank Hsame Hrs.
  rewrite reserveSlot_nonneg in Hr by done.
  pose proof (same_cards_valid _ _ Hsame Hv) as Hv'.
  apply Forall_cons in Hv' as [Hc Hv'].
  assert (foundation_pairs c = foundation_pairs r ++ [pair_of c]) as Hf.
  { destruct (isValid r) eqn:Hvr.
    - destruct (Hs _ _ Hr Hvr) as [Hsr Hkr].
      apply foundation_pairs_next; try done. lia.
    - rewrite (foundation_pairs_empty r) by done.
      by apply foundation_pairs_ace. }
  split; [|split].
  - rewrite <- Hp. unfold pairs_with_foundations.
    rewrite Hrs, (foundations_put _ _ _ _ _ Hr Hf).
    rewrite (same_cards_pairs _ _ Hsame). simpl. solve_Permutation.
  - done.
  - intros i c' Hi Hvc'. rewrite Hrs in Hi.
    destruct (decide (i = Z.to_nat slot)) as [->|Hne].
    + rewrite list_lookup_insert_eq in Hi by (by eapply lookup_lt_Some).
      injection Hi as <-. split; [lia|].
      destruct (isValid r) eqn:Hvr.
      * destruct (Hs _ _ Hr Hvr). lia.
      * rewrite Hrank. unfold Ace. lia.
    + rewrite list_lookup_insert_ne in Hi by done. by apply Hs.
Qed.

Lemma conserved_step op g g' :
  conserved g → builds_in_order op g → exec op g = Some (true, g') →
  conserved g'.
Proof.
  intros Hg Hord Hex. pose proof Hg as (Hp & Hv & Hs).
  apply exec_effect in Hex.
  destruct op as [|fromCol toCol count|toCol|slot|fromCol slot|u slot toCol|gen];
    simpl in Hex, Hord.
  1-3, 7: destruct Hex as [Hsame Hrs]; (split; [|split]);
    [ unfold pairs_with_foundations;
      by rewrite Hrs, (same_cards_pairs _ _ Hsame)
    | by eapply same_cards_valid; [symmetry; exact Hsame|]
    | by rewrite Hrs ].
  - destruct Hex as (r & c & Hslot & Hr & Htop & Hsuit & Hrank & Hsame & Hrs).
    eapply conserved_put; try done.
    destruct (isValid r) eqn:Hvr; [|done]. by eapply Hord.
  - destruct Hex
      as (r & col & c & Hslot & Hr & Hcol & Htop & Hsuit & Hrank & Hsame & Hrs).
    eapply conserved_put; try done.
    destruct (isValid r) eqn:Hvr; [|done]. by eapply Hord.
  - destruct Hex as (c & Hslot & Hr & Hsame & Hrs).
    pose proof (Hord _ Hr) as Hvc.
    rewrite reserveSlot_nonneg in Hr by done.
    destruct (Hs _ _ Hr Hvc) as [Hsuit Hrank].
    assert (getRank c ≤ 13) as Hmax.
    { assert (pair_of c ∈ canonical_pairs) as Hin.
      { rewrite <- Hp. unfold pairs_with_foundations.
        apply elem_of_app. right. apply list_elem_of_join.
        exists (foundation_pairs c). split.
        - unfold foundation_pairs. rewrite Hvc.
          apply list_elem_of_fmap. exists (getRank c). split; [done|].
          apply elem_of_seqZ. unfold getRank in *. lia.
        - apply list_elem_of_fmap. exists c. split; [done|].
          by eapply list_elem_of_lookup_2. }
      apply canonical_pairs_range in Hin. unfold getRank. lia. }
    set (new := if getRank c =? Ace then Card_default u
                else flip (Card_new (getSuit c) (to_uchar (getRank c - 1)))) in *.
    assert (foundation_pairs c = foundation_pairs new ++ [pair_of c]) as Hf.
    { unfold new. destruct (getRank c =? Ace) eqn:E.
      - apply Z.eqb_eq in E. by rewrite foundation_pairs_ace.
      - apply Z.eqb_neq in E. unfold Ace in E.
        apply foundation_pairs_next; try done.
        + simpl. rewrite to_uchar_small; lia.
        + simpl. rewrite to_uchar_small; lia. }
    split; [|split].
    + rewrite <- Hp. unfold pairs_with_foundations.
      rewrite (same_cards_pairs _ _ Hsame), Hrs. simpl.
      rewrite <- (foundations_take _ _ _ _ _ Hr Hf). solve_Permutation.
    + eapply same_cards_valid; [symmetry; exact Hsame|].
      by apply Forall_cons.
    + intros i c' Hi Hvc'. rewrite Hrs in Hi.
      destruct (decide (i = Z.to_nat slot)) as [->|Hne].
      * rewrite list_lookup_insert_eq in Hi by (by eapply lookup_lt_Some).
        injection Hi as <-. unfold new in *.
        destruct (getRank c =? Ace) eqn:E; [done|].
        apply Z.eqb_neq in E. unfold Ace in E. simpl.
        rewrite to_uchar_small by lia. split; [done | lia].
      * rewrite list_lookup_insert_ne in Hi by done. by apply Hs.
Qed.

(** C2. Conservation, with each occupied reserve slot standing for the cards
    of its suit from the Ace up to its occupant: in every state reached from
    [start()] by operations that build in order, the pairs of the deck, the
    columns and the pile together with those the reserve slots stand for are
    the fifty-two pairs of a full set, each once. *)
Theorem conservation_with_foundations (g : Game) :
  reachable_in_order g → pairs_with_foundations g ≡ₚ canonical_pairs.
Proof.
  intros Hr. cut (conserved g); [by intros [? _]|].
  induction Hr as [gen u g Hstart|op g b g' Hr IH Hord Hex].
  - by eapply conserved_start.
  - destruct b.
    + by eapply conserved_step.
    + by rewrite (exec_false _ _ _ Hex).
Qed.

Lemma reachable_in_order_reachable g : reachable_in_order g → reachable g.
Proof.
  induction 1 as [gen u g Hstart|op g b g' _ IH _ Hex].
  - by eapply reachable_start.
  - by eapply reachable_step.
Qed.

Lemma run_reachable ops g g' :
  reachable g → run ops g = Some g' → reachable g'.
Proof.
  revert g. induction ops as [|op ops IH]; intros g Hg; simpl.
  - by intros [= <-].
  - destruct (exec op g) as [[b g1]|] eqn:Hex; [|done]. simpl.
    apply IH. by eapply reachable_step.
Qed.

(** After the Two of Diamonds has gone onto the Ace, fifty-one pairs are
    left across the deck, the columns, the pile and the valid reserve slots:
    the Ace of Diamonds is nowhere. *)
Lemma conservation_counterexample :
  ∃ g0 g, unshuffled_start = Some g0
          ∧ run two_diamonds g0 = Some g
          ∧ reachable g
          ∧ length (pairs_in_play g) = 51%nat
          ∧ ¬ pairs_in_play g ≡ₚ canonical_pairs.
Proof.
  eexists _, _.
  split; [vm_compute; reflexivity|].
  split; [vm_compute; reflexivity|].
  split.
  { eapply (run_reachable two_diamonds).
    - eapply (reachable_start identity_generator (λ _, blank)).
      vm_compute. reflexivity.
    - vm_compute. reflexivity. }
  split; [vm_compute; reflexivity|].
  intros H%Permutation_length. vm_compute in H. discriminate H.
Qed.


Lemma builds_in_orderb_sound op g :
  builds_in_orderb op g = true → builds_in_order op g.
Proof.
  destruct op as [|fromCol toCol count|toCol|slot|fromCol slot|u slot toCol|gen];
    simpl; try done.
  - intros H r c Hr Hv Hc. rewrite Hr, Hc, Hv in H. by apply Z.eqb_eq.
  - intros H r col c Hr Hv Hcol Hc. rewrite Hr, Hcol in H. simpl in H.
    rewrite Hc, Hv in H. by apply Z.eqb_eq.
  - intros H r Hr. by rewrite Hr in H.
Qed.

Lemma run_in_order_reachable ops g g' :
  reachable_in_order g → run_in_order ops g = Some g' → reachable_in_order g'.
Proof.
  revert g. induction ops as [|op ops IH]; intros g Hg; simpl.
  - by intros [= <-].
  - destruct (builds_in_orderb op g) eqn:Hord; [|done].
    destruct (exec op g) as [[b g1]|] eqn:Hex; [|done]. simpl.
    apply IH. eapply in_order_step; [done| |done].
    by apply builds_in_orderb_sound.
Qed.

Lemma conservation_with_foundations_witness :
  ∃ g0 g, unshuffled_start = Some g0
          ∧ run_in_order two_diamonds g0 = Some g
          ∧ pairs_with_foundations g ≡ₚ canonical_pairs.
Proof.
  eexists _, _.
  split; [vm_compute; reflexivity|].
  split; [vm_compute; reflexivity|].
  apply conservation_with_foundations.
  eapply (run_in_order_reachable two_diamonds).
  - eapply (in_order_start identity_generator (λ _, blank)).
    vm_compute. reflexivity.
  - vm_compute. reflexivity.
Defined.

(** ** The reserve slots *)

Lemma reserve_slot_step
    (op : Op) (g g' : Game) (i : nat) (c c' : Card) :
  exec op g = Some (true, g') →
  reserveSlots g !! i = Some c →
  reserveSlots g' !! i = Some c' →
  (isValid c = true →
     (puts_on op i ∧ getSuit c' = Z.of_nat i ∧ getRank c < getRank c')
     ∨ (takes_from op i
        ∧ if getRank c =? Ace then isValid c' = false
          else isValid c' = true ∧ getSuit c' = getSuit c
               ∧ getRank c' = to_uchar (getRank c - 1))
     ∨ (¬ puts_on op i ∧ ¬ takes_from op i ∧ c' = c))
  ∧ (isValid c = false → ¬ takes_from op i →
       c' = c ∨ (puts_on op i ∧ getSuit c' = Z.of_nat i ∧ getRank c' = Ace)).
Proof.
  intros Hex%exec_effect Hc Hc'.
  assert (∀ slot card,
            0 ≤ slot → reserveSlots g' = <[Z.to_nat slot:=card]> (reserveSlots g) →
            (slot = Z.of_nat i ∧ c' = card) ∨ (slot ≠ Z.of_nat i ∧ c' = c))
    as Hslot.
  { intros slot card Hs Hrs. rewrite Hrs in Hc'.
    destruct (decide (Z.to_nat slot = i)) as [<-|Hne].
    - rewrite list_lookup_insert_eq in Hc' by (by eapply lookup_lt_Some).
      left. split; [lia | congruence].
    - rewrite list_lookup_insert_ne in Hc' by done.
      right. split; [lia | congruence]. }
  destruct op as [|fromCol toCol count|toCol|slot|fromCol slot|u slot toCol|gen];
    simpl in Hex |- *.
  1-3, 7: destruct Hex as [_ Hrs]; rewrite Hrs in Hc';
    (split; [intros _; right; right | intros _ _; left]); naive_solver.
  - destruct Hex as (r & card & Hs & Hr & _ & Hsuit & Hrank & _ & Hrs).
    rewrite reserveSlot_nonneg in Hr by done.
    destruct (Hslot _ _ Hs Hrs) as [[-> ->]|[Hne ->]].
    + rewrite Nat2Z.id in Hr. assert (r = c) as -> by congruence.
      split; intros Hv; rewrite Hv in Hrank; [by left | by right].
    + split; [intros _; right; right | intros _ _; left]; naive_solver.
  - destruct Hex as (r & col & card & Hs & Hr & _ & _ & Hsuit & Hrank & _ & Hrs).
    rewrite reserveSlot_nonneg in Hr by done.
    destruct (Hslot _ _ Hs Hrs) as [[-> ->]|[Hne ->]].
    + rewrite Nat2Z.id in Hr. assert (r = c) as -> by congruence.
      split; intros Hv; rewrite Hv in Hrank; [by left | by right].
    + split; [intros _; right; right | intros _ _; left]; naive_solver.
  - destruct Hex as (r & Hs & Hr & _ & Hrs).
    rewrite reserveSlot_nonneg in Hr by done.
    destruct (Hslot _ _ Hs Hrs) as [[-> ->]|[Hne ->]].
    + rewrite Nat2Z.id in Hr. assert (r = c) as -> by congruence.
      split; [|done]. intros _. right. left. split; [done|].
      by destruct (getRank c =? Ace).
    + split; [intros _; right; right | intros _ _; left]; naive_solver.
Qed.

Lemma start_reserveSlots gen u g :
  Game_start (Game_new gen u) = Some g →
  Forall (λ c, isValid c = false) (reserveSlots g).
Proof.
  intros [_ ->]%start_from_effect. simpl. by repeat constructor.
Qed.

Lemma exec_reserveSlots_length op g g' :
  exec op g = Some (true, g') →
  length (reserveSlots g') = length (reserveSlots g).
Proof.
  intros Hex%exec_effect.
  destruct op as [|fromCol toCol count|toCol|slot|fromCol slot|u slot toCol|gen];
    simpl in Hex.
  1-3, 7: by destruct Hex as [_ ->].
  - destruct Hex as (r & c & _ & _ & _ & _ & _ & _ & ->). apply length_insert.
  - destruct Hex as (r & col & c & _ & _ & _ & _ & _ & _ & _ & ->).
    apply length_insert.
  - destruct Hex as (c & _ & _ & _ & ->). apply length_insert.
Qed.

Lemma suits_in_place g (i : nat) c :
  reachable_from_occupied g →
  reserveSlots g !! i = Some c → isValid c = true → getSuit c = Z.of_nat i.
Proof.
  intros Hg. revert i c.
  induction Hg as [gen u g Hstart|op g b g' _ IH Hocc Hex]; intros i c' Hc' Hv'.
  - apply start_reserveSlots in Hstart.
    eapply Forall_lookup_1 in Hstart; [|done]. simpl in Hstart. congruence.
  - destruct b; [|apply exec_false in Hex as ->; by apply IH].
    assert (is_Some (reserveSlots g !! i)) as [c Hc].
    { apply lookup_lt_is_Some. rewrite <- (exec_reserveSlots_length _ _ _ Hex).
      by eapply lookup_lt_Some. }
    destruct (reserve_slot_step op g g' i c c' Hex Hc Hc') as [Hval Hemp].
    destruct (isValid c) eqn:Hv.
    + destruct (Hval eq_refl) as [(_ & Hs & _)|[(_ & Hlow)|(_ & _ & ->)]].
      * done.
      * destruct (getRank c =? Ace); [congruence|].
        destruct Hlow as (_ & -> & _). by apply IH.
      * by apply IH.
    + destruct Hemp as [->|(_ & Hs & _)]; [done| |congruence|done].
      intros Htake. apply Hocc.
      destruct op; try done. simpl in Htake |- *. subst.
      exists c. rewrite reserveSlot_nonneg, Nat2Z.id by lia. done.
Qed.

(** C5. What a successful operation does to reserve slot [i].  An occupant
    stays, or gives way to a card of suit [i] and greater rank put on it, or
    is taken and leaves the card of its suit one rank down (nothing when it
    was an Ace).  An empty slot stays empty or receives an Ace of suit [i],
    unless the operation takes the sentinel from it.  As long as no card is
    taken from an empty slot, a valid card on slot [i] has suit [i]. *)
Theorem reserve_slot_after_operation :
  (∀ (op : Op) (g g' : Game) (i : nat) (c c' : Card),
     exec op g = Some (true, g') →
     reserveSlots g !! i = Some c →
     reserveSlots g' !! i = Some c' →
     (isValid c = true →
        (puts_on op i ∧ getSuit c' = Z.of_nat i ∧ getRank c < getRank c')
        ∨ (takes_from op i
           ∧ if getRank c =? Ace then isValid c' = false
             else isValid c' = true ∧ getSuit c' = getSuit c
                  ∧ getRank c' = to_uchar (getRank c - 1))
        ∨ (¬ puts_on op i ∧ ¬ takes_from op i ∧ c' = c))
     ∧ (isValid c = false → ¬ takes_from op i →
          c' = c ∨ (puts_on op i ∧ getSuit c' = Z.of_nat i ∧ getRank c' = Ace)))
  ∧ (∀ (g : Game) (i : nat) (c : Card),
       reachable_from_occupied g →
       reserveSlots g !! i = Some c → isValid c = true →
       getSuit c = Z.of_nat i).
Proof.
  split.
  - apply reserve_slot_step.
  - intros g i c. apply suits_in_place.
Qed.

Lemma reserve_slot_after_operation_witness :
  getSuit threeOfHearts = 0 ∧ getRank aceOfHearts < getRank threeOfHearts.
Proof.
  destruct reserve_slot_after_operation as [Hstep _].
  destruct (Hstep (OpPileToReserve 0) gap_position gap_filled
              0%nat aceOfHearts threeOfHearts eq_refl eq_refl eq_refl)
    as [Hocc _].
  destruct (Hocc eq_refl) as [(_ & Hs & Hr)|[(Ht & _)|(Hp & _)]].
  - exact (conj Hs Hr).
  - destruct Ht.
  - destruct (Hp eq_refl).
Defined.

(** The Three of Diamonds goes from reserve slot 1 onto the Four of Spades:
    the slot stays occupied and its occupant's rank falls from 3 to 2. *)
Lemma reserve_rank_falls :
  ∃ g0 g g' c c',
    unshuffled_start = Some g0
    ∧ run three_diamonds g0 = Some g
    ∧ reachable g
    ∧ exec (OpReserveToColumn blank 1 3) g = Some (true, g')
    ∧ reserveSlot g 1 = Some c ∧ reserveSlot g' 1 = Some c'
    ∧ isValid c = true ∧ isValid c' = true
    ∧ getRank c = 3 ∧ getRank c' = 2.
Proof.
  eexists _, _, _, _, _.
  split; [vm_compute; reflexivity|].
  split; [vm_compute; reflexivity|].
  split.
  { eapply (run_reachable three_diamonds).
    - eapply (reachable_start identity_generator (λ _, blank)).
      vm_compute. reflexivity.
    - vm_compute. reflexivity. }
  repeat (split; [vm_compute; reflexivity|]). vm_compute; reflexivity.
Qed.

(** ** Reading back what was written *)

Lemma testbit_byte a n :
  0 ≤ n → Z.testbit (Z.land a 255) n = Z.testbit a n && (n <? 8).
Proof.
  intros Hn. change 255 with (Z.ones 8). rewrite Z.land_spec.
  destruct (n <? 8) eqn:E.
  - apply Z.ltb_lt in E. by rewrite Z.ones_spec_low by lia.
  - apply Z.ltb_ge in E. by rewrite Z.ones_spec_high by lia.
Qed.

Lemma testbit_shifted_byte v k n :
  0 ≤ k → 0 ≤ n →
  Z.testbit (Z.shiftl (Z.land (Z.shiftr v k) 255) k) n
  = Z.testbit v n && (k <=? n) && (n <? k + 8).
Proof.
  intros Hk Hn. rewrite Z.shiftl_spec by done.
  destruct (k <=? n) eqn:E.
  - apply Z.leb_le in E. rewrite testbit_byte, Z.shiftr_spec by lia.
    replace (n - k + k) with n by lia. rewrite andb_true_r. f_equal.
    apply eq_true_iff_eq. rewrite !Z.ltb_lt. lia.
  - apply Z.leb_gt in E. rewrite Z.testbit_neg_r by lia.
    by rewrite andb_false_r.
Qed.

Lemma readInt_bits v :
  Z.lor (Z.lor (Z.lor (Z.land v 255)
                      (Z.shiftl (Z.land (Z.shiftr v 8) 255) 8))
               (Z.shiftl (Z.land (Z.shiftr v 16) 255) 16))
        (Z.shiftl (Z.land (Z.shiftr v 24) 255) 24)
  = v `mod` 2 ^ 32.
Proof.
  apply Z.bits_inj'. intros n Hn.
  rewrite !Z.lor_spec, testbit_byte, !testbit_shifted_byte by lia.
  destruct (Z.testbit v n) eqn:Hv; simpl.
  - destruct (decide (n < 32)) as [Hlt|Hge].
    + rewrite Z.mod_pow2_bits_low, Hv by lia.
      apply orb_true_iff.
      destruct (decide (n < 8)); [left; apply orb_true_iff; left;
        apply orb_true_iff; left; by apply Z.ltb_lt|].
      destruct (decide (n < 16)); [left; apply orb_true_iff; left;
        apply orb_true_iff; right; apply andb_true_iff; split;
        [apply Z.leb_le | apply Z.ltb_lt]; lia|].
      destruct (decide (n < 24)); [left; apply orb_true_iff; right;
        apply andb_true_iff; split; [apply Z.leb_le | apply Z.ltb_lt]; lia|].
      right. apply andb_true_iff; split; [apply Z.leb_le | apply Z.ltb_lt]; lia.
    + rewrite Z.mod_pow2_bits_high by lia.
      rewrite (proj2 (Z.ltb_ge n 8)), (proj2 (Z.ltb_ge n (8 + 8))),
        (proj2 (Z.ltb_ge n (16 + 8))), (proj2 (Z.ltb_ge n (24 + 8))) by lia.
      by rewrite !andb_false_r.
  - destruct (decide (n < 32)) as [Hlt|Hge].
    + by rewrite Z.mod_pow2_bits_low, Hv by lia.
    + by rewrite Z.mod_pow2_bits_high by lia.
Qed.

Lemma to_int32_mod v :
  - 2 ^ 31 ≤ v < 2 ^ 31 → to_int32 (v `mod` 2 ^ 32) = v.
Proof.
  intros Hv. unfold to_int32. rewrite Zplus_mod_idemp_l.
  rewrite Z.mod_small; lia.
Qed.

Lemma to_int32_small v : - 2 ^ 31 ≤ v < 2 ^ 31 → to_int32 v = v.
Proof. intros Hv. unfold to_int32. rewrite Z.mod_small; lia. Qed.

Lemma readInt_writeInt v r :
  - 2 ^ 31 ≤ v < 2 ^ 31 → readInt (writeInt_buffer v ++ r) = (v, r).
Proof.
  intros Hv. unfold writeInt_buffer, readInt. simpl.
  by rewrite readInt_bits, to_int32_mod.
Qed.

Lemma readBool_writeBool (b : bool) r :
  readBool ((if b then 1 else 0) :: r) = (if b then 1 else 0, r).
Proof. by destruct b. Qed.

Lemma readCard_writeCard c r :
  Card_wf c → readCard (card_image c ++ r) = (c, r).
Proof.
  intros [Hs Hr]. destruct c as [s k f v]. unfold card_image, readCard.
  cbn [suit rank facingUp valid] in *.
  rewrite <- !(assoc_L (++)), readInt_writeInt by lia.
  rewrite readInt_writeInt by lia.
  rewrite !to_uchar_small by done. by destruct f, v.
Qed.

Lemma readCards_writeCards cards r :
  Forall Card_wf cards →
  readCards (length cards) (cards_image cards ++ r) = (cards, r).
Proof.
  unfold cards_image. induction 1 as [|c cards Hc _ IH]; [done|].
  change (mjoin (card_image <$> c :: cards))
    with (card_image c ++ mjoin (card_image <$> cards)).
  cbn [length readCards].
  rewrite <- (assoc_L (++)), readCard_writeCard by done. by rewrite IH.
Qed.

Lemma vector_size_length {A} (l : list A) :
  vector_size (Z.of_nat (length l)) = Some (length l).
Proof.
  unfold vector_size. rewrite (proj2 (Z.ltb_ge _ 0)) by lia.
  by rewrite Nat2Z.id.
Qed.

Lemma readInt_count cards r :
  fits_int cards →
  readInt (counted_image cards ++ r)
  = (Z.of_nat (length cards), cards_image cards ++ r).
Proof.
  intros Hfit. unfold counted_image, fits_int in *.
  rewrite to_int32_small, <- (assoc_L (++)), readInt_writeInt by lia. done.
Qed.

Lemma readColumns_writeColumns cols (i : nat) r h :
  Forall (λ col, fits_int col ∧ Forall Card_wf col) cols →
  (i + length cols ≤ length (columns h))%nat →
  readColumns (length cols) (Z.of_nat i) (mjoin (counted_image <$> cols) ++ r) h
  = Some (set_columns (take i (columns h) ++ cols
                       ++ drop (i + length cols) (columns h)) h, r).
Proof.
  intros Hcols. revert i h.
  induction Hcols as [|col cols [Hfit Hwf] _ IH]; intros i h Hlen.
  - simpl. rewrite Nat.add_0_r, take_drop. by destruct h.
  - change (mjoin (counted_image <$> col :: cols))
      with (counted_image col ++ mjoin (counted_image <$> cols)).
    cbn [length readColumns].
    rewrite <- (assoc_L (++)), readInt_count by done.
    rewrite vector_size_length. cbn [mbind option_bind].
    rewrite readCards_writeCards by done.
    simpl in Hlen.
    assert (is_Some (columns h !! i)) as [old Hold]
      by (apply lookup_lt_is_Some; lia).
    rewrite column_nonneg, Nat2Z.id, Hold by lia. cbn [mbind option_bind].
    replace (Z.of_nat i + 1) with (Z.of_nat (S i)) by lia.
    rewrite IH by (simpl; rewrite length_insert; lia).
    f_equal. f_equal. unfold set_column, set_columns. simpl.
    rewrite Nat2Z.id. f_equal.
    rewrite take_insert_lt, (take_S_r _ _ _ Hold) by lia.
    rewrite insert_app_r_alt by (rewrite length_take; lia).
    rewrite length_take.
    replace (i - i `min` length (columns h))%nat with 0%nat by lia.
    rewrite drop_insert_lt by lia. simpl.
    rewrite <- !(assoc_L (++)). simpl. by rewrite Nat.add_succ_r.
Qed.

Lemma readReserves_writeCards cards (i : nat) r h :
  Forall Card_wf cards →
  (i + length cards ≤ length (reserveSlots h))%nat →
  readReserves (length cards) (Z.of_nat i) (cards_image cards ++ r) h
  = Some (set_reserveSlots (take i (reserveSlots h) ++ cards
                            ++ drop (i + length cards) (reserveSlots h)) h, r).
Proof.
  intros Hcards. revert i h.
  induction Hcards as [|c cards Hwf _ IH]; intros i h Hlen.
  - simpl. rewrite Nat.add_0_r, take_drop. by destruct h.
  - change (cards_image (c :: cards)) with (card_image c ++ cards_image cards).
    cbn [length readReserves]. simpl in Hlen.
    assert (is_Some (reserveSlots h !! i)) as [old Hold]
      by (apply lookup_lt_is_Some; lia).
    rewrite reserveSlot_nonneg, Nat2Z.id, Hold by lia. cbn [mbind option_bind].
    rewrite <- (assoc_L (++)), readCard_writeCard by done.
    replace (Z.of_nat i + 1) with (Z.of_nat (S i)) by lia.
    rewrite IH by (simpl; rewrite length_insert; lia).
    f_equal. f_equal. unfold set_reserveSlot, set_reserveSlots. simpl.
    rewrite Nat2Z.id. f_equal.
    rewrite take_insert_lt, (take_S_r _ _ _ Hold) by lia.
    rewrite insert_app_r_alt by (rewrite length_take; lia).
    rewrite length_take.
    replace (i - i `min` length (reserveSlots h))%nat with 0%nat by lia.
    rewrite drop_insert_lt by lia. simpl.
    rewrite <- !(assoc_L (++)). simpl. by rewrite Nat.add_succ_r.
Qed.

Lemma read_save_image (m : Storage) (g h : Game) :
  Game_wf g → length (columns h) = 7%nat → length (reserveSlots h) = 4%nat →
  let '(verify, r) := Reader_read (verify0 m) 9 (save_image g) in
  take 9 verify = magicNumber
  ∧ readFileGame_contents m r h
    = Some (true,
            mkGame (((λ i, Card_default (deckCards0 m i))
                       <$> seq 0 (length (deck g))) ++ deck g)
                   (currentCard h) (columns g) (pile g) (reserveSlots g)).
Proof.
  intros (Hcols & Hres & Hdfit & Hdwf & Hcwf & Hpfit & Hpwf & Hrwf) Hhc Hhr.
  unfold save_image, Reader_read, readFileGame_contents.
  assert (length magicNumber = 9%nat) as Hmagic by reflexivity.
  rewrite (proj2 (Nat.leb_le 9 _)) by (rewrite length_app; lia).
  rewrite take_app_length', drop_app_length' by done.
  rewrite take_app_length' by done. split; [done|].
  rewrite !firstn_all2 by lia.
  rewrite readInt_count, vector_size_length by done. cbn [mbind option_bind].
  rewrite readCards_writeCards by done.
  replace (Z.to_nat columnsSize) with (length (columns g))
    by (by rewrite Hcols).
  change 0 with (Z.of_nat 0).
  rewrite readColumns_writeColumns by (done || simpl; lia).
  cbn [mbind option_bind].
  rewrite readInt_count, vector_size_length by done. cbn [mbind option_bind].
  rewrite readCards_writeCards by done.
  replace (readReserves 4) with (readReserves (length (reserveSlots g)))
    by (by rewrite Hres).
  rewrite <- (app_nil_r (cards_image (reserveSlots g))).
  rewrite readReserves_writeCards by (done || simpl; lia).
  cbn [mbind option_bind]. simpl.
  rewrite !drop_ge by lia. by rewrite !app_nil_r.
Qed.

(** C1. Saving a game and loading the file into another game brings back
    the columns, the pile and the reserve slots, but not the deck:
    [readFileGame] constructs [deckCards] with [deckSize] elements and then
    appends the cards it reads, so the deck comes back behind as many
    default-constructed cards as it has cards. *)
Theorem save_then_read (m : Storage) (name : string) (g h : Game)
    (fs : FileSystem) :
  let filename := (name +:+ ".sot")%string in
  Game_wf g → length (columns h) = 7%nat → length (reserveSlots h) = 4%nat →
  opens_for_output fs filename = true → opens_for_input fs filename = true →
  ∃ h', Game_readFileGame m name h (Game_saveFileGame name g fs).2
          = (Some (true, h'), (Game_saveFileGame name g fs).2)
        ∧ columns h' = columns g
        ∧ pile h' = pile g
        ∧ reserveSlots h' = reserveSlots g
        ∧ deck h' = ((λ i, Card_default (deckCards0 m i))
                       <$> seq 0 (length (deck g))) ++ deck g.
Proof.
  intros filename Hg Hhc Hhr Hout Hin.
  rewrite saveFileGame_writes by done. fold filename.
  set (fs' := mkFileSystem _ _ _).
  assert (files fs' !! filename = Some (save_image g)) as Hfile
    by apply lookup_insert_eq.
  assert (fileExists fs' filename = true) as Hexists.
  { unfold fileExists. apply bool_decide_eq_true_2. by rewrite Hfile. }
  unfold Game_readFileGame. fold filename. cbn [snd].
  rewrite Hexists. cbn [negb andb]. unfold Reader. rewrite Hfile.
  change (opens_for_input fs' filename) with (opens_for_input fs filename).
  rewrite Hin. cbn [negb].
  pose proof (read_save_image m g h Hg Hhc Hhr) as Hread.
  destruct (Reader_read (verify0 m) 9 (save_image g)) as [verify r].
  destruct Hread as [Hmagic Hread].
  rewrite bool_decide_eq_true_2 by done. cbn [negb].
  rewrite Hread. eexists. split; [done|]. done.
Qed.

Lemma one_card_deck_wf : Game_wf one_card_deck.
Proof.
  unfold Game_wf, one_card_deck.
  cbn [deck columns pile reserveSlots replicate].
  assert (Card_wf blank) as Hblank by (by vm_compute).
  assert (Card_wf aceOfHearts) as Hace by (by vm_compute).
  assert (fits_int []) as Hnil by (by vm_compute).
  split; [reflexivity|]. split; [reflexivity|].
  split; [by vm_compute|].
  split; [by repeat apply Forall_cons_2|].
  split; [by repeat apply Forall_cons_2|].
  split; [done|]. split; [done|].
  by repeat apply Forall_cons_2.
Qed.

Lemma save_then_read_witness :
  ∃ h', (Game_readFileGame blank_storage "latest" sentinel_position
           (Game_saveFileGame "latest" one_card_deck open_disk).2).1
          = Some (true, h')
        ∧ deck h' = [blank; aceOfHearts].
Proof.
  destruct (save_then_read blank_storage "latest" one_card_deck
              sentinel_position open_disk one_card_deck_wf
              eq_refl eq_refl eq_refl eq_refl)
    as (h' & Hread & _ & _ & _ & Hdeck).
  exists h'. rewrite Hread. split; [reflexivity | exact Hdeck].
Defined.

(** * Further properties of the engine *)

(** ** Dealing *)

Lemma canonical_cards_face_down :
  Forall (λ c, facingUp c = false) canonical_cards.
Proof.
  apply Forall_forall. intros c Hc. vm_compute in Hc.
  repeat (apply elem_of_cons in Hc as [->|Hc]; [done|]).
  by apply elem_of_nil in Hc.
Qed.

Lemma start_state gen u :
  ∃ g, Game_start (Game_new gen u) = Some g
       ∧ length (deck g) = 24%nat
       ∧ Forall (λ c, facingUp c = false) (deck g)
       ∧ length (columns g) = 7%nat
       ∧ (∀ (i : nat) col,
            columns g !! i = Some col →
            ∃ down top, col = down ++ [top] ∧ length down = i
                        ∧ Forall (λ c, facingUp c = false) down
                        ∧ facingUp top = true)
       ∧ pile g = []
       ∧ length (reserveSlots g) = 4%nat
       ∧ Forall (λ c, isValid c = false) (reserveSlots g).
Proof.
  unfold Game_new, Deck_reset, Deck_shuffle.
  pose proof (Permutation_length (permute_perm gen canonical_cards)) as Hlen.
  change (length canonical_cards) with 52%nat in Hlen.
  assert (Forall (λ c, facingUp c = false) (permute gen canonical_cards)) as Hdown.
  { rewrite (permute_perm gen). apply canonical_cards_face_down. }
  destruct (permute gen canonical_cards) as [|c l]; [discriminate Hlen|].
  do 51 (destruct l as [|? l]; [discriminate Hlen|]).
  destruct l; [|discriminate Hlen]. clear Hlen.
  repeat (apply Forall_cons in Hdown as [? Hdown]). clear Hdown.
  eexists. split; [vm_compute; reflexivity|].
  cbn [deck columns pile reserveSlots].
  split; [reflexivity|]. split; [by repeat constructor|].
  split; [reflexivity|]. split.
  - assert (∀ c : Card, facingUp c = false → negb (facingUp c) = true) as Hflip
      by (by intros ? ->).
    intros i col Hi.
    do 7 (destruct i as [|i];
          [injection Hi as <-;
           eexists (take _ _), _; split; [apply last_take; reflexivity|];
           split; [reflexivity|];
           split; [simpl; by repeat constructor | by apply Hflip]|]).
    done.
  - split; [reflexivity|]. split; [reflexivity|]. by repeat constructor.
Qed.

(** X1. [start()] on a newly constructed game always returns.  It leaves 24
    face-down cards in the deck and [i + 1] cards on column [i], the top one
    face-up and the others face-down; the pile is empty, the reserve slots
    hold no card, and the fifty-two pairs are all there, each once. *)
Theorem start_deals_the_tableau (gen : Generator) (u : nat → Card) :
  ∃ g, Game_start (Game_new gen u) = Some g
       ∧ length (deck g) = 24%nat
       ∧ Forall (λ c, facingUp c = false) (deck g)
       ∧ length (columns g) = 7%nat
       ∧ (∀ (i : nat) col,
            columns g !! i = Some col →
            ∃ down top, col = down ++ [top] ∧ length down = i
                        ∧ Forall (λ c, facingUp c = false) down
                        ∧ facingUp top = true)
       ∧ pile g = []
       ∧ Forall (λ c, isValid c = false) (reserveSlots g)
       ∧ pairs_in_play g ≡ₚ canonical_pairs.
Proof.
  destruct (start_state gen u)
    as (g & Hstart & Hdeck & Hdown & Hcols & Hcol & Hpile & Hlen & Hres).
  exists g. repeat (split; [done|]).
  destruct (conserved_start gen u g Hstart) as (Hpairs & _ & _).
  rewrite <- Hpairs. unfold pairs_in_play, pairs_with_foundations.
  assert (filter (λ c, isValid c = true) (reserveSlots g) = []) as ->.
  { clear -Hres. induction Hres as [|c l Hc _ IH]; [done|].
    rewrite filter_cons, decide_False by congruence. done. }
  assert (mjoin (foundation_pairs <$> reserveSlots g) = []) as ->.
  { clear -Hres. induction Hres as [|c l Hc _ IH]; [done|].
    rewrite fmap_cons.
    change (mjoin (foundation_pairs c :: (foundation_pairs <$> l)))
      with (foundation_pairs c ++ mjoin (foundation_pairs <$> l)).
    by rewrite foundation_pairs_empty, IH. }
  by rewrite !app_nil_r.
Qed.

(** ** Game::reset *)

Lemma clear_columns_spec n (i : nat) g :
  (i + n = length (columns g))%nat →
  clear_columns n (Z.of_nat i) g
  = set_columns (take i (columns g) ++ replicate n []) g.
Proof.
  revert i g. induction n as [|n IH]; intros i g Hlen.
  - simpl. rewrite app_nil_r, firstn_all2 by lia. by destruct g.
  - cbn [clear_columns]. replace (Z.of_nat i + 1) with (Z.of_nat (S i)) by lia.
    rewrite IH by (simpl; rewrite length_insert; lia).
    unfold set_column, set_columns. simpl. rewrite Nat2Z.id. f_equal.
    assert (is_Some (columns g !! i)) as [old Hold]
      by (apply lookup_lt_is_Some; lia).
    rewrite take_insert_lt, (take_S_r _ _ _ Hold) by lia.
    rewrite insert_app_r_alt by (rewrite length_take; lia).
    rewrite length_take.
    replace (i - i `min` length (columns g))%nat with 0%nat by lia.
    simpl. by rewrite <- (assoc_L (++)).
Qed.

Lemma clear_reserveSlots_spec n (i : nat) u g :
  (i + n = length (reserveSlots g))%nat →
  clear_reserveSlots n (Z.of_nat i) u g
  = set_reserveSlots (take i (reserveSlots g)
                      ++ ((λ j, Card_default (u j)) <$> seq i n)) g.
Proof.
  revert i g. induction n as [|n IH]; intros i g Hlen.
  - simpl. rewrite app_nil_r, firstn_all2 by lia. by destruct g.
  - cbn [clear_reserveSlots].
    replace (Z.of_nat i + 1) with (Z.of_nat (S i)) by lia.
    rewrite IH by (simpl; rewrite length_insert; lia).
    unfold set_reserveSlot, set_reserveSlots. simpl. rewrite Nat2Z.id. f_equal.
    assert (is_Some (reserveSlots g !! i)) as [old Hold]
      by (apply lookup_lt_is_Some; lia).
    rewrite take_insert_lt, (take_S_r _ _ _ Hold) by lia.
    rewrite insert_app_r_alt by (rewrite length_take; lia).
    rewrite length_take.
    replace (i - i `min` length (reserveSlots g))%nat with 0%nat by lia.
    simpl. by rewrite <- (assoc_L (++)).
Qed.

(** X2. [reset()] forgets the game it is called on: whatever the state (of
    seven columns and four reserve slots), it returns what [start()] returns
    on a newly constructed game. *)
Theorem reset_is_a_new_game (gen : Generator) (u : nat → Card) (g : Game) :
  length (columns g) = 7%nat → length (reserveSlots g) = 4%nat →
  Game_reset gen u g = Game_start (Game_new gen u).
Proof.
  intros Hc Hr. unfold Game_reset. f_equal.
  change (Z.to_nat columnsSize) with 7%nat.
  change (Z.to_nat reserveSlotSize) with 4%nat.
  change 0 with (Z.of_nat 0).
  rewrite (clear_columns_spec 7 0) by (simpl; lia).
  rewrite (clear_reserveSlots_spec 4 0) by (simpl; lia).
  reflexivity.
Qed.

Lemma reset_is_a_new_game_witness :
  Game_reset identity_generator (λ _, blank) won_position
  = Game_start (Game_new identity_generator (λ _, blank)).
Proof.
  apply (reset_is_a_new_game identity_generator (λ _, blank) won_position);
    reflexivity.
Defined.

(** ** The operations on a game in progress *)

(** X3. An operation that returns [false] has changed nothing: not the deck,
    the columns, the pile, the reserve slots or the current card. *)
Theorem failed_operation_changes_nothing (op : Op) (g g' : Game) :
  exec op g = Some (false, g') → g' = g.
Proof. apply exec_false. Qed.

Lemma failed_operation_changes_nothing_witness :
  exec (OpMoveCard 1 0 3) landing_position = Some (false, landing_position).
Proof.
  assert (∃ g', exec (OpMoveCard 1 0 3) landing_position = Some (false, g'))
    as [g' Hg'] by (eexists; reflexivity).
  rewrite Hg'.
  by rewrite (failed_operation_changes_nothing _ _ _ Hg').
Defined.

Lemma exec_shape op g b g' :
  exec op g = Some (b, g') →
  length (columns g') = length (columns g)
  ∧ length (reserveSlots g') = length (reserveSlots g).
Proof.
  destruct op; simpl; unfold Game_drawCard, Game_moveCard,
    Game_moveFromPileToColumn, Game_moveFromPileToReserve,
    Game_moveFromColumnToReserve, Game_moveFromReserveToColumn,
    handleCommand_przetasuj, Deck_reShuffle; intros H;
    repeat (case_match || simplify_option_eq);
    by rewrite ?length_insert.
Qed.

Lemma reachable_shape g :
  reachable g →
  length (columns g) = 7%nat ∧ length (reserveSlots g) = 4%nat.
Proof.
  induction 1 as [gen u g Hstart|op g b g' _ IH Hex].
  - destruct (start_state gen u) as (g0 & Hg0 & _ & _ & Hc & _ & _ & Hr & _).
    by simplify_eq.
  - apply exec_shape in Hex as [-> ->]. done.
Qed.

Lemma exec_returns op g :
  length (columns g) = 7%nat → length (reserveSlots g) = 4%nat →
  in_range op → is_Some (exec op g).
Proof.
  intros Hc Hr.
  assert (∀ i, 0 ≤ i < columnsSize → is_Some (column g i)) as Hcol.
  { intros i Hi. rewrite column_nonneg by lia.
    apply lookup_lt_is_Some. unfold columnsSize in Hi. lia. }
  assert (∀ i, 0 ≤ i < reserveSlotSize → is_Some (reserveSlot g i)) as Hres.
  { intros i Hi. rewrite reserveSlot_nonneg by lia.
    apply lookup_lt_is_Some. unfold reserveSlotSize in Hi. lia. }
  destruct op as [|fromCol toCol count|toCol|slot|fromCol slot|u slot toCol|gen];
    simpl.
  - unfold Game_drawCard. destruct (Deck_isEmpty (deck g)) eqn:He; [done|].
    unfold Deck_drawCard. rewrite He. simpl.
    assert (is_Some (deck g !! (length (deck g) - 1)%nat)) as [c ->]; [|done].
    apply lookup_lt_is_Some. unfold Deck_isEmpty in He.
    apply Nat.eqb_neq in He. lia.
  - intros [Hf Ht].
    destruct (Hcol _ Hf) as [from Hfrom]. destruct (Hcol _ Ht) as [to Hto].
    destruct (decide (0 < count ≤ Z.of_nat (length from))) as [Hcount|Hcount].
    + assert (is_Some (from !! Z.to_nat (Z.of_nat (length from) - count)))
        as [startCard Hs] by (apply lookup_lt_is_Some; lia).
      destruct (isFacingUp startCard) eqn:Hup.
      * destruct (landing_rule_dec to startCard) as [Hl|Hl].
        -- destruct (moveCard_lands g toCol to Ht Hto fromCol count from
                       startCard Hf Hfrom Hcount Hs Hup Hl) as [g' ->]. done.
        -- by erewrite moveCard_rejects.
      * unfold Game_moveCard. rewrite !ASSERT_index by done. simpl.
        rewrite Hfrom, Hto. simpl.
        replace (count <=? 0) with false by (symmetry; apply Z.leb_gt; lia).
        replace (count >? Z.of_nat (length from)) with false
          by (symmetry; rewrite Z.gtb_ltb; apply Z.ltb_ge; lia).
        simpl. rewrite Hs. simpl. by rewrite Hup.
    + unfold Game_moveCard. rewrite !ASSERT_index by done. simpl.
      rewrite Hfrom, Hto. simpl.
      replace ((count <=? 0) || (count >? Z.of_nat (length from))) with true;
        [done|].
      symmetry. apply orb_true_iff. rewrite Z.leb_le, Z.gtb_ltb, Z.ltb_lt. lia.
  - intros Ht. destruct (Hcol _ Ht) as [to Hto].
    unfold Game_moveFromPileToColumn. rewrite ASSERT_index by done. simpl.
    destruct (last (pile g)); [|done]. rewrite Hto. simpl. by case_match.
  - intros Hs. destruct (Hres _ Hs) as [r Hr'].
    unfold Game_moveFromPileToReserve. rewrite ASSERT_index by done. simpl.
    destruct (last (pile g)); [|done]. rewrite Hr'. simpl. by case_match.
  - intros [Hf Hs]. destruct (Hcol _ Hf) as [col Hcol'].
    destruct (Hres _ Hs) as [r Hr'].
    unfold Game_moveFromColumnToReserve. rewrite !ASSERT_index by done. simpl.
    rewrite Hcol'. simpl. destruct (last col); [|done].
    destruct (negb _); [done|]. rewrite Hr'. simpl. by case_match.
  - intros [Hs Ht]. destruct (Hcol _ Ht) as [col Hcol'].
    destruct (Hres _ Hs) as [r Hr'].
    destruct (landing_rule_dec col r) as [Hl|Hl].
    + by erewrite moveFromReserveToColumn_lands.
    + by erewrite moveFromReserveToColumn_rejects.
  - intros _. unfold handleCommand_przetasuj, Deck_reShuffle.
    destruct (Deck_isEmpty (deck g)); done.
Qed.

(** X4. In every state reached from [start()], the game has its seven
    columns and four reserve slots, and an operation called with column and
    slot numbers in range returns: no assertion of the engine fails and no
    index is out of bounds. *)
Theorem operations_in_range_return (g : Game) (op : Op) :
  reachable g → in_range op →
  length (columns g) = 7%nat ∧ length (reserveSlots g) = 4%nat
  ∧ ∃ b g', exec op g = Some (b, g').
Proof.
  intros [Hc Hr]%reachable_shape Hop. split; [done|]. split; [done|].
  destruct (exec_returns op g Hc Hr Hop) as [[b g'] ->]. eauto.
Qed.

Lemma operations_in_range_return_witness :
  ∃ g, unshuffled_start = Some g
       ∧ ∃ b g', exec (OpMoveCard 1 0 1) g = Some (b, g').
Proof.
  eexists. split; [vm_compute; reflexivity|].
  eapply (operations_in_range_return _ (OpMoveCard 1 0 1)).
  - eapply (reachable_start identity_generator (λ _, blank)).
    vm_compute. reflexivity.
  - simpl. unfold columnsSize. lia.
Defined.

(** ** Conservation when the reserves are not used *)

Lemma filter_valid_nil (rs : list Card) :
  Forall (λ c, isValid c = false) rs →
  filter (λ c, isValid c = true) rs = [].
Proof.
  induction 1 as [|c l Hc _ IH]; [done|].
  by rewrite filter_cons, decide_False by congruence.
Qed.

Lemma without_reserves_invariant g :
  reachable_without_reserves g →
  pair_of <$> cards_out g ≡ₚ canonical_pairs
  ∧ Forall (λ c, isValid c = false) (reserveSlots g).
Proof.
  induction 1 as [gen u g Hstart|op g b g' _ [IHp IHr] Hop Hex].
  - pose proof (start_reserveSlots gen u g Hstart) as Hres.
    split; [|done].
    destruct (conserved_start gen u g Hstart) as (Hp & _ & _).
    unfold pairs_with_foundations in Hp.
    destruct (start_from_effect _ _ _ _ Hstart) as [_ Hrs].
    rewrite Hrs in Hp. simpl in Hp. by rewrite app_nil_r in Hp.
  - destruct b; [|by apply exec_false in Hex as ->].
    apply exec_effect in Hex. destruct op; try done; simpl in Hex;
      destruct Hex as [Hsame ->]; (split; [|done]);
      by rewrite (same_cards_pairs _ _ Hsame).
Qed.

(** X5. Moves among the deck, the pile and the columns neither lose nor
    duplicate a card: in every state reached from [start()] by [drawCard],
    [moveCard], [moveFromPileToColumn] and the reshuffle, the (suit, rank)
    pairs of the deck, the columns, the pile and the valid reserve slots are
    the fifty-two pairs of a full set, each once. *)
Theorem conservation_without_reserves (g : Game) :
  reachable_without_reserves g → pairs_in_play g ≡ₚ canonical_pairs.
Proof.
  intros [Hp Hr]%without_reserves_invariant. unfold pairs_in_play.
  by rewrite filter_valid_nil, app_nil_r.
Qed.

(** ** Which side the cards show *)

Lemma sorted_faces_take n col : sorted_faces col → sorted_faces (take n col).
Proof.
  intros (down & up & -> & Hd & Hu).
  exists (take n down), (take (n - length down) up).
  split; [apply take_app|]. split; by apply Forall_take.
Qed.

Lemma sorted_faces_run col k c :
  sorted_faces col → col !! k = Some c → facingUp c = true →
  Forall (λ c, facingUp c = true) (drop k col).
Proof.
  intros (down & up & -> & Hd & Hu) Hk Hc.
  destruct (decide (k < length down)%nat) as [Hlt|Hge].
  - rewrite lookup_app_l in Hk by done.
    eapply Forall_lookup_1 in Hd; [|done]. simpl in Hd. congruence.
  - rewrite drop_app_ge by lia. by apply Forall_drop.
Qed.

Lemma tidy_column_reveal v : sorted_faces v → tidy_column (reveal v).
Proof.
  intros Hs. split; [|intros c Hc; by apply (reveal_top v)].
  unfold reveal. destruct (last v) as [t|] eqn:Hl; [|done].
  destruct (negb (isFacingUp t)) eqn:Hup; [|done].
  apply negb_true_iff in Hup. unfold isFacingUp in Hup.
  destruct Hs as (down & up & -> & Hd & Hu).
  assert (up = []) as ->.
  { destruct up as [|x up' _] using rev_ind; [done|].
    rewrite (assoc_L (++)), last_snoc in Hl. injection Hl as <-.
    apply Forall_app in Hu as [_ Hx]. apply Forall_inv in Hx. congruence. }
  rewrite app_nil_r in *. apply last_Some in Hl as [down' ->].
  rewrite length_app. simpl.
  replace (length down' + 1 - 1)%nat with (length down' + 0)%nat by lia.
  rewrite insert_app_r. simpl.
  exists down', [flip t]. split; [done|].
  apply Forall_app in Hd as [Hd _]. split; [done|].
  constructor; [|done]. simpl. by rewrite Hup.
Qed.

Lemma tidy_column_app to moving :
  tidy_column to → Forall (λ c, facingUp c = true) moving →
  tidy_column (to ++ moving).
Proof.
  intros [(down & up & -> & Hd & Hu) Htop] Hm. split.
  - exists down, (up ++ moving). rewrite (assoc_L (++)). split; [done|].
    split; [done|]. by apply Forall_app.
  - intros c. destruct moving as [|x m _] using rev_ind.
    + rewrite app_nil_r. apply Htop.
    + rewrite (assoc_L (++)), last_snoc. intros [= <-].
      apply Forall_app in Hm as [_ Hx]. by apply Forall_inv in Hx.
Qed.

Lemma tidy_column_sorted col : tidy_column col → sorted_faces col.
Proof. by intros [? _]. Qed.

Lemma Forall_face_up_take n (l : list Card) :
  Forall (λ c, facingUp c = true) l →
  Forall (λ c, facingUp c = true) (take n l).
Proof. apply Forall_take. Qed.

Lemma faces_step op g g' :
  faces g → ¬ takes_sentinel op g → exec op g = Some (true, g') → faces g'.
Proof.
  intros (Hdeck & Hpile & Hcols & Hres) Hocc.
  destruct op as [|fromCol toCol count|toCol|slot|fromCol slot|u slot toCol|gen];
    simpl exec.
  - unfold Game_drawCard. destruct (Deck_isEmpty (deck g)); [done|].
    destruct (Deck_drawCard (deck g)) as [[card d]|] eqn:Hd; [|done]. simpl.
    intros [= <-]. apply drawCard_top in Hd. rewrite Hd in Hdeck.
    apply Forall_app in Hdeck as [Hdeck Hcard]. apply Forall_inv in Hcard.
    repeat split; simpl; try done.
    apply Forall_app. split; [done|]. constructor; [|done].
    simpl. by rewrite Hcard.
  - unfold Game_moveCard.
    destruct (ASSERT ((fromCol <? _) && _)) as [[]|] eqn:Hf; [|done].
    apply ASSERT_Some, index_check_inv in Hf. simpl.
    destruct (ASSERT ((toCol <? _) && _)) as [[]|] eqn:Ht; [|done].
    apply ASSERT_Some, index_check_inv in Ht. simpl.
    rewrite !column_nonneg by lia.
    destruct (columns g !! Z.to_nat fromCol) as [from|] eqn:Hfrom; [|done].
    simpl.
    destruct (columns g !! Z.to_nat toCol) as [to|] eqn:Hto; [|done]. simpl.
    destruct ((count <=? 0) || (count >? Z.of_nat (length from))); [done|].
    destruct (from !! _) as [startCard|] eqn:Hstart; [|done]. simpl.
    destruct (negb (isFacingUp startCard)) eqn:Hup; [done|].
    apply negb_false_iff in Hup.
    match goal with |- (if ?b then _ else _) = _ → _ => destruct b end; [done|].
    set (moving := drop _ from).
    set (g1 := set_column toCol (to ++ moving) g).
    rewrite (column_nonneg g1) by lia.
    destruct (columns g1 !! Z.to_nat fromCol) as [from1|] eqn:Hfrom1; [|done].
    simpl. rewrite column_nonneg by lia. simpl.
    rewrite list_lookup_insert_eq by (by eapply lookup_lt_Some). simpl.
    intros [= <-]. unfold g1 in *. simpl in *.
    assert (tidy_column from) as Hfromt
      by (eapply Forall_lookup_1 in Hcols; done).
    assert (tidy_column to) as Htot
      by (eapply Forall_lookup_1 in Hcols; done).
    assert (Forall tidy_column
              (<[Z.to_nat toCol:=to ++ moving]> (columns g))) as Hcols1.
    { apply Forall_insert; [done|]. apply tidy_column_app; [done|].
      eapply sorted_faces_run; [by apply tidy_column_sorted|done|done]. }
    repeat split; simpl; try done.
    rewrite list_insert_insert_eq. apply Forall_insert; [done|].
    apply tidy_column_reveal, sorted_faces_take, tidy_column_sorted.
    eapply Forall_lookup_1 in Hcols1; done.
  - unfold Game_moveFromPileToColumn.
    destruct (ASSERT _) as [[]|] eqn:Ha; [|done].
    apply ASSERT_Some, index_check_inv in Ha. simpl.
    destruct (last (pile g)) as [card|] eqn:Hp; [|done].
    rewrite column_nonneg by lia.
    destruct (columns g !! Z.to_nat toCol) as [to|] eqn:Hto; [|done]. simpl.
    match goal with |- (if ?b then _ else _) = _ → _ => destruct b end; [done|].
    intros [= <-].
    assert (facingUp card = true) as Hcard.
    { apply last_Some in Hp as [p' Hp]. rewrite Hp in Hpile.
      apply Forall_app in Hpile as [_ Hc]. by apply Forall_inv in Hc. }
    repeat split; simpl; try done.
    + by apply Forall_take.
    + apply Forall_insert; [done|]. apply tidy_column_app.
      * eapply Forall_lookup_1 in Hcols; done.
      * by constructor.
  - unfold Game_moveFromPileToReserve.
    destruct (ASSERT _) as [[]|] eqn:Ha; [|done]. simpl.
    destruct (last (pile g)) as [card|] eqn:Hp; [|done].
    destruct (reserveSlot g slot) as [r|]; [|done]. simpl.
    match goal with |- (if ?b then _ else _) = _ → _ => destruct b end; [|done].
    intros [= <-].
    assert (facingUp card = true) as Hcard.
    { apply last_Some in Hp as [p' Hp]. rewrite Hp in Hpile.
      apply Forall_app in Hpile as [_ Hc]. by apply Forall_inv in Hc. }
    repeat split; simpl; try done.
    + by apply Forall_take.
    + by apply Forall_insert.
  - unfold Game_moveFromColumnToReserve.
    destruct (ASSERT ((fromCol <? _) && _)) as [[]|] eqn:Hf; [|done].
    apply ASSERT_Some, index_check_inv in Hf. simpl.
    destruct (ASSERT ((slot <? _) && _)) as [[]|]; [|done]. simpl.
    rewrite column_nonneg by lia.
    destruct (columns g !! Z.to_nat fromCol) as [col|] eqn:Hcol; [|done].
    simpl. destruct (last col) as [card|] eqn:Hp; [|done].
    destruct (negb (isFacingUp card)) eqn:Hup; [done|].
    apply negb_false_iff in Hup.
    destruct (reserveSlot g slot) as [r|]; [|done]. simpl.
    match goal with |- (if ?b then _ else _) = _ → _ => destruct b end; [|done].
    intros [= <-]. repeat split; simpl; try done.
    + apply Forall_insert; [done|].
      apply tidy_column_reveal, sorted_faces_take, tidy_column_sorted.
      eapply Forall_lookup_1 in Hcols; done.
    + by apply Forall_insert.
  - unfold Game_moveFromReserveToColumn.
    destruct (ASSERT ((slot <? _) && _)) as [[]|] eqn:Ha; [|done].
    apply ASSERT_Some, index_check_inv in Ha. simpl.
    destruct (ASSERT ((toCol <? _) && _)) as [[]|]; [|done]. simpl.
    destruct (column g toCol) as [col|] eqn:Hcol; [|done]. simpl.
    destruct (reserveSlot g slot) as [card|] eqn:Hr; [|done]. simpl.
    match goal with |- (if ?b then _ else _) = _ → _ => destruct b end; [done|].
    assert (0 ≤ toCol) as Ht.
    { unfold column in Hcol. destruct (toCol <? 0) eqn:E; [done|].
      by apply Z.ltb_ge. }
    rewrite column_nonneg in Hcol by lia.
    assert (facingUp card = true) as Hcard.
    { rewrite reserveSlot_nonneg in Hr by lia.
      eapply Forall_lookup_1 in Hres; [|done]. apply Hres.
      destruct (isValid card) eqn:Hv; [done|].
      destruct Hocc. simpl. exists card.
      by rewrite reserveSlot_nonneg by lia. }
    assert (Forall tidy_column
              (<[Z.to_nat toCol:=col ++ [card]]> (columns g))) as Hcols1.
    { apply Forall_insert; [done|]. apply tidy_column_app.
      - eapply Forall_lookup_1 in Hcols; done.
      - by constructor. }
    destruct (negb (getRank card =? Ace)); intros [= <-];
      (repeat split; simpl; try done); by apply Forall_insert.
  - unfold handleCommand_przetasuj.
    destruct (negb (Deck_isEmpty (deck g))); [done|].
    unfold Deck_reShuffle. destruct (ASSERT _); [|done]. simpl.
    intros [= <-]. repeat split; simpl; try done.
    apply Forall_fmap. unfold Deck_shuffle. rewrite (permute_perm gen).
    eapply Forall_impl; [exact Hpile|]. intros c Hc. simpl. by rewrite Hc.
Qed.

Lemma faces_start gen u g : Game_start (Game_new gen u) = Some g → faces g.
Proof.
  intros Hstart.
  destruct (start_state gen u)
    as (g0 & Hg0 & _ & Hdown & _ & Hcol & Hpile & _ & Hres).
  simplify_eq. repeat split.
  - done.
  - by rewrite Hpile.
  - apply Forall_lookup_2. intros i col Hi.
    destruct (Hcol i col Hi) as (down & top & -> & _ & Hd & Ht). split.
    + exists down, [top]. split; [done|]. split; [done|]. by constructor.
    + intros c. rewrite last_snoc. by intros [= <-].
  - eapply Forall_impl; [exact Hres|]. simpl. intros c Hc. congruence.
Qed.

Lemma faces_reachable g : reachable_from_occupied g → faces g.
Proof.
  induction 1 as [gen u g Hstart|op g b g' _ IH Hocc Hex].
  - by eapply faces_start.
  - destruct b; [by eapply faces_step|].
    by apply exec_false in Hex as ->.
Qed.

Lemma run_from_occupied ops g g' :
  reachable_from_occupied g → Forall leaves_reserve_cards ops →
  run ops g = Some g' → reachable_from_occupied g'.
Proof.
  intros Hg Hops. revert g Hg.
  induction Hops as [|op ops Hop _ IH]; intros g Hg; simpl.
  - by intros [= <-].
  - destruct (exec op g) as [[b g1]|] eqn:Hex; [|done]. simpl.
    apply IH. eapply from_occupied_step; [done| |done].
    destruct op; simpl in *; tauto.
Qed.

(** X6. As long as no card is taken from an empty reserve slot, every state
    reached from [start()] has the deck face-down, the pile face-up, every
    column made of face-down cards under face-up cards with its top card
    face-up, and every card on a reserve slot face-up. *)
Theorem faces_in_play (g : Game) :
  reachable_from_occupied g →
  Forall (λ c, facingUp c = false) (deck g)
  ∧ Forall (λ c, facingUp c = true) (pile g)
  ∧ Forall tidy_column (columns g)
  ∧ Forall (λ c, isValid c = true → facingUp c = true) (reserveSlots g).
Proof. apply faces_reachable. Qed.

Lemma faces_in_play_witness :
  ∃ g0 g, unshuffled_start = Some g0
          ∧ run two_diamonds g0 = Some g
          ∧ Forall (λ c, facingUp c = true) (pile g).
Proof.
  eexists _, _. split; [vm_compute; reflexivity|].
  split; [vm_compute; reflexivity|].
  eapply faces_in_play, (run_from_occupied two_diamonds).
  - eapply (from_occupied_start identity_generator (λ _, blank)).
    vm_compute. reflexivity.
  - by repeat constructor.
  - vm_compute. reflexivity.
Defined.

(** X7. In such a state with the deck drawn out, the reshuffle command
    returns [true], empties the pile and fills the deck with a permutation
    of the cards of the pile, all of them face-down; columns and reserve
    slots stay as they are. *)
Theorem reshuffle_in_play (gen : Generator) (g : Game) :
  reachable_from_occupied g → Deck_isEmpty (deck g) = true →
  ∃ g', exec (OpReShuffle gen) g = Some (true, g')
        ∧ pile g' = []
        ∧ deck g' ≡ₚ flip <$> pile g
        ∧ Forall (λ c, facingUp c = false) (deck g')
        ∧ columns g' = columns g
        ∧ reserveSlots g' = reserveSlots g.
Proof.
  intros (_ & Hpile & _)%faces_reachable He. simpl.
  unfold handleCommand_przetasuj, Deck_reShuffle. rewrite He. simpl.
  eexists. split; [done|]. simpl. split; [done|].
  assert (flip <$> Deck_shuffle gen (pile g) ≡ₚ flip <$> pile g) as Hp
    by apply fmap_Permutation, permute_perm.
  split; [done|]. split; [|done]. rewrite Hp. apply Forall_fmap.
  eapply Forall_impl; [exact Hpile|]. intros c Hc. simpl. by rewrite Hc.
Qed.

Lemma reshuffle_in_play_witness :
  ∃ g0 g, unshuffled_start = Some g0
          ∧ run (replicate 24 OpDrawCard) g0 = Some g
          ∧ ∃ g', exec (OpReShuffle identity_generator) g = Some (true, g')
                  ∧ length (deck g') = 24%nat.
Proof.
  eexists _, _. split; [vm_compute; reflexivity|].
  split; [vm_compute; reflexivity|].
  edestruct (reshuffle_in_play identity_generator) as (g' & Hex & _ & Hp & _).
  - eapply (run_from_occupied (replicate 24 OpDrawCard)).
    + eapply (from_occupied_start identity_generator (λ _, blank)).
      vm_compute. reflexivity.
    + by repeat constructor.
    + vm_compute. reflexivity.
  - reflexivity.
  - exists g'. split; [exact Hex|].
    apply Permutation_length in Hp. rewrite Hp. reflexivity.
Defined.

(** ** What moveCard moves *)

(** X8. A successful [moveCard] between two different columns puts the top
    [count] cards of the source, in their order, on top of the destination,
    removes them from the source and turns the new top of the source
    face-up; no other column, and nothing else of the game, changes. *)
Theorem moveCard_moves_the_run (g g' : Game) (fromCol toCol count : Z) :
  fromCol ≠ toCol →
  Game_moveCard fromCol toCol count g = Some (true, g') →
  ∃ from to,
    column g fromCol = Some from ∧ column g toCol = Some to
    ∧ 0 < count ≤ Z.of_nat (length from)
    ∧ columns g' =
        <[Z.to_nat fromCol :=
            reveal (take (Z.to_nat (Z.of_nat (length from) - count)) from)]>
          (<[Z.to_nat toCol :=
               to ++ drop (Z.to_nat (Z.of_nat (length from) - count)) from]>
             (columns g))
    ∧ deck g' = deck g ∧ pile g' = pile g
    ∧ reserveSlots g' = reserveSlots g ∧ currentCard g' = currentCard g.
Proof.
  intros Hne. unfold Game_moveCard.
  destruct (ASSERT ((fromCol <? _) && _)) as [[]|] eqn:Hf; [|done].
  apply ASSERT_Some, index_check_inv in Hf. simpl.
  destruct (ASSERT ((toCol <? _) && _)) as [[]|] eqn:Ht; [|done].
  apply ASSERT_Some, index_check_inv in Ht. simpl.
  destruct (column g fromCol) as [from|] eqn:Hfrom; [|done]. simpl.
  destruct (column g toCol) as [to|] eqn:Hto; [|done]. simpl.
  destruct ((count <=? 0) || (count >? Z.of_nat (length from))) eqn:Hc; [done|].
  apply orb_false_iff in Hc as [Hc1%Z.leb_gt Hc2]. rewrite Z.gtb_ltb in Hc2.
  apply Z.ltb_ge in Hc2.
  destruct (from !! _) as [startCard|]; [|done]. simpl.
  destruct (negb (isFacingUp startCard)); [done|].
  match goal with |- (if ?b then _ else _) = _ → _ => destruct b end; [done|].
  rewrite !column_nonneg in * by lia. simpl.
  rewrite list_lookup_insert_ne, Hfrom by lia. simpl.
  rewrite column_nonneg by lia. simpl.
  rewrite list_lookup_insert_eq
    by (rewrite length_insert; by eapply lookup_lt_Some).
  simpl. intros [= <-]. exists from, to. simpl.
  rewrite list_insert_insert_eq. by repeat split.
Qed.

Lemma moveCard_moves_the_run_witness :
  ∃ g', Game_moveCard 0 1 1 reveal_position = Some (true, g')
        ∧ columns g' =
            [flip nineOfClubs] :: [sevenOfSpades; sixOfHearts] :: replicate 5 [].
Proof.
  assert (∃ g', Game_moveCard 0 1 1 reveal_position = Some (true, g'))
    as [g' Hg'] by (eexists; reflexivity).
  exists g'. split; [exact Hg'|].
  destruct (moveCard_moves_the_run _ _ 0 1 1 ltac:(done) Hg')
    as (from & to & Hfrom & Hto & _ & Hcols & _).
  cbv in Hfrom, Hto. injection Hfrom as <-. injection Hto as <-.
  exact Hcols.
Defined.

(** X9. [moveCard] from a column onto itself is rejected for a single card
    and can be accepted for a longer run; when it is accepted it returns
    [true] and the column keeps its cards, only its top card being turned
    face-up if it was not. *)
Theorem moveCard_onto_itself (g g' : Game) (col count : Z) :
  Game_moveCard col col count g = Some (true, g') →
  ∃ cards,
    column g col = Some cards ∧ 2 ≤ count ≤ Z.of_nat (length cards)
    ∧ columns g' = <[Z.to_nat col := reveal cards]> (columns g)
    ∧ deck g' = deck g ∧ pile g' = pile g
    ∧ reserveSlots g' = reserveSlots g ∧ currentCard g' = currentCard g.
Proof.
  unfold Game_moveCard.
  destruct (ASSERT ((col <? _) && _)) as [[]|] eqn:Hf; [|done].
  apply ASSERT_Some, index_check_inv in Hf. simpl.
  destruct (column g col) as [cards|] eqn:Hcol; [|done]. simpl.
  destruct ((count <=? 0) || (count >? Z.of_nat (length cards))) eqn:Hc;
    [done|].
  apply orb_false_iff in Hc as [Hc1%Z.leb_gt Hc2]. rewrite Z.gtb_ltb in Hc2.
  apply Z.ltb_ge in Hc2.
  destruct (cards !! _) as [startCard|] eqn:Hstart; [|done]. simpl.
  destruct (negb (isFacingUp startCard)); [done|].
  destruct (last cards) as [top|] eqn:Htop.
  2: { apply last_None in Htop. subst. simpl in Hc2. lia. }
  destruct (eqb (isRed top) (isRed startCard)
            || negb (getRank top =? getRank startCard + 1)) eqn:Hland; [done|].
  rewrite !column_nonneg in * by lia. simpl.
  rewrite list_lookup_insert_eq by (by eapply lookup_lt_Some). simpl.
  rewrite column_nonneg by lia. simpl.
  rewrite list_lookup_insert_eq
    by (rewrite length_insert; by eapply lookup_lt_Some).
  simpl. intros [= <-]. exists cards. simpl.
  split; [done|]. split.
  - split; [|done]. destruct (decide (count = 1)) as [->|]; [|lia].
    rewrite last_lookup in Htop.
    replace (Z.to_nat (Z.of_nat (length cards) - 1))
      with (Init.Nat.pred (length cards)) in Hstart by lia.
    assert (top = startCard) as -> by congruence.
    apply orb_false_iff in Hland as [Hland _].
    by rewrite eqb_reflx in Hland.
  - rewrite !list_insert_insert_eq. split; [|done]. do 2 f_equal.
    rewrite length_app, length_drop.
    replace (Z.to_nat (Z.of_nat (length cards +
      (length cards - Z.to_nat (Z.of_nat (length cards) - count))) - count))
      with (length cards) by lia.
    by rewrite take_app_length.
Qed.

Lemma moveCard_onto_itself_witness :
  Game_moveCard 0 0 2 self_move_position = Some (true, self_move_position).
Proof.
  assert (∃ g', Game_moveCard 0 0 2 self_move_position = Some (true, g'))
    as [g' Hg'] by (eexists; reflexivity).
  destruct (moveCard_onto_itself _ _ _ _ Hg')
    as (cards & Hcards & _ & Hcols & Hd & Hp & Hr & Hc).
  injection Hcards as <-. rewrite Hg'. do 2 f_equal.
  destruct g'. simpl in *. by subst.
Defined.

(** ** Runs of face-up cards *)

Lemma from_occupied_reachable g : reachable_from_occupied g → reachable g.
Proof.
  induction 1 as [gen u g Hstart|op g b g' _ IH _ Hex].
  - by eapply reachable_start.
  - by eapply reachable_step.
Qed.

Lemma stacked_take n col : stacked col → stacked (take n col).
Proof.
  intros Hs i a b Ha Hb. apply lookup_take_Some in Ha as [Ha _].
  apply lookup_take_Some in Hb as [Hb _]. by eapply Hs.
Qed.

Lemma stacked_drop n col : stacked col → stacked (drop n col).
Proof.
  intros Hs i a b Ha Hb. rewrite lookup_drop in Ha, Hb.
  replace (n + S i)%nat with (S (n + i)) in Hb by lia. by eapply Hs.
Qed.

Lemma stacked_app to moving :
  stacked to → stacked moving →
  (∀ top c, last to = Some top → head moving = Some c →
            getRank top = getRank c + 1 ∧ isRed top ≠ isRed c) →
  stacked (to ++ moving).
Proof.
  intros Hto Hm Hj i a b Ha Hb Hup.
  destruct (decide (S i < length to)%nat) as [Hlt|Hge].
  - rewrite lookup_app_l in Ha, Hb by lia. by eapply Hto.
  - destruct (decide (i < length to)%nat) as [Hi|Hi].
    + assert (S i = length to) as Hlen by lia.
      rewrite lookup_app_l in Ha by lia.
      rewrite lookup_app_r in Hb by lia.
      replace (S i - length to)%nat with 0%nat in Hb by lia.
      apply Hj.
      * rewrite last_lookup, <- Ha. f_equal. lia.
      * by rewrite head_lookup.
    + rewrite lookup_app_r in Ha, Hb by lia.
      replace (S i - length to)%nat with (S (i - length to)) in Hb by lia.
      by eapply Hm.
Qed.

Lemma stacked_singleton c : stacked [c].
Proof. intros i a b Ha Hb. by destruct i. Qed.

Lemma stacked_reveal v : stacked v → stacked (reveal v).
Proof.
  intros Hs. unfold reveal. destruct (last v) as [t|] eqn:Hl; [|done].
  destruct (negb (isFacingUp t)); [|done].
  intros i a b Ha Hb Hup.
  assert (S i < length v)%nat as Hlt.
  { apply lookup_lt_Some in Hb. by rewrite length_insert in Hb. }
  rewrite list_lookup_insert_ne in Ha by lia.
  destruct (decide (S i = length v - 1)%nat) as [Hi|Hi].
  - rewrite Hi, list_lookup_insert_eq in Hb by lia. injection Hb as <-.
    rewrite last_lookup in Hl.
    replace (Init.Nat.pred (length v)) with (S i) in Hl by lia.
    by destruct (Hs i a t Ha Hl Hup).
  - rewrite list_lookup_insert_ne in Hb by lia. by eapply Hs.
Qed.

Lemma landing_junction to card :
  match last to with
  | None => negb (getRank card =? King)
  | Some top => eqb (isRed top) (isRed card)
                || negb (getRank top =? getRank card + 1)
  end = false →
  ∀ top c, last to = Some top → head [card] = Some c →
           getRank top = getRank c + 1 ∧ isRed top ≠ isRed c.
Proof.
  intros Hl top c Htop [= <-]. rewrite Htop in Hl.
  apply orb_false_iff in Hl as [Hc Hr]. apply negb_false_iff, Z.eqb_eq in Hr.
  split; [done|]. intros E. by rewrite E, eqb_reflx in Hc.
Qed.

Lemma stacked_step op g g' :
  Forall stacked (columns g) → exec op g = Some (true, g') →
  Forall stacked (columns g').
Proof.
  intros Hcols.
  destruct op as [|fromCol toCol count|toCol|slot|fromCol slot|u slot toCol|gen];
    simpl exec.
  - unfold Game_drawCard. destruct (Deck_isEmpty (deck g)); [done|].
    destruct (Deck_drawCard (deck g)) as [[card d]|]; [|done]. simpl.
    by intros [= <-].
  - unfold Game_moveCard.
    destruct (ASSERT ((fromCol <? _) && _)) as [[]|] eqn:Hf; [|done].
    apply ASSERT_Some, index_check_inv in Hf. simpl.
    destruct (ASSERT ((toCol <? _) && _)) as [[]|] eqn:Ht; [|done].
    apply ASSERT_Some, index_check_inv in Ht. simpl.
    rewrite !column_nonneg by lia.
    destruct (columns g !! Z.to_nat fromCol) as [from|] eqn:Hfrom; [|done].
    simpl.
    destruct (columns g !! Z.to_nat toCol) as [to|] eqn:Hto; [|done]. simpl.
    destruct ((count <=? 0) || (count >? Z.of_nat (length from))); [done|].
    destruct (from !! _) as [startCard|] eqn:Hstart; [|done]. simpl.
    destruct (negb (isFacingUp startCard)) eqn:Hup; [done|].
    match goal with |- (if ?b then _ else _) = _ → _ =>
      destruct b eqn:Hland end; [done|].
    set (moving := drop _ from).
    set (g1 := set_column toCol (to ++ moving) g).
    rewrite (column_nonneg g1) by lia.
    destruct (columns g1 !! Z.to_nat fromCol) as [from1|] eqn:Hfrom1; [|done].
    simpl. rewrite column_nonneg by lia. simpl.
    rewrite list_lookup_insert_eq by (by eapply lookup_lt_Some). simpl.
    intros [= <-]. unfold g1 in *. simpl in *.
    assert (stacked from) as Hfroms
      by (eapply Forall_lookup_1 in Hcols; done).
    assert (stacked to) as Htos
      by (eapply Forall_lookup_1 in Hcols; done).
    assert (Forall stacked
              (<[Z.to_nat toCol:=to ++ moving]> (columns g))) as Hcols1.
    { apply Forall_insert; [done|]. apply stacked_app; [done| |].
      - by apply stacked_drop.
      - intros top c Htop Hc. eapply (landing_junction to startCard); [done..|].
        unfold moving in Hc. rewrite head_lookup, lookup_drop in Hc.
        rewrite Nat.add_0_r in Hc. simpl. congruence. }
    rewrite list_insert_insert_eq. apply Forall_insert; [done|].
    apply stacked_reveal, stacked_take.
    eapply Forall_lookup_1 in Hcols1; done.
  - unfold Game_moveFromPileToColumn.
    destruct (ASSERT _) as [[]|] eqn:Ha; [|done].
    apply ASSERT_Some, index_check_inv in Ha. simpl.
    destruct (last (pile g)) as [card|] eqn:Hp; [|done].
    rewrite column_nonneg by lia.
    destruct (columns g !! Z.to_nat toCol) as [to|] eqn:Hto; [|done]. simpl.
    match goal with |- (if ?b then _ else _) = _ → _ =>
      destruct b eqn:Hland end; [done|].
    intros [= <-]. simpl.
    apply Forall_insert; [done|]. apply stacked_app.
    + eapply Forall_lookup_1 in Hcols; done.
    + apply stacked_singleton.
    + by apply landing_junction.
  - unfold Game_moveFromPileToReserve.
    destruct (ASSERT _) as [[]|] eqn:Ha; [|done]. simpl.
    destruct (last (pile g)) as [card|] eqn:Hp; [|done].
    destruct (reserveSlot g slot) as [r|]; [|done]. simpl.
    match goal with |- (if ?b then _ else _) = _ → _ => destruct b end; [|done].
    by intros [= <-].
  - unfold Game_moveFromColumnToReserve.
    destruct (ASSERT ((fromCol <? _) && _)) as [[]|] eqn:Hf; [|done].
    apply ASSERT_Some, index_check_inv in Hf. simpl.
    destruct (ASSERT ((slot <? _) && _)) as [[]|]; [|done]. simpl.
    rewrite column_nonneg by lia.
    destruct (columns g !! Z.to_nat fromCol) as [col|] eqn:Hcol; [|done].
    simpl. destruct (last col) as [card|] eqn:Hp; [|done].
    destruct (negb (isFacingUp card)) eqn:Hup; [done|].
    destruct (reserveSlot g slot) as [r|]; [|done]. simpl.
    match goal with |- (if ?b then _ else _) = _ → _ => destruct b end; [|done].
    intros [= <-]. simpl.
    apply Forall_insert; [done|]. apply stacked_reveal, stacked_take.
    eapply Forall_lookup_1 in Hcols; done.
  - unfold Game_moveFromReserveToColumn.
    destruct (ASSERT ((slot <? _) && _)) as [[]|] eqn:Ha; [|done].
    apply ASSERT_Some, index_check_inv in Ha. simpl.
    destruct (ASSERT ((toCol <? _) && _)) as [[]|]; [|done]. simpl.
    destruct (column g toCol) as [col|] eqn:Hcol; [|done]. simpl.
    destruct (reserveSlot g slot) as [card|] eqn:Hr; [|done]. simpl.
    match goal with |- (if ?b then _ else _) = _ → _ =>
      destruct b eqn:Hland end; [done|].
    assert (0 ≤ toCol) as Ht.
    { unfold column in Hcol. destruct (toCol <? 0) eqn:E; [done|].
      by apply Z.ltb_ge. }
    rewrite column_nonneg in Hcol by lia.
    assert (Forall stacked
              (<[Z.to_nat toCol:=col ++ [card]]> (columns g))) as Hcols1.
    { apply Forall_insert; [done|]. apply stacked_app.
      - eapply Forall_lookup_1 in Hcols; done.
      - apply stacked_singleton.
      - by apply landing_junction. }
    destruct (negb (getRank card =? Ace)); by intros [= <-].
  - unfold handleCommand_przetasuj.
    destruct (negb (Deck_isEmpty (deck g))); [done|].
    unfold Deck_reShuffle. destruct (ASSERT _); [|done]. simpl.
    by intros [= <-].
Qed.

Lemma stacked_start gen u g :
  Game_start (Game_new gen u) = Some g → Forall stacked (columns g).
Proof.
  intros Hstart.
  destruct (start_state gen u) as (g0 & Hg0 & _ & _ & _ & Hcol & _).
  simplify_eq. apply Forall_lookup_2. intros k col Hk.
  destruct (Hcol k col Hk) as (down & top & -> & _ & Hd & _).
  intros i a b Ha Hb Hup.
  assert (S i < length (down ++ [top]))%nat as Hlt
    by (by eapply lookup_lt_Some).
  rewrite length_app in Hlt. simpl in Hlt.
  rewrite lookup_app_l in Ha by lia.
  eapply Forall_lookup_1 in Hd; [|done]. simpl in Hd. congruence.
Qed.

Lemma stacked_reachable g : reachable g → Forall stacked (columns g).
Proof.
  induction 1 as [gen u g Hstart|op g b g' _ IH Hex].
  - by eapply stacked_start.
  - destruct b; [by eapply stacked_step|].
    by apply exec_false in Hex as ->.
Qed.

(** X10. In every state reached from [start()], a face-up card of a column
    that has a card on it is one rank above that card and of the other
    colour. *)
Theorem columns_stacked_in_play (g : Game) :
  reachable g → Forall stacked (columns g).
Proof. apply stacked_reachable. Qed.

Lemma stacked_chain col (n k : nat) a b :
  stacked col → Forall (λ c, facingUp c = true) (drop n col) →
  col !! n = Some a → col !! (n + k)%nat = Some b →
  getRank a = getRank b + Z.of_nat k.
Proof.
  intros Hs Hup Ha. revert b.
  induction k as [|k IH]; intros b Hb.
  - rewrite Nat.add_0_r in Hb. simplify_eq. lia.
  - replace (n + S k)%nat with (S (n + k)) in Hb by lia.
    destruct (col !! (n + k)%nat) as [c|] eqn:Hc.
    2: { apply lookup_ge_None in Hc. apply lookup_lt_Some in Hb. lia. }
    assert (facingUp c = true) as Hcup.
    { eapply Forall_lookup_1 in Hup; [exact Hup|].
      by rewrite lookup_drop. }
    destruct (Hs _ _ _ Hc Hb Hcup) as [Hr _]. rewrite (IH c) by done. lia.
Qed.

Lemma run_without_reserves ops g g' :
  reachable_without_reserves g → Forall no_reserve ops →
  run ops g = Some g' → reachable_without_reserves g'.
Proof.
  intros Hg Hops. revert g Hg.
  induction Hops as [|op ops Hop _ IH]; intros g Hg; simpl.
  - by intros [= <-].
  - destruct (exec op g) as [[b g1]|] eqn:Hex; [|done]. simpl.
    apply IH. by eapply without_reserves_step.
Qed.

Lemma columns_stacked_in_play_witness :
  ∃ g0 g, unshuffled_start = Some g0
          ∧ run column_play g0 = Some g
          ∧ Forall stacked (columns g).
Proof.
  eexists _, _. split; [vm_compute; reflexivity|].
  split; [vm_compute; reflexivity|].
  eapply columns_stacked_in_play, (run_reachable column_play).
  - eapply (reachable_start identity_generator (λ _, blank)).
    vm_compute. reflexivity.
  - vm_compute. reflexivity.
Defined.

Lemma conservation_without_reserves_witness :
  ∃ g0 g, unshuffled_start = Some g0
          ∧ run column_play g0 = Some g
          ∧ pairs_in_play g ≡ₚ canonical_pairs.
Proof.
  eexists _, _. split; [vm_compute; reflexivity|].
  split; [vm_compute; reflexivity|].
  eapply conservation_without_reserves, (run_without_reserves column_play).
  - eapply (without_reserves_start identity_generator (λ _, blank)).
    vm_compute. reflexivity.
  - by repeat constructor.
  - vm_compute. reflexivity.
Defined.

(** X11. In play, as long as no card is taken from an empty reserve slot,
    [moveCard] from a column onto itself is always rejected: it returns
    [false] and leaves the game as it is. *)
Theorem moveCard_onto_itself_in_play (g : Game) (col count : Z) :
  reachable_from_occupied g → 0 ≤ col < columnsSize →
  Game_moveCard col col count g = Some (false, g).
Proof.
  intros Hg Hcol.
  pose proof (faces_reachable g Hg) as (_ & _ & Htidy & _).
  apply from_occupied_reachable in Hg.
  pose proof (reachable_shape g Hg) as [Hlen _].
  pose proof (stacked_reachable g Hg) as Hst.
  unfold Game_moveCard. rewrite ASSERT_index by done. simpl.
  rewrite column_nonneg by lia.
  destruct (columns g !! Z.to_nat col) as [cards|] eqn:Hcards.
  2: { apply lookup_ge_None in Hcards. unfold columnsSize in Hcol. lia. }
  simpl.
  destruct ((count <=? 0) || (count >? Z.of_nat (length cards))) eqn:Hc;
    [done|].
  apply orb_false_iff in Hc as [Hc1%Z.leb_gt Hc2]. rewrite Z.gtb_ltb in Hc2.
  apply Z.ltb_ge in Hc2.
  destruct (cards !! _) as [startCard|] eqn:Hstart.
  2: { apply lookup_ge_None in Hstart. lia. }
  simpl. destruct (negb (isFacingUp startCard)) eqn:Hup; [done|].
  apply negb_false_iff in Hup.
  destruct (last cards) as [top|] eqn:Htop.
  2: { apply last_None in Htop. subst. simpl in Hc2. lia. }
  eapply Forall_lookup_1 in Htidy; [|done].
  eapply Forall_lookup_1 in Hst; [|done].
  rewrite last_lookup in Htop.
  pose proof (stacked_chain cards _ (Z.to_nat (count - 1)) startCard top Hst
                (sorted_faces_run _ _ _ (tidy_column_sorted _ Htidy) Hstart Hup)
                Hstart) as Hchain.
  rewrite Hchain.
  2: { rewrite <- Htop. f_equal. lia. }
  replace (getRank top =? getRank top + Z.of_nat (Z.to_nat (count - 1)) + 1)
    with false by (symmetry; apply Z.eqb_neq; lia).
  by rewrite orb_true_r.
Qed.

Lemma moveCard_onto_itself_in_play_witness :
  ∃ g0 g, unshuffled_start = Some g0
          ∧ run column_play g0 = Some g
          ∧ Game_moveCard 0 0 2 g = Some (false, g).
Proof.
  eexists _, _. split; [vm_compute; reflexivity|].
  split; [vm_compute; reflexivity|].
  apply moveCard_onto_itself_in_play; [|unfold columnsSize; lia].
  eapply (run_from_occupied column_play).
  - eapply (from_occupied_start identity_generator (λ _, blank)).
    vm_compute. reflexivity.
  - by repeat constructor.
  - vm_compute. reflexivity.
Defined.

(** * Further properties of the save-file codec *)

Lemma byte_range a : 0 ≤ Z.land a 255 < 256.
Proof.
  change 255 with (Z.ones 8). rewrite Z.land_ones by lia.
  apply Z.mod_pos_bound. lia.
Qed.

Lemma writeInt_buffer_bytes v : Forall (λ b, 0 ≤ b < 256) (writeInt_buffer v).
Proof. unfold writeInt_buffer. repeat constructor; apply byte_range. Qed.

Lemma card_image_length c : length (card_image c) = 10%nat.
Proof. reflexivity. Qed.

Lemma card_image_bytes c : Forall (λ b, 0 ≤ b < 256) (card_image c).
Proof.
  unfold card_image. rewrite !Forall_app.
  repeat split; try apply writeInt_buffer_bytes;
    constructor; try done; by case_match.
Qed.

Lemma cards_image_length cards :
  length (cards_image cards) = (10 * length cards)%nat.
Proof.
  unfold cards_image. induction cards as [|c cards IH]; [done|].
  change (mjoin (card_image <$> c :: cards))
    with (card_image c ++ mjoin (card_image <$> cards)).
  rewrite length_app, IH, card_image_length. simpl. lia.
Qed.

Lemma cards_image_bytes cards :
  Forall (λ b, 0 ≤ b < 256) (cards_image cards).
Proof.
  unfold cards_image. induction cards as [|c cards IH]; [constructor|].
  change (mjoin (card_image <$> c :: cards))
    with (card_image c ++ mjoin (card_image <$> cards)).
  apply Forall_app. split; [apply card_image_bytes | done].
Qed.

Lemma counted_image_length cards :
  length (counted_image cards) = (4 + 10 * length cards)%nat.
Proof.
  unfold counted_image. rewrite length_app, cards_image_length. reflexivity.
Qed.

Lemma counted_image_bytes cards :
  Forall (λ b, 0 ≤ b < 256) (counted_image cards).
Proof.
  unfold counted_image. apply Forall_app.
  split; [apply writeInt_buffer_bytes | apply cards_image_bytes].
Qed.

Lemma columns_image_length cols :
  length (mjoin (counted_image <$> cols))
  = (4 * length cols + 10 * length (mjoin cols))%nat.
Proof.
  induction cols as [|col cols IH]; [done|].
  change (mjoin (counted_image <$> col :: cols))
    with (counted_image col ++ mjoin (counted_image <$> cols)).
  change (mjoin (col :: cols)) with (col ++ mjoin cols).
  rewrite !length_app, IH, counted_image_length. simpl. lia.
Qed.

Lemma columns_image_bytes cols :
  Forall (λ b, 0 ≤ b < 256) (mjoin (counted_image <$> cols)).
Proof.
  induction cols as [|col cols IH]; [constructor|].
  change (mjoin (counted_image <$> col :: cols))
    with (counted_image col ++ mjoin (counted_image <$> cols)).
  apply Forall_app. split; [apply counted_image_bytes | done].
Qed.

Lemma magicNumber_bytes : Forall (λ b, 0 ≤ b < 256) magicNumber.
Proof. vm_compute. repeat constructor; done. Qed.

(** X12. [writeInt] writes four bytes, and [readInt] reads from them the
    value that was written, whatever follows them in the file: so for every
    [int32_t], the negative ones and the error value -1 included. *)
Theorem writeInt_then_readInt (v : Z) (r : Reader) :
  - 2 ^ 31 ≤ v < 2 ^ 31 →
  length (writeInt v []) = 4%nat
  ∧ Forall (λ b, 0 ≤ b < 256) (writeInt v [])
  ∧ readInt (writeInt v [] ++ r) = (v, r).
Proof.
  intros Hv. unfold writeInt. rewrite app_nil_l.
  split; [done|]. split; [apply writeInt_buffer_bytes|].
  by apply readInt_writeInt.
Qed.

Lemma writeInt_then_readInt_witness :
  readInt (writeInt (-1) [] ++ [7]) = (-1, [7]).
Proof. apply (writeInt_then_readInt (-1) [7]). by vm_compute. Defined.

(** X13. [writeCard] writes ten bytes, and [readCard] reads from them the
    card that was written, whatever follows them in the file. *)
Theorem writeCard_then_readCard (c : Card) (r : Reader) :
  Card_wf c →
  length (writeCard c []) = 10%nat
  ∧ readCard (writeCard c [] ++ r) = (c, r).
Proof.
  intros Hc. rewrite writeCard_image, app_nil_l.
  split; [apply card_image_length|]. by apply readCard_writeCard.
Qed.

Lemma writeCard_then_readCard_witness :
  readCard (writeCard nineOfClubs [] ++ [7]) = (nineOfClubs, [7]).
Proof.
  apply (writeCard_then_readCard nineOfClubs [7]).
  by vm_compute.
Defined.

(** X14. With fewer than four bytes left in the file, [readCard] reports
    nothing: the card becomes a valid, face-up card of suit 255 and rank
    255, and the file is exhausted. *)
Theorem readCard_past_the_end (r : Reader) :
  (length r < 4)%nat → readCard r = (mkCard 255 255 true true, []).
Proof.
  intros Hr. destruct r as [|b0 [|b1 [|b2 [|b3 r]]]]; try done.
  simpl in Hr. lia.
Qed.

Lemma readCard_past_the_end_witness :
  readCard [1; 0; 0] = (garbage_card, []).
Proof. apply (readCard_past_the_end [1; 0; 0]). simpl. lia. Defined.

(** X15. When the file opens, [saveFileGame] writes a file of 85 bytes and
    ten more for each card of the deck, the columns and the pile. *)
Theorem saveFileGame_file_size (name : string) (g : Game) (fs : FileSystem) :
  opens_for_output fs (name +:+ ".sot") = true →
  length (columns g) = 7%nat → length (reserveSlots g) = 4%nat →
  ∃ file,
    files (Game_saveFileGame name g fs).2 !! (name +:+ ".sot")%string
      = Some file
    ∧ length file
      = (85 + 10 * (length (deck g) + length (mjoin (columns g))
                    + length (pile g)))%nat
    ∧ Forall (λ b, 0 ≤ b < 256) file.
Proof.
  intros Hopen Hc Hr. rewrite saveFileGame_writes by done. simpl.
  exists (save_image g). split; [apply lookup_insert_eq|].
  unfold save_image. rewrite !firstn_all2 by lia. split.
  - rewrite !length_app, !counted_image_length, columns_image_length,
      cards_image_length, Hc, Hr.
    change (length magicNumber) with 9%nat. lia.
  - rewrite !Forall_app.
    repeat split; auto using magicNumber_bytes, counted_image_bytes,
      columns_image_bytes, cards_image_bytes.
Qed.

Lemma saveFileGame_file_size_witness :
  ∃ file,
    files (Game_saveFileGame "latest" one_card_deck open_disk).2
      !! "latest.sot"%string = Some file
    ∧ length file = 95%nat.
Proof.
  destruct (saveFileGame_file_size "latest" one_card_deck open_disk
              eq_refl eq_refl eq_refl) as (file & Hfile & Hlen & _).
  exists file. split; [exact Hfile | exact Hlen].
Defined.

(** X16. A file of nine bytes or more that does not begin with the magic is
    refused: [readFileGame] returns [false] and changes neither the game
    nor the disk. *)
Theorem readFileGame_checks_the_magic (m : Storage) (name : string)
    (g : Game) (fs : FileSystem) (r : list Z) :
  files fs !! (name +:+ ".sot")%string = Some r →
  (9 ≤ length r)%nat → take 9 r ≠ magicNumber →
  Game_readFileGame m name g fs = (Some (false, g), fs).
Proof.
  intros Hfile Hlen Hmagic. unfold Game_readFileGame, fileExists.
  cbv zeta. set (filename := (name +:+ ".sot")%string) in *.
  rewrite bool_decide_true by (by rewrite Hfile). cbn [negb andb].
  unfold Reader in *. rewrite Hfile.
  destruct (negb (opens_for_input fs filename)); [done|].
  unfold Reader_read. rewrite (proj2 (Nat.leb_le 9 _)) by done.
  rewrite take_app_length' by (rewrite length_take; lia).
  by rewrite bool_decide_false.
Qed.

Lemma readFileGame_checks_the_magic_witness :
  Game_readFileGame blank_storage "notes" one_card_deck notes_disk
  = (Some (false, one_card_deck), notes_disk).
Proof.
  apply (readFileGame_checks_the_magic _ _ _ _ (replicate 12 65)).
  - reflexivity.
  - simpl. lia.
  - by vm_compute.
Defined.

(** X17. [readFileGame] of a name with no file creates the file, empty.
    What it then returns depends on the nine bytes that the buffer [verify]
    held before the call: [false], with the game unchanged, when they are
    not the magic; when they are, the deck size is read as -1 and the
    construction of the vector throws. *)
Theorem readFileGame_missing_file (m : Storage) (name : string) (g : Game)
    (fs : FileSystem) :
  files fs !! (name +:+ ".sot")%string = None →
  opens_for_output fs (name +:+ ".sot") = true →
  opens_for_input fs (name +:+ ".sot") = true →
  ∃ fs',
    files fs' = <[(name +:+ ".sot")%string := []]> (files fs)
    ∧ (take 9 (verify0 m) ≠ magicNumber →
       Game_readFileGame m name g fs = (Some (false, g), fs'))
    ∧ (take 9 (verify0 m) = magicNumber →
       Game_readFileGame m name g fs = (None, fs')).
Proof.
  intros Hfile Hout Hin. eexists (mkFileSystem _ _ _). split; [done|].
  unfold Game_readFileGame, fileExists.
  cbv zeta. set (filename := (name +:+ ".sot")%string) in *.
  rewrite bool_decide_false by (rewrite Hfile; by intros [? ?]).
  rewrite Hout. cbn [negb andb files opens_for_input].
  rewrite lookup_insert_eq, Hin. cbn [negb].
  unfold Reader_read. cbn [length Nat.leb app drop].
  split; intros Hmagic.
  - by rewrite bool_decide_false.
  - by rewrite bool_decide_true.
Qed.

Lemma readFileGame_missing_file_witness :
  (Game_readFileGame blank_storage "latest" one_card_deck open_disk).1
  = Some (false, one_card_deck)
  ∧ (Game_readFileGame stale_storage "latest" one_card_deck open_disk).1
    = None.
Proof.
  destruct (readFileGame_missing_file blank_storage "latest" one_card_deck
              open_disk eq_refl eq_refl eq_refl) as (fs1 & _ & H1 & _).
  destruct (readFileGame_missing_file stale_storage "latest" one_card_deck
              open_disk eq_refl eq_refl eq_refl) as (fs2 & _ & _ & H2).
  rewrite H1 by (by vm_compute). rewrite H2 by reflexivity. done.
Defined.

(** X18. A save file that ends less than four bytes after the magic is not
    refused with [false]: the deck size is read as -1 and the construction
    of the vector throws. *)
Theorem readFileGame_cut_after_magic (m : Storage) (name : string)
    (g : Game) (fs : FileSystem) (r : list Z) :
  files fs !! (name +:+ ".sot")%string = Some (magicNumber ++ r) →
  opens_for_input fs (name +:+ ".sot") = true →
  (length r < 4)%nat →
  Game_readFileGame m name g fs = (None, fs).
Proof.
  intros Hfile Hin Hr. unfold Game_readFileGame, fileExists.
  cbv zeta. set (filename := (name +:+ ".sot")%string) in *.
  rewrite bool_decide_true by (by rewrite Hfile). cbn [negb andb].
  unfold Reader in *. rewrite Hfile, Hin. cbn [negb]. unfold Reader_read.
  assert (length magicNumber = 9%nat) as Hmagic by reflexivity.
  rewrite (proj2 (Nat.leb_le 9 _)) by (rewrite length_app; lia).
  rewrite take_app_length', drop_app_length' by done.
  rewrite take_app_length' by done.
  rewrite bool_decide_true by done. cbn [negb].
  unfold readFileGame_contents.
  by destruct r as [|b0 [|b1 [|b2 [|b3 r]]]]; [..|simpl in Hr; lia].
Qed.

Lemma readFileGame_cut_after_magic_witness :
  Game_readFileGame blank_storage "latest" one_card_deck cut_disk
  = (None, cut_disk).
Proof.
  apply (readFileGame_cut_after_magic _ _ _ _ [1; 0]).
  - reflexivity.
  - reflexivity.
  - simpl. lia.
Defined.

(** X19. Saving a game and reading the file back gives the saved deck,
    columns, pile and reserve slots exactly when the saved deck was
    empty. *)
Theorem save_then_read_exact (m : Storage) (name : string) (g h : Game)
    (fs : FileSystem) :
  Game_wf g → length (columns h) = 7%nat → length (reserveSlots h) = 4%nat →
  opens_for_output fs (name +:+ ".sot") = true →
  opens_for_input fs (name +:+ ".sot") = true →
  ∃ h', (Game_readFileGame m name h (Game_saveFileGame name g fs).2).1
          = Some (true, h')
        ∧ (h' = set_currentCard (currentCard h) g ↔ deck g = []).
Proof.
  intros Hg Hhc Hhr Hout Hin.
  rewrite saveFileGame_writes by done.
  unfold Game_readFileGame, fileExists.
  cbv zeta. set (filename := (name +:+ ".sot")%string) in *.
  cbn [files opens_for_output opens_for_input snd].
  rewrite lookup_insert_eq.
  rewrite bool_decide_true by done. cbn [negb andb].
  cbn [files opens_for_input]. unfold Reader.
  rewrite lookup_insert_eq, Hin. cbn [negb].
  pose proof (read_save_image m g h Hg Hhc Hhr) as Hread.
  destruct (Reader_read (verify0 m) 9 (save_image g)) as [verify r].
  destruct Hread as [Hmagic Hread].
  rewrite bool_decide_true by done. cbn [negb fst].
  rewrite Hread. eexists. split; [done|].
  unfold set_currentCard. split.
  - intros [= Hdeck]. apply (f_equal length) in Hdeck.
    rewrite length_app, length_fmap, length_seq in Hdeck.
    apply nil_length_inv. lia.
  - intros Hdeck. by rewrite Hdeck.
Qed.

Lemma reveal_position_wf : Game_wf reveal_position.
Proof.
  unfold Game_wf, reveal_position.
  cbn [deck columns pile reserveSlots replicate].
  assert (Card_wf blank) as Hblank by (by vm_compute).
  assert (Card_wf nineOfClubs) as Hnine by (by vm_compute).
  assert (Card_wf sixOfHearts) as Hsix by (by vm_compute).
  assert (Card_wf sevenOfSpades) as Hseven by (by vm_compute).
  assert (∀ l : list Card, (length l ≤ 2)%nat → fits_int l) as Hfit.
  { intros l Hl. unfold fits_int.
    apply Z.le_lt_trans with 2; [lia | by vm_compute]. }
  split; [reflexivity|]. split; [reflexivity|].
  split; [apply Hfit; simpl; lia|]. split; [done|].
  split; [repeat apply Forall_cons_2; try done;
          (split; [apply Hfit; simpl; lia | by repeat apply Forall_cons_2])|].
  split; [apply Hfit; simpl; lia|]. split; [done|].
  by repeat apply Forall_cons_2.
Qed.

Lemma save_then_read_exact_witness :
  (Game_readFileGame blank_storage "latest" sentinel_position
     (Game_saveFileGame "latest" reveal_position open_disk).2).1
  = Some (true, reveal_position).
Proof.
  destruct (save_then_read_exact blank_storage "latest" reveal_position
              sentinel_position open_disk reveal_position_wf
              eq_refl eq_refl eq_refl eq_refl)
    as (h' & Hread & Hiff).
  rewrite Hread. do 2 f_equal. by apply Hiff.
Defined.

(** ** A pass through the deck *)

Lemma flip_flip c : flip (flip c) = c.
Proof. destruct c as [s r f v]. unfold flip. simpl. by rewrite negb_involutive. Qed.

Lemma draw_out d : ∀ g,
  deck g = d →
  run (replicate (length d) OpDrawCard) g
  = Some (mkGame [] (default (currentCard g) (flip <$> head d))
                 (columns g) (pile g ++ reverse (flip <$> d))
                 (reserveSlots g)).
Proof.
  induction d as [|c d IH] using rev_ind; intros g Hd.
  - simpl. rewrite app_nil_r. destruct g. simpl in *. by subst.
  - rewrite length_app. simpl length.
    replace (length d + 1)%nat with (S (length d)) by lia.
    cbn [replicate run exec]. unfold Game_drawCard, Deck_isEmpty.
    rewrite Hd, length_app. simpl length.
    replace (length d + 1 =? 0)%nat with false
      by (symmetry; apply Nat.eqb_neq; lia).
    unfold Deck_drawCard, Deck_isEmpty. rewrite length_app. simpl length.
    replace (length d + 1 =? 0)%nat with false
      by (symmetry; apply Nat.eqb_neq; lia).
    cbn [negb ASSERT mbind option_bind].
    replace (length d + 1 - 1)%nat with (length d) by lia.
    unfold Deck. rewrite list_lookup_middle by done.
    rewrite take_app_length. cbn [mbind option_bind].
    rewrite IH by done. cbn [columns pile reserveSlots currentCard].
    rewrite fmap_app, reverse_app. simpl.
    rewrite <- (assoc_L (++)). simpl. do 2 f_equal.
    destruct d as [|x d]; simpl; done.
Qed.

(** X20. [drawCard] called once for every card of the deck empties the
    deck and puts its cards on the pile, each turned over, the top of the
    deck first; a further [drawCard] returns [false].  Columns and reserve
    slots stay as they are. *)
Theorem drawCard_draws_the_deck_out (g : Game) :
  ∃ g', run (replicate (length (deck g)) OpDrawCard) g = Some g'
        ∧ deck g' = []
        ∧ pile g' = pile g ++ reverse (flip <$> deck g)
        ∧ columns g' = columns g
        ∧ reserveSlots g' = reserveSlots g
        ∧ Game_drawCard g' = Some (false, g').
Proof.
  eexists. split; [by apply draw_out|]. by repeat split.
Qed.

(** X21. A pass through the deck: from a state with an empty pile, drawing
    every card of the deck and then reshuffling leaves the pile empty and
    the deck with the cards it had, each showing the side it showed, in the
    order the shuffle gives them. *)
Theorem pass_through_the_deck (gen : Generator) (g : Game) :
  pile g = [] →
  ∃ g', run (replicate (length (deck g)) OpDrawCard ++ [OpReShuffle gen]) g
          = Some g'
        ∧ deck g' ≡ₚ deck g
        ∧ pile g' = []
        ∧ columns g' = columns g
        ∧ reserveSlots g' = reserveSlots g.
Proof.
  intros Hpile.
  assert (∀ ops1 ops2 h h',
            run ops1 h = Some h' → run (ops1 ++ ops2) h = run ops2 h')
    as Hrun.
  { induction ops1 as [|op ops1 IH]; intros ops2 h h'; simpl.
    - by intros [= ->].
    - destruct (exec op h) as [[b h1]|]; [|done]. simpl. apply IH. }
  rewrite (Hrun _ _ _ _ (draw_out (deck g) g eq_refl)).
  simpl. unfold handleCommand_przetasuj, Deck_reShuffle. simpl.
  eexists. split; [done|]. simpl. repeat split.
  rewrite Hpile, app_nil_l. unfold Deck_shuffle.
  rewrite (permute_perm gen), reverse_Permutation, <- list_fmap_compose.
  rewrite (list_fmap_ext (flip ∘ flip) id (deck g))
    by (intros; apply flip_flip).
  by rewrite list_fmap_id.
Qed.

Lemma pass_through_the_deck_witness :
  ∃ g', run [OpDrawCard; OpReShuffle identity_generator] one_card_deck
          = Some g'
        ∧ deck g' ≡ₚ [aceOfHearts].
Proof.
  destruct (pass_through_the_deck identity_generator one_card_deck eq_refl)
    as (g' & Hrun & Hdeck & _).
  exists g'. split; [exact Hrun | exact Hdeck].
Defined.

(** * Further properties of the command line *)

(** ** Split *)

Lemma pieces_nonempty sep s : pieces sep s ≠ [].
Proof.
  destruct s as [|c s]; simpl; [done|].
  destruct (decide (c = sep)); [done|]. by destruct (pieces sep s).
Qed.

Lemma pieces_whole sep a : sep ∉ a → pieces sep a = [a].
Proof.
  induction a as [|c a IH]; intros Ha; simpl; [done|].
  apply not_elem_of_cons in Ha as [Hc Ha].
  destruct (decide (c = sep)); [congruence|]. by rewrite IH.
Qed.

Lemma pieces_app sep a rest :
  sep ∉ a → pieces sep (a ++ sep :: rest) = a :: pieces sep rest.
Proof.
  induction a as [|c a IH]; intros Ha; simpl.
  - by destruct (decide (sep = sep)).
  - apply not_elem_of_cons in Ha as [Hc Ha].
    destruct (decide (c = sep)); [congruence|]. by rewrite IH.
Qed.

Lemma joined_pieces sep s : joined sep (pieces sep s) = s.
Proof.
  induction s as [|c s IH]; simpl; [done|].
  destruct (decide (c = sep)) as [->|Hc].
  - pose proof (pieces_nonempty sep s).
    simpl. destruct (pieces sep s) as [|p ps]; [done|]. by rewrite IH.
  - pose proof (pieces_nonempty sep s).
    destruct (pieces sep s) as [|p ps]; [done|].
    destruct ps as [|q ps]; simpl in *; by rewrite <- IH.
Qed.

Lemma pieces_clean sep s : Forall (λ p, sep ∉ p) (pieces sep s).
Proof.
  induction s as [|c s IH]; simpl.
  - repeat constructor. apply not_elem_of_nil.
  - destruct (decide (c = sep)) as [->|Hc].
    + constructor; [apply not_elem_of_nil | done].
    + destruct (pieces sep s) as [|p ps]; simpl.
      * repeat constructor. apply not_elem_of_cons.
        split; [done | apply not_elem_of_nil].
      * apply Forall_cons in IH as [Hp Hps]. constructor; [|done].
        apply not_elem_of_cons. split; [done | done].
Qed.

Lemma pieces_length sep s :
  length (pieces sep s) = S (length (filter (λ c, c = sep) s)).
Proof.
  induction s as [|c s IH]; simpl; [done|].
  rewrite filter_cons. destruct (decide (c = sep)) as [->|Hc]; simpl.
  - by rewrite IH.
  - pose proof (pieces_nonempty sep s).
    destruct (pieces sep s) as [|p ps]; [done|]. simpl in *. done.
Qed.

Lemma Split_loop_pieces sep s fuel : ∀ pre rest out,
  s = pre ++ rest → (N.of_nat (length s) < 2 ^ 64)%N →
  (length rest < fuel)%nat →
  Split_loop fuel s sep (N.of_nat (length pre)) (N.of_nat (length pre)) out
  = Some (out ++ pieces sep rest).
Proof.
  induction fuel as [|fuel IH]; intros pre rest out Hs Hlen Hfuel; [lia|].
  assert (length s = (length pre + length rest)%nat) as Hsize
    by (by rewrite Hs, length_app).
  assert (drop (length pre) s = rest) as Hdrop
    by (rewrite Hs; apply drop_app_length).
  cbn [Split_loop]. unfold string_find, substr. cbv zeta.
  rewrite !Nat2N.id, !Hdrop.
  replace (N.of_nat (length s) <? N.of_nat (length pre))%N with false
    by (symmetry; apply N.ltb_ge; lia).
  destruct (list_find (λ c, c = sep) rest) as [[i x]|] eqn:Hfind.
  - apply list_find_Some in Hfind as (Hi & -> & Hmin).
    pose proof (lookup_lt_Some _ _ _ Hi) as Hlt.
    replace (N.of_nat (length pre) + N.of_nat i =? npos)%N with false
      by (symmetry; apply N.eqb_neq; unfold npos; lia).
    replace (N.of_nat (length rest)
             <=? N.of_nat (length pre) + N.of_nat i - N.of_nat (length pre))%N
      with false by (symmetry; apply N.leb_gt; lia).
    cbn [mbind option_bind].
    replace (N.to_nat (N.of_nat (length pre) + N.of_nat i
                       - N.of_nat (length pre))) with i by lia.
    assert (rest = take i rest ++ sep :: drop (S i) rest) as Hrest
      by (symmetry; by apply take_drop_middle).
    assert (sep ∉ take i rest) as Hclean.
    { intros (j & Hj)%list_elem_of_lookup_1.
      apply lookup_take_Some in Hj as [Hj Hji]. by eapply Hmin. }
    replace (N.of_nat (length pre) + N.of_nat i + 1)%N
      with (N.of_nat (length (pre ++ take i rest ++ [sep]))).
    2: { rewrite !length_app, length_take. simpl. lia. }
    rewrite (IH _ (drop (S i) rest)).
    + rewrite <- (assoc_L (++)). simpl. f_equal. f_equal.
      rewrite Hrest at 3. by rewrite pieces_app.
    + rewrite Hs, <- !(assoc_L (++)). simpl. by rewrite <- Hrest.
    + done.
    + rewrite length_drop. lia.
  - apply list_find_None in Hfind.
    rewrite N.eqb_refl.
    replace (N.of_nat (length rest) <=? npos - N.of_nat (length pre))%N
      with true by (symmetry; apply N.leb_le; unfold npos; lia).
    cbn [mbind option_bind]. rewrite pieces_whole; [done|].
    intros Hin. eapply Forall_forall in Hfind; [|exact Hin]. done.
Qed.

(** X22. [Split] returns for every string.  Its result is never empty, no
    piece holds the separator, there is one piece more than there are
    separators in the string, and the pieces with the separator put back
    between them are the string. *)
Theorem Split_splits (s : list Z) (seperator : Z) :
  (N.of_nat (length s) < 2 ^ 64)%N →
  ∃ output,
    Split s seperator = Some output
    ∧ output ≠ []
    ∧ Forall (λ p, seperator ∉ p) output
    ∧ length output = S (length (filter (λ c, c = seperator) s))
    ∧ joined seperator output = s.
Proof.
  intros Hlen. exists (pieces seperator s). split.
  - unfold Split.
    by rewrite (Split_loop_pieces seperator s _ [] s [] eq_refl Hlen)
      by (simpl; lia).
  - split; [apply pieces_nonempty|]. split; [apply pieces_clean|].
    split; [apply pieces_length | apply joined_pieces].
Qed.

Lemma Split_splits_witness :
  ∃ output, Split (bytes "p 7  1") 32 = Some output
            ∧ length output = 4%nat.
Proof.
  destruct (Split_splits (bytes "p 7  1") 32) as (out & Hout & _ & _ & Hlen & _).
  - by vm_compute.
  - exists out. split; [exact Hout | exact Hlen].
Defined.

(** ** hash *)

Lemma len_loop_cstring s : ∀ fuel pre rest,
  0 ∉ s → (length s < fuel)%nat →
  len_loop fuel (pre ++ s ++ 0 :: rest) (length pre)
  = Some (length pre + length s)%nat.
Proof.
  induction s as [|c s IH]; intros fuel pre rest Hs Hfuel;
    (destruct fuel as [|fuel]; [simpl in Hfuel; lia|]); cbn [len_loop].
  - simpl. rewrite list_lookup_middle by done. simpl.
    by rewrite Nat.add_0_r.
  - apply not_elem_of_cons in Hs as [Hc Hs]. simpl app.
    rewrite list_lookup_middle by done. cbn [mbind option_bind].
    replace (c =? 0) with false by (symmetry; apply Z.eqb_neq; congruence).
    replace (pre ++ c :: s ++ 0 :: rest)
      with ((pre ++ [c]) ++ s ++ 0 :: rest)
      by (by rewrite <- (assoc_L (++))).
    replace (S (length pre)) with (length (pre ++ [c]))
      by (rewrite length_app; simpl; lia).
    rewrite IH by (simpl in Hfuel; done || lia).
    rewrite length_app. simpl. f_equal. lia.
Qed.

Lemma hash_loop_fold s : ∀ pre rest h,
  hash_loop (length s) (pre ++ s ++ rest) (length pre) h
  = Some (foldl (λ h c, to_uint32 (Z.lxor h c * prime)) h s).
Proof.
  induction s as [|c s IH]; intros pre rest h; [done|].
  cbn [length hash_loop foldl]. simpl app.
  rewrite list_lookup_middle by done. cbn [mbind option_bind].
  replace (pre ++ c :: s ++ rest) with ((pre ++ [c]) ++ s ++ rest)
    by (by rewrite <- (assoc_L (++))).
  replace (S (length pre)) with (length (pre ++ [c]))
    by (rewrite length_app; simpl; lia).
  apply IH.
Qed.

Lemma fold_range s h :
  0 ≤ h < 2 ^ 32 →
  0 ≤ foldl (λ h c, to_uint32 (Z.lxor h c * prime)) h s < 2 ^ 32.
Proof.
  revert h. induction s as [|c s IH]; intros h Hh; [done|].
  simpl. apply IH. unfold to_uint32. apply Z.mod_pos_bound. lia.
Qed.

(** X23. The two overloads of [hash] agree: the hash that the compiler
    computes of a literal and the hash computed of a [std::string] with the
    same characters are the same 32-bit value. *)
Theorem hash_overloads_agree (s : list Z) :
  0 ∉ s →
  ∃ h, hash_cstring (s ++ [0]) = Some h
       ∧ hash_string s = Some h
       ∧ 0 ≤ h < 2 ^ 32.
Proof.
  intros Hs. exists (foldl (λ h c, to_uint32 (Z.lxor h c * prime)) basis s).
  split; [|split].
  - unfold hash_cstring, len.
    rewrite (len_loop_cstring s _ [] []) by (done || rewrite length_app; simpl; lia).
    cbn [mbind option_bind length Nat.add]. unfold hash.
    apply (hash_loop_fold s [] [0]).
  - unfold hash_string, hash. apply (hash_loop_fold s [] [0]).
  - apply fold_range. by vm_compute.
Qed.

Lemma hash_overloads_agree_witness :
  hash_literal "przenies" = hash_string (bytes "przenies").
Proof.
  destruct (hash_overloads_agree (bytes "przenies")) as (h & H1 & H2 & _).
  - apply (bool_decide_unpack _). by vm_compute.
  - unfold hash_literal. by rewrite H1, H2.
Defined.

(** ** isValidFilename *)

Lemma find_first_of_None s chars :
  is_Some (find_first_of s chars) ↔ Exists (λ c, c ∈ chars) s.
Proof.
  unfold find_first_of. rewrite fmap_is_Some. split.
  - intros [[i c] (Hi & Hc & _)%list_find_Some].
    apply Exists_exists. exists c. split; [|done].
    by eapply list_elem_of_lookup_2.
  - intros (c & Hin & Hc)%Exists_exists.
    apply list_elem_of_lookup_1 in Hin as [i Hi].
    destruct (list_find_elem_of (λ c, c ∈ chars) s c) as [[j y] Hj];
      [by eapply list_elem_of_lookup_2 | done | by eexists].
Qed.

Lemma allSpacesOrDots_false s :
  allSpacesOrDots s = false ↔ Exists (λ c, c ≠ 32 ∧ c ≠ 46) s.
Proof.
  induction s as [|c s IH]; simpl.
  - split; [done | by intros ?%Exists_nil].
  - rewrite Exists_cons, <- IH.
    destruct (Z.eqb_spec c 32) as [->|H1]; simpl.
    + split; [by right | intros [[? _]|?]; done].
    + destruct (Z.eqb_spec c 46) as [->|H2]; simpl.
      * split; [by right | intros [[_ ?]|?]; done].
      * split; [by left | done].
Qed.

Lemma isValidFilename_spec filename :
  isValidFilename filename = true
  ↔ (1 ≤ length filename ≤ 255)%nat
    ∧ Forall (λ c, c ∉ illegalChars) filename
    ∧ Exists (λ c, c ≠ 32 ∧ c ≠ 46) filename.
Proof.
  unfold isValidFilename. rewrite <- allSpacesOrDots_false.
  case_bool_decide as Hnil.
  { subst. simpl. split; [done | lia]. }
  assert (1 ≤ length filename)%nat as Hpos
    by (destruct filename; [done | simpl; lia]).
  case_bool_decide as Hill.
  { apply find_first_of_None in Hill. split; [done|].
    intros (_ & Hall & _). apply Exists_exists in Hill as (c & Hin & Hc).
    eapply Forall_forall in Hall; [|exact Hin]. done. }
  assert (Forall (λ c, c ∉ illegalChars) filename) as Hall.
  { apply Forall_forall. intros c Hin Hc. apply Hill, find_first_of_None.
    apply Exists_exists. eauto. }
  destruct (allSpacesOrDots filename);
    [split; [done | by intros (_ & _ & ?)]|].
  destruct (255 <? length filename)%nat eqn:Hlen.
  - apply Nat.ltb_lt in Hlen. split; [done | lia].
  - apply Nat.ltb_ge in Hlen. split; [|done]. intros _.
    split; [lia|]. by split.
Qed.

(** X24. [isValidFilename] accepts exactly the names of one to 255
    characters that hold none of the nine illegal characters and at least
    one character other than a space and a dot. *)
Theorem isValidFilename_accepts (filename : list Z) :
  isValidFilename filename = true
  ↔ (1 ≤ length filename ≤ 255)%nat
    ∧ Forall (λ c, c ∉ illegalChars) filename
    ∧ Exists (λ c, c ≠ 32 ∧ c ≠ 46) filename.
Proof. apply isValidFilename_spec. Qed.

(** X25. The save command checks the name and the load menu checks the name
    with [.sot] appended: of the names that the save command accepts, the
    load menu accepts those of at most 251 characters. *)
Theorem saved_name_loads (name : list Z) :
  isValidFilename name = true →
  (isValidFilename (name ++ bytes ".sot") = true ↔ (length name ≤ 251)%nat).
Proof.
  rewrite !isValidFilename_spec. intros (Hlen & Hall & Hex).
  rewrite length_app. change (length (bytes ".sot")) with 4%nat. split.
  - intros (? & _). lia.
  - intros ?. split; [lia|]. split.
    + apply Forall_app. split; [done|].
      apply (bool_decide_unpack _). by vm_compute.
    + apply Exists_app. by left.
Qed.

Lemma saved_name_loads_witness :
  isValidFilename (replicate 252 97) = true
  ∧ isValidFilename (replicate 252 97 ++ bytes ".sot") ≠ true.
Proof.
  assert (isValidFilename (replicate 252 97) = true) as Hname
    by (by vm_compute).
  split; [exact Hname|].
  intros Hfile. apply (saved_name_loads _ Hname) in Hfile.
  rewrite length_replicate in Hfile. lia.
Defined.

(** ** The switch of handleCommand *)

(** X26. Every command word selects its own case of the [switch]: the
    eighteen labels have hashes that tell the twelve cases apart, and the
    hash of the word typed is the hash of the label. *)
Theorem command_words_select_their_case :
  Forall (λ lc, handleCommand_case (bytes lc.1) = Some (Some lc.2))
         case_labels.
Proof. apply (bool_decide_unpack _). by vm_compute. Qed.

(** X29. Whatever is typed, the empty line included, [handleCommand]
    reaches its [switch]: [Split] returns at least one piece, so that
    [splitted[0]] exists, and the number of pieces, which the cases compare
    with the number of arguments they expect, is one more than the number
    of spaces typed. *)
Theorem handleCommand_reaches_the_switch (command : list Z) :
  (N.of_nat (length command) < 2 ^ 64)%N →
  ∃ c splitted,
    handleCommand_switch command = Some (c, splitted)
    ∧ length splitted = S (length (filter (λ ch, ch = 32) command)).
Proof.
  intros Hlen. unfold handleCommand_switch, Split.
  rewrite (Split_loop_pieces 32 command _ [] command [] eq_refl Hlen)
    by (simpl; lia).
  cbn [mbind option_bind app].
  pose proof (pieces_nonempty 32 command) as Hne.
  pose proof (pieces_length 32 command) as Hlength.
  destruct (pieces 32 command) as [|word splitted]; [done|].
  cbn [lookup list_lookup mbind option_bind].
  unfold handleCommand_case, hash_string, hash.
  rewrite (hash_loop_fold word [] [0]). cbn [mbind option_bind].
  eexists _, _. split; [done|]. exact Hlength.
Qed.

Lemma handleCommand_reaches_the_switch_witness :
  ∃ splitted, handleCommand_switch (bytes "pk 3")
              = Some (Some ZPuliDoKolumny, splitted)
              ∧ length splitted = 2%nat.
Proof.
  destruct (handleCommand_reaches_the_switch (bytes "pk 3"))
    as (c & splitted & Hsw & Hlen); [by vm_compute|].
  exists splitted. split; [|exact Hlen].
  rewrite Hsw. f_equal. f_equal.
  assert (handleCommand_switch (bytes "pk 3")
          = Some (Some ZPuliDoKolumny, [bytes "pk"; bytes "3"])) as Hc
    by (by vm_compute).
  rewrite Hc in Hsw. by injection Hsw as <- _.
Defined.

Lemma bound_check x n : (x >? n) || (x <? 1) = false ↔ 1 ≤ x ≤ n.
Proof.
  rewrite orb_false_iff, Z.gtb_ltb, !Z.ltb_ge. lia.
Qed.

(** X27. The numbers typed after [przenies], [z_puli_do_kolumny],
    [z_puli_do_rezerwy] and [z_rezerwy_do_kolumny] are checked before the
    engine is called: whatever they are, in a game of seven columns and
    four reserve slots the command returns, and the engine is never called
    out of range. *)
Theorem typed_numbers_are_checked (g : Game) (u : Card) (from to count : Z) :
  length (columns g) = 7%nat → length (reserveSlots g) = 4%nat →
  is_Some (przenies from to count g)
  ∧ is_Some (z_puli_do_kolumny to g)
  ∧ is_Some (z_puli_do_rezerwy to g)
  ∧ is_Some (z_rezerwy_do_kolumny u from to g).
Proof.
  intros Hc Hr.
  assert (∀ op, in_range op → is_Some (exec op g)) as Hex
    by (intros op; by apply exec_returns).
  unfold columnsSize, reserveSlotSize in *.
  repeat split.
  - unfold przenies.
    destruct ((from >? 7) || (to >? 7) || (from <? 1) || (to <? 1)) eqn:E;
      [done|].
    apply orb_false_iff in E as [E E4]. apply orb_false_iff in E as [E E3].
    apply orb_false_iff in E as [E1 E2]. rewrite Z.gtb_ltb in E1, E2.
    apply Z.ltb_ge in E1, E2, E3, E4.
    destruct (Hex (OpMoveCard (from - 1) (to - 1) count)) as [[b g'] Hm];
      [simpl; unfold columnsSize; lia|].
    simpl in Hm. cbv zeta. by rewrite Hm.
  - unfold z_puli_do_kolumny.
    destruct ((to >? 7) || (to <? 1)) eqn:E; [done|].
    apply bound_check in E.
    destruct (Hex (OpPileToColumn (to - 1))) as [[b g'] Hm];
      [simpl; unfold columnsSize; lia|].
    simpl in Hm. cbv zeta. by rewrite Hm.
  - unfold z_puli_do_rezerwy.
    destruct ((to >? 4) || (to <? 1)) eqn:E; [done|].
    apply bound_check in E.
    destruct (Hex (OpPileToReserve (to - 1))) as [[b g'] Hm];
      [simpl; unfold reserveSlotSize; lia|].
    simpl in Hm. cbv zeta. by rewrite Hm.
  - unfold z_rezerwy_do_kolumny.
    destruct ((from >? 4) || (from <? 1)) eqn:E1; [done|].
    destruct ((to >? 7) || (to <? 1)) eqn:E2; [done|].
    apply bound_check in E1, E2.
    destruct (Hex (OpReserveToColumn u (from - 1) (to - 1))) as [[b g'] Hm];
      [simpl; unfold columnsSize, reserveSlotSize; lia|].
    simpl in Hm. cbv zeta. by rewrite Hm.
Qed.

Lemma typed_numbers_are_checked_witness :
  is_Some (przenies 8 0 (-3) landing_position)
  ∧ is_Some (z_rezerwy_do_kolumny blank 1 7 landing_position).
Proof.
  destruct (typed_numbers_are_checked landing_position blank 8 0 (-3)
              eq_refl eq_refl) as (Hp & _).
  destruct (typed_numbers_are_checked landing_position blank 1 7 0
              eq_refl eq_refl) as (_ & _ & _ & Hrk).
  by split.
Defined.

(** X28. [z_kolumny_do_rezerwy] tests the reserve number twice and never
    that the column number is at least 1: with a reserve number in range,
    the command calls the engine with a negative column exactly when the
    column number typed is below 1, and otherwise returns. *)
Theorem z_kolumny_do_rezerwy_column_below_one (g : Game) (from to : Z) :
  length (columns g) = 7%nat → length (reserveSlots g) = 4%nat →
  1 ≤ to ≤ 4 →
  (z_kolumny_do_rezerwy from to g = None ↔ from < 1).
Proof.
  intros Hc Hr Hto. unfold z_kolumny_do_rezerwy.
  rewrite (proj2 (bound_check to 4)) by done.
  replace (to <? 1) with false by (symmetry; apply Z.ltb_ge; lia).
  rewrite orb_false_r. destruct (from >? 7) eqn:E.
  - rewrite Z.gtb_ltb in E. apply Z.ltb_lt in E. split; [done | lia].
  - rewrite Z.gtb_ltb in E. apply Z.ltb_ge in E. cbv zeta.
    destruct (decide (from < 1)) as [Hlow|Hok].
    + split; [done|]. intros _. unfold Game_moveFromColumnToReserve.
      replace ((from - 1 <? columnsSize) && (from - 1 >=? 0)) with false;
        [done|].
      symmetry. apply andb_false_iff. right.
      rewrite Z.geb_leb. apply Z.leb_gt. lia.
    + split; [|lia]. intros Hnone. exfalso.
      destruct (exec_returns (OpColumnToReserve (from - 1) (to - 1)) g Hc Hr)
        as [[b g'] Hm]; [simpl; unfold columnsSize, reserveSlotSize; lia|].
      simpl in Hm. by rewrite Hm in Hnone.
Qed.

Lemma z_kolumny_do_rezerwy_column_below_one_witness :
  z_kolumny_do_rezerwy 0 1 landing_position = None.
Proof.
  apply (z_kolumny_do_rezerwy_column_below_one landing_position 0 1);
    [reflexivity | reflexivity | lia | lia].
Defined.
